(** * Expression-to-SlithIR lowering: a shallow embedding

    This development embeds [slither/visitors/slithir/expression_to_slithir.py]
    (the visitor [ExpressionToSlithIR] with its scratch store [get]/[set_val],
    the two operator tables and [convert_assignment]) and the base class
    [Call] of [slither/slithir/operations/call.py], and proves properties of
    the instruction streams the visitor emits.

    Python objects are modelled as constructors carrying the attributes the
    code reads.  The per-expression [context] dictionaries are modelled as one
    finite map keyed by the identity of an expression object, which for a
    tree is its position below the statement's root.  The visitor threads an
    instruction buffer, the scratch store and the three fresh-name counters;
    a Python exception aborts the run. *)

From stdpp Require Import gmap strings list pretty.
From Stdlib Require Import ZArith.

Open Scope string_scope.
Open Scope list_scope.

Set Warnings "-register-all".

(** ** Operator enumerations *)

Module BinaryOperationType.
Inductive t : Set :=
| POWER | MULTIPLICATION | DIVISION | MODULO | ADDITION | SUBTRACTION
| LEFT_SHIFT | RIGHT_SHIFT | AND | CARET | OR
| LESS | GREATER | LESS_EQUAL | GREATER_EQUAL | EQUAL | NOT_EQUAL
| ANDAND | OROR
| DIVISION_SIGNED | MODULO_SIGNED | LESS_SIGNED | GREATER_SIGNED
| RIGHT_SHIFT_ARITHMETIC.
End BinaryOperationType.

Module BinaryType.
Inductive t : Set :=
| POWER | MULTIPLICATION | DIVISION | MODULO | ADDITION | SUBTRACTION
| LEFT_SHIFT | RIGHT_SHIFT | AND | CARET | OR
| LESS | GREATER | LESS_EQUAL | GREATER_EQUAL | EQUAL | NOT_EQUAL
| ANDAND | OROR.
End BinaryType.

Module AssignmentOperationType.
Inductive t : Set :=
| ASSIGN | ASSIGN_OR | ASSIGN_CARET | ASSIGN_AND
| ASSIGN_LEFT_SHIFT | ASSIGN_RIGHT_SHIFT
| ASSIGN_ADDITION | ASSIGN_SUBTRACTION | ASSIGN_MULTIPLICATION
| ASSIGN_DIVISION | ASSIGN_MODULO.
End AssignmentOperationType.

Module UnaryOperationType.
Inductive t : Set :=
| BANG | TILD | DELETE
| PLUSPLUS_PRE | MINUSMINUS_PRE | PLUSPLUS_POST | MINUSMINUS_POST
| PLUS_PRE | MINUS_PRE.
End UnaryOperationType.

(** ** Values

    Everything a scratch slot, an operand or a type annotation can hold.
    [VNone] is Python's [None], [VStr] a Python [str] (the pseudo-function
    rules pass the string ["uint256"] where a type is expected), [VList] a
    Python list.  The remaining constructors are the classes of
    [slither.core] and [slither.slithir.variables] the visitor tests with
    [isinstance]; each carries only the attributes the visitor reads.
    [LocalVariable] stands for both [LocalVariable] and [StateVariable];
    [Declaration] stands for any other named declaration (structure, event,
    custom error, ...).  A [Constant] records the arguments of its
    constructor; its [value] attribute is what that constructor (of
    [slither.slithir.variables], not part of the lowering module) converts
    them to, so the [length] of an [ArrayType], which the code takes from
    the [value] of a Constant, is recorded as the Constant it is the value
    of.  A [TemporaryVariable] carries the type [set_type] gives it in the
    rule that creates it ([VNone] when the rule gives none). *)

Inductive Value : Type :=
| VNone
| VStr (s : string)
| VList (l : list Value)
| ElementaryType (name : string)
| ArrayType (type : Value) (length : Value)
| TypeAlias (name : string) (underlying_type : Value)
| Enum (name : string) (min max : Z)
| Contract (name : string)
           (user_defined_types : list (string * Value))
           (custom_errors_as_dict : list (string * Value))
| Function (name : string) (returns : list (option string))
| SolidityFunction (name : string)
| SolidityVariable (name : string)
| SolidityVariableComposed (name : string)
| LocalVariable (name : string) (type : Value)
| LocalVariableInitFromTuple (name : string) (type : Value)
                             (tuple_index : option nat)
| Constant (value : string) (type : Value) (subdenomination : option string)
| TemporaryVariable (index : nat) (type : Value) (location : option string)
| ReferenceVariable (index : nat)
| TupleVariable (index : nat)
| Declaration (name : string).

(** [isinstance(v, list)] *)
Definition is_list (v : Value) : bool :=
  match v with VList _ => true | _ => false end.

(** [isinstance(v, Type)]: elementary, array and alias types. *)
Definition is_Type (v : Value) : bool :=
  match v with
  | ElementaryType _ | ArrayType _ _ | TypeAlias _ _ => true
  | _ => false
  end.

(** [isinstance(v, Variable)]: source variables, constants and the three
    kinds of IR variables. *)
Definition is_Variable (v : Value) : bool :=
  match v with
  | LocalVariable _ _ | LocalVariableInitFromTuple _ _ _ | Constant _ _ _
  | TemporaryVariable _ _ _ | ReferenceVariable _ | TupleVariable _ => true
  | _ => false
  end.

(** [v is None] *)
Definition is_None (v : Value) : bool :=
  match v with VNone => true | _ => false end.

(** ** Expression trees *)

Module Expr.
Inductive Expression : Type :=
| Identifier (value : Value)
| Literal (value : string) (type : Value) (subdenomination : option string)
| ElementaryTypeNameExpression (type : Value)
| AssignmentOperation (expression_left expression_right : Expression)
                      (type : AssignmentOperationType.t)
                      (expression_return_type : Value)
| BinaryOperation (expression_left expression_right : Expression)
                  (type : BinaryOperationType.t)
| UnaryOperation (expression : Expression) (type : UnaryOperationType.t)
| CallExpression (called : Expression)
                 (arguments : list (option Expression))
                 (type_call : string)
                 (call_gas call_value call_salt : option Expression)
| ConditionalExpression (if_expression then_expression
                         else_expression : Expression)
| IndexAccess (expression_left expression_right : Expression) (type : Value)
| MemberAccess (expression : Expression) (member_name : string)
| NewArray (depth : nat) (array_type : Value)
| NewContract (contract_name : string)
              (call_value call_salt : option Expression)
| NewElementaryType (type : Value)
| TupleExpression (expressions : list (option Expression))
                  (is_inline_array : bool)
| TypeConversion (expression : Expression) (type : Value).
End Expr.

Abbreviation Expression := Expr.Expression.

(** The identity of an expression object: its position below the root of the
    statement being lowered.  The root is [[]]; the [k]-th child of the node
    at [p] is [p ++ [k]]. *)
Abbreviation NodeId := (list nat).

Definition child (p : NodeId) (k : nat) : NodeId := p ++ [k].

(** Child positions, per node kind. *)
Definition k_left : nat := 0.
Definition k_right : nat := 1.
Definition k_expression : nat := 0.
Definition k_called : nat := 0.
Definition k_call_gas : nat := 1.
Definition k_call_value : nat := 2.
Definition k_call_salt : nat := 3.
Definition k_argument (i : nat) : nat := 4 + i.
Definition k_if : nat := 0.
Definition k_then : nat := 1.
Definition k_else : nat := 2.
Definition k_element (i : nat) : nat := i.

(** ** The base class [Call] (slither/slithir/operations/call.py) *)

Record Call : Type := mkCall {
  _arguments : list Value;
  _names : option (list string)
}.

(** [Call.__init__(names)]: the assertion on [names] holds for every
    [option (list string)]. *)
Definition Call__init__ (names : option (list string)) : Call :=
  {| _arguments := []; _names := names |}.

Definition names (c : Call) : option (list string) := _names c.
Definition arguments (c : Call) : list Value := _arguments c.
Definition set_arguments (c : Call) (v : list Value) : Call :=
  {| _arguments := v; _names := _names c |}.

Definition can_reenter (self : Call) (_callstack : option (list Value)) : bool :=
  false.

Definition can_send_eth (self : Call) : bool := false.

(** ** IR instructions

    An instruction records the arguments the visitor passes to its
    constructor.  The constructors (the classes of
    [slither.slithir.operations], not part of the lowering module) check
    that their operands are valid sources and destinations, and some give
    their result a type; neither is modelled: an emitted instruction is what
    a rule builds from operands its constructor accepts. *)

Module IR.
Inductive Instr : Type :=
| Assignment (lvalue rvalue : Value) (variable_return_type : Value)
| Binary (result left right : Value) (type : BinaryType.t)
| Unary (result value : Value) (type : UnaryOperationType.t)
| Delete (lvalue variable : Value)
| Index (result left right : Value) (index_type : Value)
| InitArray (init_values : Value) (lvalue : Value)
| InternalCall (base : Call) (function : Value) (nbr_arguments : nat)
               (result : Value) (type_call : string)
| Member (variable_left variable_right result : Value)
| TypeConversion (result variable : Value) (type : Value)
| Unpack (result tuple : Value) (idx : nat)
| Return (values : Value)
| SolidityCall (base : Call) (function : Value) (nbr_arguments : nat)
               (result : Value) (type_call : Value)
| Argument (argument : Value)
| TmpCall (called : Value) (nbr_arguments : nat) (result : Value)
          (type_call : string) (call_gas call_value call_salt : Value)
| TmpNewArray (depth : nat) (array_type : Value) (lvalue : Value)
| TmpNewContract (contract_name : string) (lvalue : Value)
                 (call_value call_salt : Value)
| TmpNewElementaryType (type : Value) (lvalue : Value).

(** An instruction together with the expression [set_expression] attached
    to it ([None] where the visitor never calls [set_expression]). *)
Record Operation : Type := mkOperation {
  instr : Instr;
  expression : option NodeId
}.
End IR.

Abbreviation Operation := IR.Operation.

(** [op.set_expression(expression)] *)
Definition set_expression (op : IR.Instr) (p : NodeId) : Operation :=
  IR.mkOperation op (Some p).

(** An instruction appended without [set_expression]. *)
Definition bare (op : IR.Instr) : Operation := IR.mkOperation op None.

(** ** The lowering monad

    The visitor's mutable state: the instruction buffer [self._result], the
    scratch store (the entries under [key] of every expression's [context]
    dictionary) and the counters from which [TemporaryVariable],
    [ReferenceVariable] and [TupleVariable] draw their fresh index. *)

Inductive Exception : Set :=
| KeyError
| AssertionError
| AttributeError
| IndexError
| SlithIRError (msg : string)
| SlitherException (msg : string)
| PyException (msg : string).

Record State : Type := mkState {
  _result : list Operation;
  context : gmap NodeId Value;
  counter_temporary : nat;
  counter_reference : nat;
  counter_tuple : nat
}.

Definition M (A : Type) : Type := State -> Exception + (A * State).

Definition ret {A} (a : A) : M A := fun st => inr (a, st).

Definition bind {A B} (m : M A) (k : A -> M B) : M B :=
  fun st => match m st with
            | inl e => inl e
            | inr (a, st') => k a st'
            end.

Definition raise {A} (e : Exception) : M A := fun _ => inl e.

(** A computation that reads no state: it returns or raises. *)
Definition lift {A} (r : Exception + A) : M A :=
  match r with
  | inl e => raise e
  | inr a => ret a
  end.

Notation "x <- c ;; k" := (bind c (fun x => k))
  (at level 100, c at next level, right associativity).
Notation "c ;;; k" := (bind c (fun _ => k))
  (at level 100, right associativity).

(** [assert b] *)
Definition assert (b : bool) : M unit :=
  if b then ret tt else raise AssertionError.

(** [self._result.append(op)] *)
Definition append (op : Operation) : M unit :=
  fun st => inr (tt, mkState (_result st ++ [op]) (context st)
                       (counter_temporary st) (counter_reference st)
                       (counter_tuple st)).

(** Modelled from the spec: the numbering of [TemporaryVariable],
    [ReferenceVariable] and [TupleVariable] (their constructors are not part
    of the lowering module): each is "a fresh, uniquely-numbered slot", so
    each kind takes the next value of its own counter. *)
Definition fresh_temporary : M nat :=
  fun st => inr (counter_temporary st,
                 mkState (_result st) (context st)
                   (S (counter_temporary st)) (counter_reference st)
                   (counter_tuple st)).

Definition fresh_reference : M nat :=
  fun st => inr (counter_reference st,
                 mkState (_result st) (context st)
                   (counter_temporary st) (S (counter_reference st))
                   (counter_tuple st)).

Definition fresh_tuple : M nat :=
  fun st => inr (counter_tuple st,
                 mkState (_result st) (context st)
                   (counter_temporary st) (counter_reference st)
                   (S (counter_tuple st))).

(** ** The scratch store: [get], [get_without_removing], [set_val] *)

Definition get (expression : NodeId) : M Value :=
  fun st => match context st !! expression with
            | None => inl KeyError
            | Some val =>
                inr (val, mkState (_result st) (delete expression (context st))
                            (counter_temporary st) (counter_reference st)
                            (counter_tuple st))
            end.

Definition get_without_removing (expression : NodeId) : M Value :=
  fun st => match context st !! expression with
            | None => inl KeyError
            | Some val => inr (val, st)
            end.

Definition set_val (expression : NodeId) (val : Value) : M unit :=
  fun st => inr (tt, mkState (_result st) (<[expression := val]> (context st))
                       (counter_temporary st) (counter_reference st)
                       (counter_tuple st)).

(** ** The operator tables *)

Definition _binary_to_binary (t : BinaryOperationType.t) : option BinaryType.t :=
  match t with
  | BinaryOperationType.POWER => Some BinaryType.POWER
  | BinaryOperationType.MULTIPLICATION => Some BinaryType.MULTIPLICATION
  | BinaryOperationType.DIVISION => Some BinaryType.DIVISION
  | BinaryOperationType.MODULO => Some BinaryType.MODULO
  | BinaryOperationType.ADDITION => Some BinaryType.ADDITION
  | BinaryOperationType.SUBTRACTION => Some BinaryType.SUBTRACTION
  | BinaryOperationType.LEFT_SHIFT => Some BinaryType.LEFT_SHIFT
  | BinaryOperationType.RIGHT_SHIFT => Some BinaryType.RIGHT_SHIFT
  | BinaryOperationType.AND => Some BinaryType.AND
  | BinaryOperationType.CARET => Some BinaryType.CARET
  | BinaryOperationType.OR => Some BinaryType.OR
  | BinaryOperationType.LESS => Some BinaryType.LESS
  | BinaryOperationType.GREATER => Some BinaryType.GREATER
  | BinaryOperationType.LESS_EQUAL => Some BinaryType.LESS_EQUAL
  | BinaryOperationType.GREATER_EQUAL => Some BinaryType.GREATER_EQUAL
  | BinaryOperationType.EQUAL => Some BinaryType.EQUAL
  | BinaryOperationType.NOT_EQUAL => Some BinaryType.NOT_EQUAL
  | BinaryOperationType.ANDAND => Some BinaryType.ANDAND
  | BinaryOperationType.OROR => Some BinaryType.OROR
  | _ => None
  end.

Definition _signed_to_unsigned (t : BinaryOperationType.t) : option BinaryType.t :=
  match t with
  | BinaryOperationType.DIVISION_SIGNED => Some BinaryType.DIVISION
  | BinaryOperationType.MODULO_SIGNED => Some BinaryType.MODULO
  | BinaryOperationType.LESS_SIGNED => Some BinaryType.LESS
  | BinaryOperationType.GREATER_SIGNED => Some BinaryType.GREATER
  | BinaryOperationType.RIGHT_SHIFT_ARITHMETIC => Some BinaryType.RIGHT_SHIFT
  | _ => None
  end.

(** [d[k]] on a table: [KeyError] when [k] has no entry. *)
Definition lookup_table {A} (o : option A) : M A :=
  match o with Some a => ret a | None => raise KeyError end.

(** ** [convert_assignment]

    Every member of [AssignmentOperationType] has a branch, so the final
    [raise SlithIRError] of the source is not reached. *)
Definition convert_assignment (left right : Value)
    (t : AssignmentOperationType.t) (return_type : Value) : IR.Instr :=
  match t with
  | AssignmentOperationType.ASSIGN => IR.Assignment left right return_type
  | AssignmentOperationType.ASSIGN_OR => IR.Binary left left right BinaryType.OR
  | AssignmentOperationType.ASSIGN_CARET => IR.Binary left left right BinaryType.CARET
  | AssignmentOperationType.ASSIGN_AND => IR.Binary left left right BinaryType.AND
  | AssignmentOperationType.ASSIGN_LEFT_SHIFT =>
      IR.Binary left left right BinaryType.LEFT_SHIFT
  | AssignmentOperationType.ASSIGN_RIGHT_SHIFT =>
      IR.Binary left left right BinaryType.RIGHT_SHIFT
  | AssignmentOperationType.ASSIGN_ADDITION =>
      IR.Binary left left right BinaryType.ADDITION
  | AssignmentOperationType.ASSIGN_SUBTRACTION =>
      IR.Binary left left right BinaryType.SUBTRACTION
  | AssignmentOperationType.ASSIGN_MULTIPLICATION =>
      IR.Binary left left right BinaryType.MULTIPLICATION
  | AssignmentOperationType.ASSIGN_DIVISION =>
      IR.Binary left left right BinaryType.DIVISION
  | AssignmentOperationType.ASSIGN_MODULO =>
      IR.Binary left left right BinaryType.MODULO
  end.

(** ** The environment of one lowering

    What the visitor reads from outside its module: the two flags of the
    owning node, the constant folder, and the tables behind the [min],
    [max], [return_type] and [type] attributes of built-in symbols. *)

(** The [value] of the literal a successful [ConstantFolding] returns. *)
Inductive Folded : Type :=
| FBool (b : bool)
| FInt (z : Z)
| FStr (s : string)
| FOther (repr : string).

Record Env : Type := mkEnv {
  (** [self._node.compilation_unit.generates_certik_ir] *)
  generates_certik_ir : bool;
  (** [node.type == NodeType.RETURN] *)
  node_is_RETURN : bool;
  (** [ConstantFolding(expression, expression.type).result().value];
      [None] when the constructor raises [NotConstant] or
      [AttributeError]. *)
  ConstantFolding : Expression -> option Folded;
  (** [ElementaryType(name).min] and [.max]; [None] when the type has
      none. *)
  MinValues : string -> option Z;
  MaxValues : string -> option Z;
  (** [SolidityFunction(name).return_type] *)
  SOLIDITY_FUNCTIONS : string -> Value;
  (** [SolidityVariable(name).type] *)
  SOLIDITY_VARIABLES : string -> Value
}.

(** [str(v)] for a folded value. *)
Definition py_str (v : Folded) : string :=
  match v with
  | FBool true => "True"
  | FBool false => "False"
  | FInt z => pretty z
  | FStr s => s
  | FOther repr => repr
  end.

(** ** Attribute access *)

(** [v.type]; [AttributeError] for objects without the attribute.  Fresh
    reference and tuple variables are untyped. *)
Definition type_attr (env : Env) (v : Value) : Exception + Value :=
  match v with
  | LocalVariable _ t | LocalVariableInitFromTuple _ t _
  | Constant _ t _ | TemporaryVariable _ t _ => inr t
  | ReferenceVariable _ | TupleVariable _ => inr VNone
  | SolidityVariable n | SolidityVariableComposed n =>
      inr (SOLIDITY_VARIABLES env n)
  | ElementaryType n => inr (VStr n)
  | ArrayType t _ => inr t
  | TypeAlias _ u => inr u
  | _ => inl AttributeError
  end.

(** Modelled from the spec: the names of the IR variables (the classes of
    [slither.slithir.variables] are not part of the lowering module): a
    Temporary, Reference or Tuple is "a fresh, uniquely-numbered slot", and a
    Constant is named by its value.  Declarations carry their name;
    [AttributeError] for objects without one. *)
Definition name_attr (v : Value) : Exception + string :=
  match v with
  | ElementaryType n | TypeAlias n _ | Enum n _ _ | Contract n _ _
  | Function n _ | SolidityFunction n | SolidityVariable n
  | SolidityVariableComposed n | LocalVariable n _
  | LocalVariableInitFromTuple n _ _ | Declaration n => inr n
  | Constant v _ _ => inr v
  | TemporaryVariable i _ _ => inr ("TMP_" ++ pretty i)%string
  | ReferenceVariable i => inr ("REF_" ++ pretty i)%string
  | TupleVariable i => inr ("TUPLE_" ++ pretty i)%string
  | VNone | VStr _ | VList _ | ArrayType _ _ => inl AttributeError
  end.

(** [type_found.min] and [type_found.max] *)
Definition min_attr (env : Env) (v : Value) : Exception + Z :=
  match v with
  | ElementaryType n =>
      match MinValues env n with
      | Some z => inr z
      | None => inl (SlitherException (n ++ " does not have a min value")%string)
      end
  | Enum _ lo _ => inr lo
  | _ => inl AttributeError
  end.

Definition max_attr (env : Env) (v : Value) : Exception + Z :=
  match v with
  | ElementaryType n =>
      match MaxValues env n with
      | Some z => inr z
      | None => inl (SlitherException (n ++ " does not have a max value")%string)
      end
  | Enum _ _ hi => inr hi
  | _ => inl AttributeError
  end.

(** [x in [a, b, ...]] on strings *)
Definition in_strings (x : string) (l : list string) : bool :=
  existsb (String.eqb x) l.

(** [d[k]] and [k in d] on a dictionary with string keys *)
Fixpoint dict_get (d : list (string * Value)) (k : string) : option Value :=
  match d with
  | [] => None
  | (k', v) :: d' => if String.eqb k k' then Some v else dict_get d' k
  end.

(** [l[i]] *)
Definition index {A} (l : list A) (i : nat) : M A :=
  match l !! i with Some a => ret a | None => raise IndexError end.

(** [for idx, x in enumerate(l): body(idx, x)], counting from [idx] *)
Fixpoint for_enumerate {A} (body : nat -> A -> M unit) (idx : nat)
    (l : list A) : M unit :=
  match l with
  | [] => ret tt
  | x :: l' => body idx x ;;; for_enumerate body (S idx) l'
  end.

(** [[get(e) if e else None for e in l]], the [i]-th entry of [l] being the
    child [k i] of [p] *)
Fixpoint get_each (p : NodeId) (k : nat -> nat) (i : nat)
    (l : list (option Expression)) : M (list Value) :=
  match l with
  | [] => ret []
  | None :: l' => vs <- get_each p k (S i) l' ;; ret (VNone :: vs)
  | Some _ :: l' =>
      v <- get (child p (k i)) ;;
      vs <- get_each p k (S i) l' ;;
      ret (v :: vs)
  end.

(** [[get(a) for a in l if a]] *)
Fixpoint get_present (p : NodeId) (k : nat -> nat) (i : nat)
    (l : list (option Expression)) : M (list Value) :=
  match l with
  | [] => ret []
  | None :: l' => get_present p k (S i) l'
  | Some _ :: l' =>
      v <- get (child p (k i)) ;;
      vs <- get_present p k (S i) l' ;;
      ret (v :: vs)
  end.

(** [get(e)] when [e] is present, otherwise the default [None] *)
Definition get_option (p : NodeId) (k : nat) (e : option Expression) : M Value :=
  match e with
  | Some _ => get (child p k)
  | None => ret VNone
  end.

(** ** The lowering rules of [ExpressionToSlithIR]

    Each rule takes the identity [p] of the node it lowers and the
    attributes of that node it reads. *)

Definition int256 : Value := ElementaryType "int256".
Definition uint256 : Value := ElementaryType "uint256".

(** A variable created by [TemporaryVariable(self._node)] and not typed by
    the rule that creates it. *)
Definition Temporary (index : nat) : Value := TemporaryVariable index VNone None.

Definition _post_assignement_operation (p : NodeId)
    (type : AssignmentOperationType.t) (expression_return_type : Value)
    : M unit :=
  left <- get (child p k_left) ;;
  right <- get (child p k_right) ;;
  match left with
  | VList lefts =>
      match right with
      | VList rights =>
          assert (Nat.eqb (length lefts) (length rights)) ;;;
          for_enumerate
            (fun idx left_idx =>
               if negb (is_None left_idx) then
                 right_idx <- index rights idx ;;
                 append (set_expression
                           (convert_assignment left_idx right_idx type
                              expression_return_type) p)
               else ret tt)
            0 lefts ;;;
          set_val p VNone
      | _ =>
          assert (match right with TupleVariable _ => true | _ => false end) ;;;
          for_enumerate
            (fun idx left_idx =>
               if negb (is_None left_idx) then
                 let index :=
                   match left_idx with
                   | LocalVariableInitFromTuple _ _ (Some tuple_index) =>
                       tuple_index
                   | _ => idx
                   end in
                 append (set_expression (IR.Unpack left_idx right index) p)
               else ret tt)
            0 lefts ;;;
          set_val p VNone
      end
  | _ =>
      match left, right with
      | LocalVariableInitFromTuple _ _ (Some tuple_index), TupleVariable _ =>
          append (set_expression (IR.Unpack left right tuple_index) p) ;;;
          set_val p VNone
      | _, _ =>
          if is_list right then
            append (set_expression (IR.InitArray right left) p) ;;;
            set_val p left
          else
            append (set_expression
                      (convert_assignment left right type
                         expression_return_type) p) ;;;
            set_val p left
      end
  end.

(** [expression.type in _signed_to_unsigned] *)
Definition in_signed_to_unsigned (t : BinaryOperationType.t) : bool :=
  match _signed_to_unsigned t with Some _ => true | None => false end.

(** [signed] is [expression.type in _signed_to_unsigned]: the keys of the
    table are binary operators, so it is [false] for a unary operation. *)
Definition _attempt_constant_folding (env : Env) (p : NodeId)
    (expression : Expression) (signed : bool) : M bool :=
  match ConstantFolding env expression with
  | None => ret false
  | Some const_value =>
      let new_type :=
        if signed then ElementaryType "uint"
        else match const_value with
             | FBool _ => ElementaryType "bool"
             | FInt _ => ElementaryType "int"
             | _ => ElementaryType "string"
             end in
      set_val p (Constant (py_str const_value) new_type None) ;;;
      ret true
  end.

(** The guard of the binary and unary rules:
    [generates_certik_ir and self._attempt_constant_folding(expression)];
    folding is not attempted when the flag is off. *)
Definition folding_guard (env : Env) (p : NodeId) (expression : Expression)
    (signed : bool) : M bool :=
  if generates_certik_ir env
  then _attempt_constant_folding env p expression signed
  else ret false.

Definition is_RIGHT_SHIFT_ARITHMETIC (t : BinaryOperationType.t) : bool :=
  match t with
  | BinaryOperationType.RIGHT_SHIFT_ARITHMETIC => true
  | _ => false
  end.

Definition _post_binary_operation (env : Env) (p : NodeId)
    (expression : Expression) (type : BinaryOperationType.t) : M unit :=
  folded <- folding_guard env p expression (in_signed_to_unsigned type) ;;
  if (folded : bool) then ret tt
  else
    left <- get (child p k_left) ;;
    right <- get (child p k_right) ;;
    val <- fresh_temporary ;;
    match _signed_to_unsigned type with
    | Some unsigned =>
        new_left <- fresh_temporary ;;
        let new_left := TemporaryVariable new_left int256 None in
        append (set_expression (IR.TypeConversion new_left left int256) p) ;;;
        new_right <-
          (if negb (is_RIGHT_SHIFT_ARITHMETIC type) then
             new_right <- fresh_temporary ;;
             let new_right := TemporaryVariable new_right int256 None in
             append (set_expression
                       (IR.TypeConversion new_right right int256) p) ;;;
             ret new_right
           else ret right) ;;
        new_final <- fresh_temporary ;;
        let new_final := Temporary new_final in
        append (set_expression
                  (IR.Binary new_final new_left new_right unsigned) p) ;;;
        let val := TemporaryVariable val uint256 None in
        append (set_expression (IR.TypeConversion val new_final uint256) p) ;;;
        set_val p val
    | None =>
        let val := Temporary val in
        op <- lookup_table (_binary_to_binary type) ;;
        append (set_expression (IR.Binary val left right op) p) ;;;
        set_val p val
    end.

(** [type_call.startswith("tuple(") and type_call != "tuple()"] *)
Definition returns_tuple (type_call : string) : bool :=
  String.prefix "tuple(" type_call && negb (String.eqb type_call "tuple()").

Definition is_wrap_or_unwrap_selector (expression_called : Expression) : bool :=
  match expression_called with
  | Expr.MemberAccess _ member_name => in_strings member_name ["wrap"; "unwrap"]
  | _ => false
  end.

(** The final [else] branch of [_post_call_expression]: the placeholder
    call for a callee that is not resolved here. *)
Definition unresolved_call (p : NodeId) (called : Value) (args : list Value)
    (type_call : string) (call_gas call_value call_salt : option Expression)
    : M unit :=
  val <- (if returns_tuple type_call
          then i <- fresh_tuple ;; ret (TupleVariable i)
          else i <- fresh_temporary ;; ret (Temporary i)) ;;
  call_gas <- get_option p k_call_gas call_gas ;;
  call_value <- get_option p k_call_value call_value ;;
  call_salt <- get_option p k_call_salt call_salt ;;
  append (set_expression
            (IR.TmpCall called (length args) val type_call
               call_gas call_value call_salt) p) ;;;
  set_val p val.

(** The [elif called.name == ...] chain of [_post_call_expression]: the
    environment pseudo-functions, then the placeholder call. *)
Definition call_by_name (p : NodeId) (called : Value) (args : list Value)
    (type_call : string) (call_gas call_value call_salt : option Expression)
    : M unit :=
  name <- lift (name_attr called) ;;
  if String.eqb name "caller()" then
    val <- fresh_temporary ;;
    append (bare (IR.Assignment (Temporary val)
                    (SolidityVariableComposed "msg.sender")
                    (VStr "uint256"))) ;;;
    set_val p (Temporary val)
  else if String.eqb name "origin()" then
    val <- fresh_temporary ;;
    append (bare (IR.Assignment (Temporary val)
                    (SolidityVariableComposed "tx.origin")
                    (VStr "uint256"))) ;;;
    set_val p (Temporary val)
  else if String.eqb name "extcodesize(uint256)" then
    val <- fresh_reference ;;
    arg0 <- index args 0 ;;
    append (bare (IR.Member arg0 (Constant "codesize" VNone None)
                    (ReferenceVariable val))) ;;;
    set_val p (ReferenceVariable val)
  else if String.eqb name "selfbalance()" then
    val <- fresh_temporary ;;
    let val := TemporaryVariable val (ElementaryType "address") None in
    append (bare (IR.TypeConversion val (SolidityVariable "this")
                    (ElementaryType "address"))) ;;;
    val1 <- fresh_reference ;;
    append (bare (IR.Member val (Constant "balance" VNone None)
                    (ReferenceVariable val1))) ;;;
    set_val p (ReferenceVariable val1)
  else if String.eqb name "address()" then
    val <- fresh_temporary ;;
    let val := TemporaryVariable val (ElementaryType "address") None in
    append (bare (IR.TypeConversion val (SolidityVariable "this")
                    (ElementaryType "address"))) ;;;
    set_val p val
  else if String.eqb name "callvalue()" then
    val <- fresh_temporary ;;
    append (bare (IR.Assignment (Temporary val)
                    (SolidityVariableComposed "msg.value")
                    (VStr "uint256"))) ;;;
    set_val p (Temporary val)
  else unresolved_call p called args type_call call_gas call_value call_salt.

(** The [if]/[elif] chain of [_post_call_expression] that follows the
    argument markers: internal call, wrap/unwrap of a user-defined type, and
    the branches by name. *)
Definition call_by_kind (p : NodeId) (expression_called : Expression)
    (called : Value) (args : list Value) (type_call : string)
    (call_gas call_value call_salt : option Expression) : M unit :=
  match called with
  | Function _ returns =>
      val <- (if returns_tuple type_call
              then i <- fresh_tuple ;; ret (TupleVariable i)
              else
                assert (Nat.leb (length returns) 1) ;;;
                i <- fresh_temporary ;;
                ret (TemporaryVariable i VNone
                       (match returns with
                        | [location] => location
                        | _ => None
                        end))) ;;
      append (set_expression
                (IR.InternalCall (Call__init__ None) called (length args) val
                   type_call) p) ;;;
      set_val p val
  | TypeAlias _ underlying_type =>
      if is_wrap_or_unwrap_selector expression_called
         && Nat.eqb (length args) 1 then
        let dest_type :=
          match expression_called with
          | Expr.MemberAccess _ "wrap" => called
          | _ => underlying_type
          end in
        val <- fresh_temporary ;;
        let val := TemporaryVariable val dest_type None in
        arg0 <- index args 0 ;;
        append (set_expression (IR.TypeConversion val arg0 dest_type) p) ;;;
        set_val p val
      else call_by_name p called args type_call call_gas call_value call_salt
  | _ => call_by_name p called args type_call call_gas call_value call_salt
  end.

Definition _post_call_expression (p : NodeId)
    (expression_called : Expression) (arguments : list (option Expression))
    (type_call : string) (call_gas call_value call_salt : option Expression)
    : M unit :=
  called <- get (child p k_called) ;;
  args <- get_present p k_argument 0 arguments ;;
  for_enumerate (fun _ arg => append (set_expression (IR.Argument arg) p))
    0 args ;;;
  call_by_kind p expression_called called args type_call call_gas call_value
    call_salt.

Definition _post_conditional_expression {A} : M A :=
  raise (PyException "Ternary operator are not convertible to SlithIR").

Definition _post_elementary_type_name_expression (p : NodeId) (type : Value)
    : M unit :=
  set_val p type.

Definition _post_identifier (p : NodeId) (value : Value) : M unit :=
  set_val p value.

(** In the type branch the code builds [ArrayType(left, right.value)]: the
    length is the value of the Constant [right]. *)
Definition _post_index_access (p : NodeId) (type : Value) : M unit :=
  left <- get (child p k_left) ;;
  right <- get (child p k_right) ;;
  if is_Type left then
    match right with
    | Constant _ _ _ => set_val p (ArrayType left right)
    | _ => raise AssertionError
    end
  else
    val <- fresh_reference ;;
    let val := ReferenceVariable val in
    left <- (if is_list left then
               init_array_val <- fresh_temporary ;;
               let init_array_val := Temporary init_array_val in
               append (set_expression (IR.InitArray left init_array_val) p) ;;;
               ret init_array_val
             else ret left) ;;
    append (set_expression (IR.Index val left right type) p) ;;;
    set_val p val.

Definition _post_literal (p : NodeId) (value : string) (type : Value)
    (subdenomination : option string) : M unit :=
  set_val p (Constant value type subdenomination).

(** The test for [type(X).min] / [type(X).max]: the nested expression is a
    call whose callee is the identifier bound to [SolidityFunction("type()")].
    Returns the call's argument list. *)
Definition type_call_arguments (nested : Expression) (member_name : string)
    : option (list (option Expression)) :=
  match nested with
  | Expr.CallExpression (Expr.Identifier (SolidityFunction "type()"))
      arguments _ _ _ _ =>
      if in_strings member_name ["min"; "max"] then Some arguments else None
  | _ => None
  end.

Definition _post_member_access (env : Env) (p : NodeId)
    (nested : Expression) (member_name : string) : M unit :=
  expr <- get (child p k_expression) ;;
  match type_call_arguments nested member_name with
  | Some arguments =>
      assert (Nat.eqb (length arguments) 1) ;;;
      val <- fresh_temporary ;;
      let val := Temporary val in
      type_expression_found <- index arguments 0 ;;
      found <-
        (match type_expression_found with
         | Some (Expr.ElementaryTypeNameExpression type_found) =>
             ret (type_found, type_found)
         | Some (Expr.Identifier type_found) =>
             assert (match type_found with Enum _ _ _ => true | _ => false end) ;;;
             ret (type_found, VNone)
         | _ => raise AssertionError
         end) ;;
      let type_found := fst found in
      let constant_type := snd found in
      bound <- lift (if String.eqb member_name "min"
                     then min_attr env type_found
                     else max_attr env type_found) ;;
      append (bare (IR.Assignment val
                      (Constant (pretty bound) constant_type None)
                      type_found)) ;;;
      set_val p val
  | None =>
      address_type <-
        (if is_Variable expr then
           t <- lift (type_attr env expr) ;;
           ret (match t with
                | ElementaryType "address" => true
                | _ => false
                end)
         else ret false) ;;
      if (address_type : bool)
         && in_strings member_name ["balance"; "code"; "codehash"] then
        val <- fresh_temporary ;;
        let val := Temporary val in
        let name := (member_name ++ "(address)")%string in
        append (set_expression
                  (IR.SolidityCall (set_arguments (Call__init__ None) [expr])
                     (SolidityFunction name) 1 val
                     (SOLIDITY_FUNCTIONS env name)) p) ;;;
        set_val p val
      else
        let default : M unit :=
          val <- fresh_reference ;;
          let val := ReferenceVariable val in
          append (set_expression
                    (IR.Member expr (Constant member_name VNone None) val) p) ;;;
          set_val p val in
        match expr with
        | TypeAlias _ _ =>
            if in_strings member_name ["wrap"; "unwrap"]
            then set_val p expr
            else default
        | Contract _ user_defined_types custom_errors_as_dict =>
            match dict_get user_defined_types member_name with
            | Some t => set_val p t
            | None =>
                match dict_get custom_errors_as_dict member_name with
                | Some e => set_val p e
                | None => default
                end
            end
        | _ => default
        end
  end.

Definition _post_new_array (p : NodeId) (depth : nat) (array_type : Value)
    : M unit :=
  val <- fresh_temporary ;;
  append (set_expression (IR.TmpNewArray depth array_type (Temporary val)) p) ;;;
  set_val p (Temporary val).

Definition _post_new_contract (p : NodeId) (contract_name : string)
    (call_value call_salt : option Expression) : M unit :=
  val <- fresh_temporary ;;
  call_value <- get_option p k_call_value call_value ;;
  call_salt <- get_option p k_call_salt call_salt ;;
  append (set_expression
            (IR.TmpNewContract contract_name (Temporary val)
               call_value call_salt) p) ;;;
  set_val p (Temporary val).

Definition _post_new_elementary_type (p : NodeId) (type : Value) : M unit :=
  val <- fresh_temporary ;;
  append (set_expression (IR.TmpNewElementaryType type (Temporary val)) p) ;;;
  set_val p (Temporary val).

Definition _post_tuple_expression (p : NodeId)
    (expressions : list (option Expression)) (is_inline_array : bool)
    : M unit :=
  expressions <- get_each p k_element 0 expressions ;;
  val <- (if is_inline_array then
            temp_var <- fresh_temporary ;;
            append (bare (IR.InitArray (VList expressions)
                            (Temporary temp_var))) ;;;
            ret (Temporary temp_var)
          else
            match expressions with
            | [only] => ret only
            | _ => ret (VList expressions)
            end) ;;
  set_val p val.

Definition _post_type_conversion (p : NodeId) (type : Value) : M unit :=
  expr <- get (child p k_expression) ;;
  val <- fresh_temporary ;;
  let val := TemporaryVariable val type None in
  append (set_expression (IR.TypeConversion val expr type) p) ;;;
  set_val p val.

Definition _post_unary_operation (env : Env) (p : NodeId)
    (expression : Expression) (type : UnaryOperationType.t) : M unit :=
  folded <- folding_guard env p expression false ;;
  if (folded : bool) then ret tt
  else
    value <- get (child p k_expression) ;;
    match type with
    | UnaryOperationType.BANG | UnaryOperationType.TILD =>
        lvalue <- fresh_temporary ;;
        append (set_expression (IR.Unary (Temporary lvalue) value type) p) ;;;
        set_val p (Temporary lvalue)
    | UnaryOperationType.DELETE =>
        append (set_expression (IR.Delete value value) p) ;;;
        set_val p value
    | UnaryOperationType.PLUSPLUS_PRE =>
        value_type <- lift (type_attr env value) ;;
        append (set_expression
                  (IR.Binary value value (Constant "1" value_type None)
                     BinaryType.ADDITION) p) ;;;
        set_val p value
    | UnaryOperationType.MINUSMINUS_PRE =>
        value_type <- lift (type_attr env value) ;;
        append (set_expression
                  (IR.Binary value value (Constant "1" value_type None)
                     BinaryType.SUBTRACTION) p) ;;;
        set_val p value
    | UnaryOperationType.PLUSPLUS_POST =>
        lvalue <- fresh_temporary ;;
        value_type <- lift (type_attr env value) ;;
        append (set_expression
                  (IR.Assignment (Temporary lvalue) value value_type) p) ;;;
        append (set_expression
                  (IR.Binary value value (Constant "1" value_type None)
                     BinaryType.ADDITION) p) ;;;
        set_val p (Temporary lvalue)
    | UnaryOperationType.MINUSMINUS_POST =>
        lvalue <- fresh_temporary ;;
        value_type <- lift (type_attr env value) ;;
        append (set_expression
                  (IR.Assignment (Temporary lvalue) value value_type) p) ;;;
        append (set_expression
                  (IR.Binary value value (Constant "1" value_type None)
                     BinaryType.SUBTRACTION) p) ;;;
        set_val p (Temporary lvalue)
    | UnaryOperationType.PLUS_PRE =>
        set_val p value
    | UnaryOperationType.MINUS_PRE =>
        lvalue <- fresh_temporary ;;
        value_type <- lift (type_attr env value) ;;
        append (set_expression
                  (IR.Binary (Temporary lvalue) (Constant "0" value_type None)
                     value BinaryType.SUBTRACTION) p) ;;;
        set_val p (Temporary lvalue)
    end.

(** ** The post-order walk and the entry point *)

Section Walk.
Variable visit : NodeId -> Expression -> M unit.

(** [if e: self._visit_expression(e)] *)
Definition visit_option (p : NodeId) (k : nat) (e : option Expression)
    : M unit :=
  match e with
  | Some e => visit (child p k) e
  | None => ret tt
  end.

(** [for e in l: if e: self._visit_expression(e)] *)
Fixpoint visit_each (p : NodeId) (k : nat -> nat) (i : nat)
    (l : list (option Expression)) : M unit :=
  match l with
  | [] => ret tt
  | e :: l' => visit_option p (k i) e ;;; visit_each p k (S i) l'
  end.
End Walk.

(** Modelled from the spec: the dispatch of the base class
    [ExpressionVisitor] (slither/visitors/expression/expression.py), which
    the visitor inherits: "a post-order walk: children are lowered first
    (their node-to-value slots populated), then a node-type-specific rule
    runs"; for a call, "lower the callee and each argument in source
    order"; absent entries of an argument or tuple list are skipped. *)
Fixpoint _visit_expression (env : Env) (p : NodeId) (expression : Expression)
    {struct expression} : M unit :=
  match expression with
  | Expr.Identifier value => _post_identifier p value
  | Expr.Literal value type subdenomination =>
      _post_literal p value type subdenomination
  | Expr.ElementaryTypeNameExpression type =>
      _post_elementary_type_name_expression p type
  | Expr.AssignmentOperation expression_left expression_right type
      expression_return_type =>
      _visit_expression env (child p k_left) expression_left ;;;
      _visit_expression env (child p k_right) expression_right ;;;
      _post_assignement_operation p type expression_return_type
  | Expr.BinaryOperation expression_left expression_right type =>
      _visit_expression env (child p k_left) expression_left ;;;
      _visit_expression env (child p k_right) expression_right ;;;
      _post_binary_operation env p expression type
  | Expr.UnaryOperation nested type =>
      _visit_expression env (child p k_expression) nested ;;;
      _post_unary_operation env p expression type
  | Expr.CallExpression called arguments type_call call_gas call_value
      call_salt =>
      _visit_expression env (child p k_called) called ;;;
      visit_each (_visit_expression env) p k_argument 0 arguments ;;;
      visit_option (_visit_expression env) p k_call_value call_value ;;;
      visit_option (_visit_expression env) p k_call_gas call_gas ;;;
      visit_option (_visit_expression env) p k_call_salt call_salt ;;;
      _post_call_expression p called arguments type_call call_gas call_value
        call_salt
  | Expr.ConditionalExpression if_expression then_expression
      else_expression =>
      _visit_expression env (child p k_if) if_expression ;;;
      _visit_expression env (child p k_else) else_expression ;;;
      _visit_expression env (child p k_then) then_expression ;;;
      _post_conditional_expression
  | Expr.IndexAccess expression_left expression_right type =>
      _visit_expression env (child p k_left) expression_left ;;;
      _visit_expression env (child p k_right) expression_right ;;;
      _post_index_access p type
  | Expr.MemberAccess nested member_name =>
      _visit_expression env (child p k_expression) nested ;;;
      _post_member_access env p nested member_name
  | Expr.NewArray depth array_type => _post_new_array p depth array_type
  | Expr.NewContract contract_name call_value call_salt =>
      visit_option (_visit_expression env) p k_call_value call_value ;;;
      visit_option (_visit_expression env) p k_call_salt call_salt ;;;
      _post_new_contract p contract_name call_value call_salt
  | Expr.NewElementaryType type => _post_new_elementary_type p type
  | Expr.TupleExpression expressions is_inline_array =>
      visit_each (_visit_expression env) p k_element 0 expressions ;;;
      _post_tuple_expression p expressions is_inline_array
  | Expr.TypeConversion nested type =>
      _visit_expression env (child p k_expression) nested ;;;
      _post_type_conversion p type
  end.

(** [ExpressionToSlithIR.__init__]: the buffer starts empty, the statement's
    expression is the root [[]] of the walk, and a node that is a return
    point reads the final value into a closing [Return].  The final loop
    attaches the same owning node to every instruction and is left
    implicit. *)
Definition ExpressionToSlithIR (env : Env) (expression : Expression) : M unit :=
  fun st =>
    (_visit_expression env [] expression ;;;
     if node_is_RETURN env then
       r <- get [] ;;
       append (set_expression (IR.Return r) [])
     else ret tt)
      (mkState [] (context st) (counter_temporary st) (counter_reference st)
         (counter_tuple st)).

(** [result()] of a finished lowering. *)
Definition result (outcome : Exception + (unit * State))
    : option (list Operation) :=
  match outcome with
  | inr (_, st) => Some (_result st)
  | inl _ => None
  end.

(** The state before the first statement of a compilation unit. *)
Definition initial : State := mkState [] ∅ 0 0 0.

(** ** Declarative vocabulary of the statements below *)

(** The tuple index a destructuring target carries from its own
    declaration: set for a variable declared by a tuple initialisation,
    absent for every other target. *)
Definition stored_tuple_index (target : Value) : option nat :=
  match target with
  | LocalVariableInitFromTuple _ _ tuple_index => tuple_index
  | _ => None
  end.

(** The positions of the entries of [l] that are present, as children
    [k i], [k (i+1)], ... of [p]. *)
Fixpoint present_keys (p : NodeId) (k : nat -> nat) (i : nat)
    (l : list (option Expression)) : list NodeId :=
  match l with
  | [] => []
  | None :: l' => present_keys p k (S i) l'
  | Some _ :: l' => child p (k i) :: present_keys p k (S i) l'
  end.

(** The store after the slots [keys] have been read, in that order. *)
Definition clear (keys : list NodeId) (m : gmap NodeId Value)
    : gmap NodeId Value :=
  foldl (fun m key => delete key m) m keys.

(** The slot of an optional child holds [v]; an absent child reads as
    [None]. *)
Definition option_slot (m : gmap NodeId Value) (p : NodeId) (k : nat)
    (e : option Expression) (v : Value) : Prop :=
  match e with
  | Some _ => m !! child p k = Some v
  | None => v = VNone
  end.

(** The slot, if any, of an optional child. *)
Definition option_key (p : NodeId) (k : nat) (e : option Expression)
    : list NodeId :=
  match e with
  | Some _ => [child p k]
  | None => []
  end.

(** The names of the environment pseudo-functions the call rule lowers
    directly. *)
Definition pseudo_functions : list string :=
  ["caller()"; "origin()"; "extcodesize(uint256)"; "selfbalance()";
   "address()"; "callvalue()"].

(** The constant-folding type choice as the specification words it: the
    unsigned type for "signed comparison/shift operators", and otherwise the
    boolean, numeric or string type by the kind of the folded value. *)
Definition signed_comparison_or_shift (t : BinaryOperationType.t) : bool :=
  match t with
  | BinaryOperationType.LESS_SIGNED | BinaryOperationType.GREATER_SIGNED
  | BinaryOperationType.RIGHT_SHIFT_ARITHMETIC => true
  | _ => false
  end.

Definition type_of_kind (v : Folded) : Value :=
  match v with
  | FBool _ => ElementaryType "bool"
  | FInt _ => ElementaryType "int"
  | _ => ElementaryType "string"
  end.

Definition specified_folded_type (t : BinaryOperationType.t) (v : Folded)
    : Value :=
  if signed_comparison_or_shift t then ElementaryType "uint"
  else type_of_kind v.

(** A computation that only appends [ops] to the instruction buffer. *)
Definition emits (m : M unit) (ops : list Operation) : Prop :=
  forall st,
    m st = inr (tt, mkState (_result st ++ ops) (context st)
                      (counter_temporary st) (counter_reference st)
                      (counter_tuple st)).


(** The same instructions where a target that carries a tuple index selects
    that index instead of its position. *)
Definition unpacks (p : NodeId) (tuple : Value) (targets : list Value)
    : list Operation :=
  mjoin (imap (fun position target =>
                 if is_None target then []
                 else [set_expression
                         (IR.Unpack target tuple
                            (default position (stored_tuple_index target)))
                         p])
           targets).

(** A computation that, when it returns, has only appended instructions. *)
Definition appends_only (m : M unit) : Prop :=
  forall st u st',
    m st = inr (u, st') ->
    exists ops,
      st' = mkState (_result st ++ ops) (context st) (counter_temporary st)
              (counter_reference st) (counter_tuple st).

(** A callee value the call rule does not resolve: not a function, not a
    wrap/unwrap selector applied to one argument, and named, but not like a
    pseudo-function. *)
Definition unresolved (expression_called : Expression) (called : Value)
    (nargs : nat) : Prop :=
  (forall n returns, called <> Function n returns) /\
  ((forall n underlying, called <> TypeAlias n underlying) \/
   is_wrap_or_unwrap_selector expression_called = false \/
   nargs <> 1) /\
  exists name, name_attr called = inr name /\ ~ In name pseudo_functions.

(** [q] is a node strictly below [p]. *)
Definition below (p q : NodeId) : Prop :=
  exists k rest, q = p ++ k :: rest.

(** The store has no entry for a node strictly below [p]. *)
Definition clean_below (p : NodeId) (m : gmap NodeId Value) : Prop :=
  forall q, below p q -> m !! q = None.

(** [m'] differs from [m] at most at [keys]. *)
Definition agrees_outside (keys : list NodeId) (m m' : gmap NodeId Value)
    : Prop :=
  forall q, q ∉ keys -> m' !! q = m !! q.

(** A property of an optional child. *)
Definition OptP (P : Expression -> Prop) (o : option Expression) : Prop :=
  match o with
  | Some e => P e
  | None => True
  end.

(** Every call of the statement that carries a gas, value or salt option
    lowers to a placeholder: whatever value the lowering of its callee
    records is unresolved. *)
Fixpoint options_reach_placeholder (env : Env) (e : Expression)
    {struct e} : Prop :=
  match e with
  | Expr.Identifier _ | Expr.Literal _ _ _
  | Expr.ElementaryTypeNameExpression _ | Expr.NewArray _ _
  | Expr.NewElementaryType _ => True
  | Expr.AssignmentOperation l r _ _ | Expr.BinaryOperation l r _
  | Expr.IndexAccess l r _ =>
      options_reach_placeholder env l /\ options_reach_placeholder env r
  | Expr.UnaryOperation nested _ | Expr.MemberAccess nested _
  | Expr.TypeConversion nested _ => options_reach_placeholder env nested
  | Expr.ConditionalExpression i t e' =>
      options_reach_placeholder env i /\ options_reach_placeholder env t /\
      options_reach_placeholder env e'
  | Expr.NewContract _ call_value call_salt =>
      match call_value with
      | Some e' => options_reach_placeholder env e'
      | None => True
      end /\
      match call_salt with
      | Some e' => options_reach_placeholder env e'
      | None => True
      end
  | Expr.TupleExpression expressions _ =>
      (fix all (l : list (option Expression)) : Prop :=
         match l with
         | [] => True
         | Some e' :: l' => options_reach_placeholder env e' /\ all l'
         | None :: l' => all l'
         end) expressions
  | Expr.CallExpression called arguments _ call_gas call_value call_salt =>
      options_reach_placeholder env called /\
      (fix all (l : list (option Expression)) : Prop :=
         match l with
         | [] => True
         | Some e' :: l' => options_reach_placeholder env e' /\ all l'
         | None :: l' => all l'
         end) arguments /\
      match call_gas with
      | Some e' => options_reach_placeholder env e'
      | None => True
      end /\
      match call_value with
      | Some e' => options_reach_placeholder env e'
      | None => True
      end /\
      match call_salt with
      | Some e' => options_reach_placeholder env e'
      | None => True
      end /\
      ((call_gas = None /\ call_value = None /\ call_salt = None) \/
       forall p st st' val,
         _visit_expression env p called st = inr (tt, st') ->
         context st' !! p = Some val ->
         unresolved called val (length (omap id arguments)))
  end.

(** Lowering [e] at a node with no entries below it leaves the store as it
    was, except for the entry of the node itself. *)
Definition lowers_cleanly (env : Env) (e : Expression) : Prop :=
  forall p st st',
    clean_below p (context st) ->
    _visit_expression env p e st = inr (tt, st') ->
    exists val, context st' = <[p := val]> (context st).

(** The store has no entry below a child of [p]. *)
Definition clean_under (p : NodeId) (m : gmap NodeId Value) : Prop :=
  forall j, clean_below (child p j) m.

(** ** Sample inputs *)

Module Sample.
(** A node that is not a return point, extended-IR mode off. *)
Definition env : Env :=
  mkEnv false false (fun _ => None)
    (fun n => if String.eqb n "uint256" then Some 0%Z
              else if String.eqb n "int8" then Some (-128)%Z else None)
    (fun n => if String.eqb n "uint256" then Some (2 ^ 256 - 1)%Z
              else if String.eqb n "int8" then Some 127%Z else None)
    (fun _ => VNone) (fun _ => VNone).

(** A return point. *)
Definition env_return : Env :=
  mkEnv false true (fun _ => None) (MinValues env) (MaxValues env)
    (fun _ => VNone) (fun _ => VNone).

(** Extended-IR mode on, with a folder that evaluates the signed division
    [6 / 3] and nothing else. *)
Definition six_by_three : Expression :=
  Expr.BinaryOperation (Expr.Literal "6" int256 None)
    (Expr.Literal "3" int256 None) BinaryOperationType.DIVISION_SIGNED.

Definition env_folding : Env :=
  mkEnv true false
    (fun e => match e with
              | Expr.BinaryOperation (Expr.Literal "6" _ _)
                  (Expr.Literal "3" _ _)
                  BinaryOperationType.DIVISION_SIGNED => Some (FInt 2)
              | _ => None
              end)
    (MinValues env) (MaxValues env) (fun _ => VNone) (fun _ => VNone).

(** The same folder at a return point. *)
Definition env_folding_return : Env :=
  mkEnv true true (ConstantFolding env_folding) (MinValues env)
    (MaxValues env) (fun _ => VNone) (fun _ => VNone).

Definition x : Value := LocalVariable "x" int256.
Definition y : Value := LocalVariable "y" int256.
Definition a : Value := LocalVariable "a" uint256.
Definition b : Value := LocalVariable "b" uint256.
Definition c : Value := LocalVariable "c" uint256.
Definition v : Value := LocalVariable "v" uint256.
Definition dst : Value := LocalVariable "dst" (ElementaryType "address").

(** The store after the two operands [x] and [y] of a root node have been
    lowered. *)
Definition operands_x_y : State :=
  mkState [] (<[child [] k_right := y]> (<[child [] k_left := x]> ∅)) 0 0 0.

(** The store after the operand [x] of a root node has been lowered. *)
Definition operand_x : State :=
  mkState [] (<[child [] k_expression := x]> ∅) 0 0 0.

(** [type(uint256)] and [type(uint256).max] *)
Definition type_uint256 : Expression :=
  Expr.CallExpression (Expr.Identifier (SolidityFunction "type()"))
    [Some (Expr.ElementaryTypeNameExpression uint256)] "type(uint256)"
    None None None.

Definition type_uint256_max : Expression :=
  Expr.MemberAccess type_uint256 "max".

(** The state after the nested call [type(uint256)] of the root
    [type(uint256).max] has been lowered. *)
Definition after_type_uint256 : State :=
  mkState
    [set_expression (IR.Argument uint256) (child [] k_expression);
     set_expression
       (IR.TmpCall (SolidityFunction "type()") 1 (Temporary 0)
          "type(uint256)" VNone VNone VNone) (child [] k_expression)]
    (<[child [] k_expression := Temporary 0]> ∅) 1 0 0.

(** [(a, , c) = f()]: the targets and the tuple returned by [f] *)
Definition targets_a_c : Value := VList [a; VNone; c].

Definition after_tuple_call : State :=
  mkState []
    (<[child [] k_right := TupleVariable 0]>
       (<[child [] k_left := targets_a_c]> ∅)) 0 0 1.



(** [a = b] *)
Definition a_assign_b : Expression :=
  Expr.AssignmentOperation (Expr.Identifier a) (Expr.Identifier b)
    AssignmentOperationType.ASSIGN uint256.

(** [dst.call.value(v)("")], the member syntax: [.value(v)] is itself a
    call whose callee is the member [value] of [dst.call]. *)
Definition call_value_member_syntax : Expression :=
  Expr.CallExpression
    (Expr.CallExpression
       (Expr.MemberAccess
          (Expr.MemberAccess (Expr.Identifier dst) "call") "value")
       [Some (Expr.Identifier v)] "function (bytes memory) payable"
       None None None)
    [Some (Expr.Literal "" (ElementaryType "string") None)]
    "tuple(bool,bytes memory)" None None None.

(** [dst.call{value: v}("")], the option syntax. *)
Definition call_value_option_syntax : Expression :=
  Expr.CallExpression
    (Expr.MemberAccess (Expr.Identifier dst) "call")
    [Some (Expr.Literal "" (ElementaryType "string") None)]
    "tuple(bool,bytes memory)" None (Some (Expr.Identifier v)) None.

(** The state after the children of the root [dst.call{value: v}("")]
    have been lowered: the callee, the argument and the call value. *)
Definition after_call_children : State :=
  mkState
    [set_expression
       (IR.Member dst (Constant "call" VNone None) (ReferenceVariable 0))
       (child [] k_called)]
    (<[child [] k_call_value := v]>
       (<[child [] (k_argument 0) :=
            Constant "" (ElementaryType "string") None]>
          (<[child [] k_called := ReferenceVariable 0]> ∅)))
    0 1 0.
End Sample.


(** ** Further vocabulary *)

(** The assignments of a list-to-list destructuring: for each target that
    is not discarded, the assignment of the source at the same position. *)
Definition pairwise_assignments (p : NodeId) (type : AssignmentOperationType.t)
    (expression_return_type : Value) (targets sources : list Value)
    : list Operation :=
  mjoin (imap (fun position target =>
                 if is_None target then []
                 else match sources !! position with
                      | Some source =>
                          [set_expression
                             (convert_assignment target source type
                                expression_return_type) p]
                      | None => []
                      end)
           targets).

(** [P] holds of an entry of [l] that is present. *)
Definition some_entry (P : Expression -> Prop)
    : list (option Expression) -> Prop :=
  fix any (l : list (option Expression)) : Prop :=
    match l with
    | [] => False
    | Some e :: l' => P e \/ any l'
    | None :: l' => any l'
    end.

(** A ternary occurs at a position of [e] that the walk visits. *)
Fixpoint contains_conditional (e : Expression) {struct e} : Prop :=
  match e with
  | Expr.ConditionalExpression _ _ _ => True
  | Expr.Identifier _ | Expr.Literal _ _ _
  | Expr.ElementaryTypeNameExpression _ | Expr.NewArray _ _
  | Expr.NewElementaryType _ => False
  | Expr.AssignmentOperation l r _ _ | Expr.BinaryOperation l r _
  | Expr.IndexAccess l r _ =>
      contains_conditional l \/ contains_conditional r
  | Expr.UnaryOperation nested _ | Expr.MemberAccess nested _
  | Expr.TypeConversion nested _ => contains_conditional nested
  | Expr.NewContract _ call_value call_salt =>
      match call_value with
      | Some e' => contains_conditional e'
      | None => False
      end \/
      match call_salt with
      | Some e' => contains_conditional e'
      | None => False
      end
  | Expr.TupleExpression expressions _ =>
      some_entry contains_conditional expressions
  | Expr.CallExpression called arguments _ call_gas call_value call_salt =>
      contains_conditional called \/
      some_entry contains_conditional arguments \/
      match call_gas with
      | Some e' => contains_conditional e'
      | None => False
      end \/
      match call_value with
      | Some e' => contains_conditional e'
      | None => False
      end \/
      match call_salt with
      | Some e' => contains_conditional e'
      | None => False
      end
  end.

(** The environment [env] with another constant folder. *)
Definition with_folder (env : Env) (folder : Expression -> option Folded)
    : Env :=
  mkEnv (generates_certik_ir env) (node_is_RETURN env) folder
    (MinValues env) (MaxValues env) (SOLIDITY_FUNCTIONS env)
    (SOLIDITY_VARIABLES env).

(** The counters of [st'] are not behind those of [st]. *)
Definition counters_advance (st st' : State) : Prop :=
  counter_temporary st <= counter_temporary st' /\
  counter_reference st <= counter_reference st' /\
  counter_tuple st <= counter_tuple st'.

(** The run raised. *)
Definition fails {A} (outcome : Exception + (A * State)) : Prop :=
  match outcome with
  | inl _ => True
  | inr _ => False
  end.

(** [v] is a variable the program declares. *)
Definition is_declared_variable (v : Value) : bool :=
  match v with
  | LocalVariable _ _ | LocalVariableInitFromTuple _ _ _ => true
  | _ => false
  end.

(** [v] is a declared variable, or a Temporary or a Reference the lowering
    created: the operands an instruction takes both as a source and as a
    destination. *)
Definition is_variable_operand (v : Value) : bool :=
  match v with
  | LocalVariable _ _ | LocalVariableInitFromTuple _ _ _
  | TemporaryVariable _ _ _ | ReferenceVariable _ => true
  | _ => false
  end.

(** ** Further sample inputs *)

Module Inputs.
(** The store after the two sides of [(a, , c) = (x, y, b)] have been
    lowered. *)
Definition after_two_lists : State :=
  mkState []
    (<[child [] k_right := VList [Sample.x; Sample.y; Sample.b]]>
       (<[child [] k_left := Sample.targets_a_c]> ∅)) 0 0 0.

(** The store after the two sides of [(a, , c) = (x, y)] have been
    lowered. *)
Definition after_short_list : State :=
  mkState []
    (<[child [] k_right := VList [Sample.x; Sample.y]]>
       (<[child [] k_left := Sample.targets_a_c]> ∅)) 0 0 0.

(** The store after the two sides of [a += b] have been lowered. *)
Definition operands_a_b : State :=
  mkState []
    (<[child [] k_right := Sample.b]> (<[child [] k_left := Sample.a]> ∅))
    0 0 0.
End Inputs.

(** The values of a tuple's entries: the values read for the entries that
    are present, in order, and [None] at each discarded entry. *)
Fixpoint with_discards (l : list (option Expression)) (vals : list Value)
    : list Value :=
  match l with
  | [] => []
  | None :: l' => VNone :: with_discards l' vals
  | Some _ :: l' =>
      match vals with
      | v :: vals' => v :: with_discards l' vals'
      | [] => []
      end
  end.

Module Inputs2.
(** The store after the operand [dst], an address, of a root node has been
    lowered. *)
Definition operand_dst : State :=
  mkState [] (<[child [] k_expression := Sample.dst]> ∅) 0 0 0.

(** A contract that declares the type [MyInt] and the error [MyError]; the
    name [Both] is declared as a type and as an error. *)
Definition my_int : Value := TypeAlias "MyInt" int256.
Definition token : Value :=
  Contract "Token"
    [("MyInt", my_int); ("Both", TypeAlias "Both" uint256)]
    [("MyError", Declaration "MyError"); ("Both", Declaration "Both")].

(** The store after the operand [Token] of a root node has been lowered. *)
Definition operand_token : State :=
  mkState [] (<[child [] k_expression := token]> ∅) 0 0 0.
End Inputs2.

Module Inputs3.
(** The tuple [(x, , y)] and the store after its two present entries have
    been lowered. *)
Definition x_discard_y : list (option Expression) :=
  [Some (Expr.Identifier Sample.x); None; Some (Expr.Identifier Sample.y)].

Definition after_x_discard_y : State :=
  mkState []
    (<[child [] (k_element 2) := Sample.y]>
       (<[child [] (k_element 0) := Sample.x]> ∅)) 0 0 0.
End Inputs3.

Module Inputs4.
(** An internal function with two declared returns, and the store after
    the callee of the call [f()] has been lowered. *)
Definition f : Value := Function "f" [None; None].

Definition after_callee_f : State :=
  mkState [] (<[child [] k_called := f]> ∅) 0 0 0.

(** The store after the callee and the argument of [MyInt.wrap(x)] have
    been lowered. *)
Definition after_wrap_children : State :=
  mkState []
    (<[child [] (k_argument 0) := Sample.x]>
       (<[child [] k_called := Inputs2.my_int]> ∅)) 0 0 0.

(** The store after the callee of the Yul call [extcodesize()] has been
    lowered. *)
Definition after_callee_extcodesize : State :=
  mkState []
    (<[child [] k_called := SolidityFunction "extcodesize(uint256)"]> ∅)
    0 0 0.
End Inputs4.

(** [st'] has the buffer of [st] followed by further instructions, and
    counters that are not behind those of [st]. *)
Definition extends (st st' : State) : Prop :=
  (exists ops, _result st' = _result st ++ ops) /\ counters_advance st st'.

(** What every rule does at the node [p] when it returns: it extends the
    state and leaves a value in the slot of [p]. *)
Definition rule_effect (p : NodeId) (st st' : State) : Prop :=
  extends st st' /\ is_Some (context st' !! p).

(** The stores [m] and [m'] hold the same at every node that is neither
    [p] nor below [p]. *)
Definition same_outside (p : NodeId) (m m' : gmap NodeId Value) : Prop :=
  forall q, q <> p -> ~ below p q -> m' !! q = m !! q.
(** * Properties *)

(** ** Node identities *)

Lemma child_inj p a b : child p a = child p b -> a = b.
Proof. unfold child. intros H. apply app_inv_head in H. congruence. Qed.

Lemma child_ne p a b : a <> b -> child p a <> child p b.
Proof. intros Hne H. apply Hne. eapply child_inj; eauto. Qed.

Lemma child_ne_self p k : child p k <> p.
Proof.
  unfold child. intros H.
  assert (Hl : length (p ++ [k]) = length p) by (rewrite H; reflexivity).
  rewrite length_app in Hl. simpl in Hl. lia.
Qed.

(** ** The base class [Call] *)

(** C10: the base [Call] operation's [can_reenter] and [can_send_eth] return
    [False] for every instance and every callstack argument. *)
Theorem base_call_predicates_false :
  forall (self : Call) (callstack : option (list Value)),
    can_reenter self callstack = false /\ can_send_eth self = false.
Proof. intros self callstack. split; reflexivity. Qed.

(** ** Binary operations *)

Lemma folding_guard_skipped env p e signed :
  generates_certik_ir env = false \/ ConstantFolding env e = None ->
  folding_guard env p e signed = ret false.
Proof.
  unfold folding_guard, _attempt_constant_folding.
  intros [-> | ->]; [reflexivity |].
  destruct (generates_certik_ir env); reflexivity.
Qed.

(** The lowering of an operator of the signed table, when it is not folded:
    three instructions for the arithmetic right shift, four otherwise. *)
Lemma signed_operator_lowering env p e t unsigned l r st :
  generates_certik_ir env = false \/ ConstantFolding env e = None ->
  _signed_to_unsigned t = Some unsigned ->
  context st !! child p k_left = Some l ->
  context st !! child p k_right = Some r ->
  let n := counter_temporary st in
  let new_left := TemporaryVariable (1 + n) int256 None in
  let new_right := TemporaryVariable (2 + n) int256 None in
  let val := TemporaryVariable n uint256 None in
  let store :=
    <[p := val]> (delete (child p k_right)
                    (delete (child p k_left) (context st))) in
  _post_binary_operation env p e t st =
    if is_RIGHT_SHIFT_ARITHMETIC t then
      inr (tt, mkState
                 (_result st ++
                    [set_expression (IR.TypeConversion new_left l int256) p;
                     set_expression
                       (IR.Binary (Temporary (2 + n)) new_left r unsigned) p;
                     set_expression
                       (IR.TypeConversion val (Temporary (2 + n)) uint256) p])
                 store (3 + n) (counter_reference st) (counter_tuple st))
    else
      inr (tt, mkState
                 (_result st ++
                    [set_expression (IR.TypeConversion new_left l int256) p;
                     set_expression (IR.TypeConversion new_right r int256) p;
                     set_expression
                       (IR.Binary (Temporary (3 + n)) new_left new_right
                          unsigned) p;
                     set_expression
                       (IR.TypeConversion val (Temporary (3 + n)) uint256) p])
                 store (4 + n) (counter_reference st) (counter_tuple st)).
Proof.
  intros Hfold Hsigned Hl Hr. destruct st as [res ctx ct cr cu]. simpl in *.
  unfold _post_binary_operation.
  rewrite (folding_guard_skipped _ _ _ _ Hfold).
  unfold bind, ret, get, fresh_temporary, append, set_val. simpl.
  rewrite Hl. simpl.
  rewrite lookup_delete_ne by (apply child_ne; discriminate).
  rewrite Hr. simpl. rewrite Hsigned.
  destruct (is_RIGHT_SHIFT_ARITHMETIC t); simpl;
    repeat rewrite <- app_assoc; reflexivity.
Qed.

(** C2: a signed comparison that is not folded lowers to exactly four
    instructions: the two operands are converted to [int256], the comparison
    is the binary instruction with the opcode of the unsigned operator
    ([LESS] for [LESS_SIGNED], [GREATER] for [GREATER_SIGNED]), and the
    result is converted to [uint256]. *)
Theorem signed_comparison_four_instructions env p expression_left
    expression_right t unsigned l r st :
  generates_certik_ir env = false \/
    ConstantFolding env
      (Expr.BinaryOperation expression_left expression_right t) = None ->
  (t = BinaryOperationType.LESS_SIGNED /\ unsigned = BinaryType.LESS) \/
  (t = BinaryOperationType.GREATER_SIGNED /\ unsigned = BinaryType.GREATER) ->
  context st !! child p k_left = Some l ->
  context st !! child p k_right = Some r ->
  let n := counter_temporary st in
  let new_left := TemporaryVariable (1 + n) int256 None in
  let new_right := TemporaryVariable (2 + n) int256 None in
  let new_final := Temporary (3 + n) in
  let val := TemporaryVariable n uint256 None in
  _post_binary_operation env p
    (Expr.BinaryOperation expression_left expression_right t) t st =
    inr (tt, mkState
               (_result st ++
                  [set_expression (IR.TypeConversion new_left l int256) p;
                   set_expression (IR.TypeConversion new_right r int256) p;
                   set_expression
                     (IR.Binary new_final new_left new_right unsigned) p;
                   set_expression
                     (IR.TypeConversion val new_final uint256) p])
               (<[p := val]> (delete (child p k_right)
                                (delete (child p k_left) (context st))))
               (4 + n) (counter_reference st) (counter_tuple st)).
Proof.
  intros Hfold Hop Hl Hr n new_left new_right new_final val.
  assert (Hsigned : _signed_to_unsigned t = Some unsigned)
    by (destruct Hop as [[-> ->] | [-> ->]]; reflexivity).
  rewrite (signed_operator_lowering env p _ t unsigned l r st Hfold Hsigned Hl Hr).
  destruct Hop as [[-> _] | [-> _]]; reflexivity.
Qed.

Lemma signed_comparison_four_instructions_witness :
  _post_binary_operation Sample.env []
    (Expr.BinaryOperation (Expr.Identifier Sample.x)
       (Expr.Identifier Sample.y) BinaryOperationType.LESS_SIGNED)
    BinaryOperationType.LESS_SIGNED Sample.operands_x_y =
  inr (tt, mkState
             [set_expression
                (IR.TypeConversion (TemporaryVariable 1 int256 None)
                   Sample.x int256) [];
              set_expression
                (IR.TypeConversion (TemporaryVariable 2 int256 None)
                   Sample.y int256) [];
              set_expression
                (IR.Binary (Temporary 3) (TemporaryVariable 1 int256 None)
                   (TemporaryVariable 2 int256 None) BinaryType.LESS) [];
              set_expression
                (IR.TypeConversion (TemporaryVariable 0 uint256 None)
                   (Temporary 3) uint256) []]
             (<[[] := TemporaryVariable 0 uint256 None]>
                (delete (child [] k_right)
                   (delete (child [] k_left) (context Sample.operands_x_y))))
             4 0 0).
Proof.
  apply (signed_comparison_four_instructions Sample.env []
           (Expr.Identifier Sample.x) (Expr.Identifier Sample.y)
           BinaryOperationType.LESS_SIGNED BinaryType.LESS
           Sample.x Sample.y Sample.operands_x_y).
  - left; reflexivity.
  - left; split; reflexivity.
  - reflexivity.
  - reflexivity.
Defined.

(** C3: an arithmetic right shift that is not folded converts its left
    operand to [int256] before the binary instruction and passes its right
    operand, the shift count, to the binary instruction unchanged; no
    conversion of the right operand is emitted. *)
Theorem arithmetic_right_shift_left_only env p expression_left
    expression_right l r st :
  generates_certik_ir env = false \/
    ConstantFolding env
      (Expr.BinaryOperation expression_left expression_right
         BinaryOperationType.RIGHT_SHIFT_ARITHMETIC) = None ->
  context st !! child p k_left = Some l ->
  context st !! child p k_right = Some r ->
  let n := counter_temporary st in
  let new_left := TemporaryVariable (1 + n) int256 None in
  let new_final := Temporary (2 + n) in
  let val := TemporaryVariable n uint256 None in
  _post_binary_operation env p
    (Expr.BinaryOperation expression_left expression_right
       BinaryOperationType.RIGHT_SHIFT_ARITHMETIC)
    BinaryOperationType.RIGHT_SHIFT_ARITHMETIC st =
    inr (tt, mkState
               (_result st ++
                  [set_expression (IR.TypeConversion new_left l int256) p;
                   set_expression
                     (IR.Binary new_final new_left r BinaryType.RIGHT_SHIFT) p;
                   set_expression
                     (IR.TypeConversion val new_final uint256) p])
               (<[p := val]> (delete (child p k_right)
                                (delete (child p k_left) (context st))))
               (3 + n) (counter_reference st) (counter_tuple st)).
Proof.
  intros Hfold Hl Hr n new_left new_final val.
  exact (signed_operator_lowering env p _
           BinaryOperationType.RIGHT_SHIFT_ARITHMETIC BinaryType.RIGHT_SHIFT
           l r st Hfold eq_refl Hl Hr).
Qed.

Lemma arithmetic_right_shift_left_only_witness :
  _post_binary_operation Sample.env []
    (Expr.BinaryOperation (Expr.Identifier Sample.x)
       (Expr.Identifier Sample.y) BinaryOperationType.RIGHT_SHIFT_ARITHMETIC)
    BinaryOperationType.RIGHT_SHIFT_ARITHMETIC Sample.operands_x_y =
  inr (tt, mkState
             [set_expression
                (IR.TypeConversion (TemporaryVariable 1 int256 None)
                   Sample.x int256) [];
              set_expression
                (IR.Binary (Temporary 2) (TemporaryVariable 1 int256 None)
                   Sample.y BinaryType.RIGHT_SHIFT) [];
              set_expression
                (IR.TypeConversion (TemporaryVariable 0 uint256 None)
                   (Temporary 2) uint256) []]
             (<[[] := TemporaryVariable 0 uint256 None]>
                (delete (child [] k_right)
                   (delete (child [] k_left) (context Sample.operands_x_y))))
             3 0 0).
Proof.
  apply (arithmetic_right_shift_left_only Sample.env []
           (Expr.Identifier Sample.x) (Expr.Identifier Sample.y)
           Sample.x Sample.y Sample.operands_x_y).
  - left; reflexivity.
  - reflexivity.
  - reflexivity.
Defined.

(** ** Unary operations *)

(** C5: a postfix increment that is not folded emits, in order, the
    assignment of the operand to a fresh Temporary and the addition of the
    constant 1 to the operand in place, and records the Temporary; a prefix
    increment emits only the addition and records the operand itself. *)
Theorem increment_lowering env p nested value value_type st :
  generates_certik_ir env = false \/
    (ConstantFolding env
       (Expr.UnaryOperation nested UnaryOperationType.PLUSPLUS_POST) = None /\
     ConstantFolding env
       (Expr.UnaryOperation nested UnaryOperationType.PLUSPLUS_PRE) = None) ->
  context st !! child p k_expression = Some value ->
  type_attr env value = inr value_type ->
  let n := counter_temporary st in
  let add_one :=
    set_expression
      (IR.Binary value value (Constant "1" value_type None)
         BinaryType.ADDITION) p in
  let store := delete (child p k_expression) (context st) in
  _post_unary_operation env p
    (Expr.UnaryOperation nested UnaryOperationType.PLUSPLUS_POST)
    UnaryOperationType.PLUSPLUS_POST st =
    inr (tt, mkState
               (_result st ++
                  [set_expression
                     (IR.Assignment (Temporary n) value value_type) p;
                   add_one])
               (<[p := Temporary n]> store)
               (1 + n) (counter_reference st) (counter_tuple st))
  /\
  _post_unary_operation env p
    (Expr.UnaryOperation nested UnaryOperationType.PLUSPLUS_PRE)
    UnaryOperationType.PLUSPLUS_PRE st =
    inr (tt, mkState (_result st ++ [add_one]) (<[p := value]> store)
               n (counter_reference st) (counter_tuple st)).
Proof.
  intros Hfold Hvalue Htype n add_one store.
  destruct st as [res ctx ct cr cu]. simpl in *.
  unfold _post_unary_operation.
  rewrite !folding_guard_skipped by (destruct Hfold as [? | [? ?]]; auto).
  unfold bind, ret, get, fresh_temporary, append, set_val, lift. simpl.
  rewrite Hvalue. simpl. rewrite Htype. simpl.
  rewrite <- app_assoc. split; reflexivity.
Qed.

Lemma increment_lowering_witness :
  _post_unary_operation Sample.env []
    (Expr.UnaryOperation (Expr.Identifier Sample.x)
       UnaryOperationType.PLUSPLUS_POST)
    UnaryOperationType.PLUSPLUS_POST Sample.operand_x =
    inr (tt, mkState
               [set_expression
                  (IR.Assignment (Temporary 0) Sample.x int256) [];
                set_expression
                  (IR.Binary Sample.x Sample.x (Constant "1" int256 None)
                     BinaryType.ADDITION) []]
               (<[[] := Temporary 0]>
                  (delete (child [] k_expression)
                     (context Sample.operand_x)))
               1 0 0)
  /\
  _post_unary_operation Sample.env []
    (Expr.UnaryOperation (Expr.Identifier Sample.x)
       UnaryOperationType.PLUSPLUS_PRE)
    UnaryOperationType.PLUSPLUS_PRE Sample.operand_x =
    inr (tt, mkState
               [set_expression
                  (IR.Binary Sample.x Sample.x (Constant "1" int256 None)
                     BinaryType.ADDITION) []]
               (<[[] := Sample.x]>
                  (delete (child [] k_expression)
                     (context Sample.operand_x)))
               0 0 0).
Proof.
  apply (increment_lowering Sample.env [] (Expr.Identifier Sample.x)
           Sample.x int256 Sample.operand_x).
  - left; reflexivity.
  - reflexivity.
  - reflexivity.
Defined.

(** ** Constant folding *)

(** C7, as the code has it: in extended-IR mode, when the folder evaluates a
    binary or unary operation, the rule emits no instruction, reads no slot
    and records one Constant holding the printed value, typed [uint] when the
    operator is any key of the signed table (signed division, modulo, less,
    greater and arithmetic right shift), otherwise [bool] for a boolean
    value, otherwise [int] for an integer value, otherwise [string]. *)
Theorem constant_folding_records_constant env p e folded st :
  generates_certik_ir env = true ->
  ConstantFolding env e = Some folded ->
  (forall t,
     _post_binary_operation env p e t st =
       inr (tt, mkState (_result st)
                  (<[p := Constant (py_str folded)
                            (if in_signed_to_unsigned t
                             then ElementaryType "uint"
                             else type_of_kind folded) None]> (context st))
                  (counter_temporary st) (counter_reference st)
                  (counter_tuple st))) /\
  (forall t,
     _post_unary_operation env p e t st =
       inr (tt, mkState (_result st)
                  (<[p := Constant (py_str folded) (type_of_kind folded)
                            None]> (context st))
                  (counter_temporary st) (counter_reference st)
                  (counter_tuple st))) /\
  (forall t,
     in_signed_to_unsigned t = true <->
     In t [BinaryOperationType.DIVISION_SIGNED;
           BinaryOperationType.MODULO_SIGNED;
           BinaryOperationType.LESS_SIGNED;
           BinaryOperationType.GREATER_SIGNED;
           BinaryOperationType.RIGHT_SHIFT_ARITHMETIC]).
Proof.
  intros Hmode Hfold. split; [| split]; intros t.
  - unfold _post_binary_operation, folding_guard, _attempt_constant_folding.
    rewrite Hmode, Hfold. unfold bind, ret, set_val. simpl.
    destruct (in_signed_to_unsigned t), folded; reflexivity.
  - unfold _post_unary_operation, folding_guard, _attempt_constant_folding.
    rewrite Hmode, Hfold. unfold bind, ret, set_val. simpl.
    destruct folded; reflexivity.
  - destruct t; simpl; split; intros H; try reflexivity; try discriminate;
      intuition discriminate.
Qed.

Lemma constant_folding_records_constant_witness :
  _post_binary_operation Sample.env_folding [] Sample.six_by_three
    BinaryOperationType.DIVISION_SIGNED initial =
  inr (tt, mkState [] (<[[] := Constant "2" (ElementaryType "uint") None]> ∅)
             0 0 0).
Proof.
  exact (proj1 (constant_folding_records_constant Sample.env_folding []
                  Sample.six_by_three (FInt 2) initial eq_refl eq_refl)
           BinaryOperationType.DIVISION_SIGNED).
Defined.

(** C7 as stated fails: the folded signed division [6 / 3] is not a signed
    comparison or shift, so the stated priority gives it the numeric type,
    but the code records it with the unsigned type. *)
Lemma folded_signed_division_is_unsigned :
  exists st',
    _post_binary_operation Sample.env_folding [] Sample.six_by_three
      BinaryOperationType.DIVISION_SIGNED initial = inr (tt, st') /\
    _result st' = [] /\
    context st' !! [] = Some (Constant "2" (ElementaryType "uint") None) /\
    specified_folded_type BinaryOperationType.DIVISION_SIGNED (FInt 2) =
      ElementaryType "int" /\
    ElementaryType "uint" <>
      specified_folded_type BinaryOperationType.DIVISION_SIGNED (FInt 2).
Proof.
  eexists. split; [reflexivity |]. repeat split; try reflexivity.
  discriminate.
Qed.

(** ** Member access *)

(** C1, as the code has it: for [type(X).min] and [type(X).max], with [X] an
    elementary type or an enum, the member-access rule reads the slot of the
    nested call, emits exactly one assignment that stores a Constant carrying
    the printed bound (typed [X] for an elementary type, untyped for an enum)
    into a fresh Temporary, and records that Temporary. *)
Theorem type_bound_lowering env p type_argument type_call call_gas call_value
    call_salt member_name type_found constant_type bound expr st :
  member_name = "min" \/ member_name = "max" ->
  (type_argument = Expr.ElementaryTypeNameExpression type_found /\
   constant_type = type_found) \/
  (type_argument = Expr.Identifier type_found /\
   (exists name lo hi, type_found = Enum name lo hi) /\
   constant_type = VNone) ->
  (if String.eqb member_name "min"
   then min_attr env type_found else max_attr env type_found) = inr bound ->
  context st !! child p k_expression = Some expr ->
  let n := counter_temporary st in
  _post_member_access env p
    (Expr.CallExpression (Expr.Identifier (SolidityFunction "type()"))
       [Some type_argument] type_call call_gas call_value call_salt)
    member_name st =
    inr (tt, mkState
               (_result st ++
                  [bare (IR.Assignment (Temporary n)
                           (Constant (pretty bound) constant_type None)
                           type_found)])
               (<[p := Temporary n]>
                  (delete (child p k_expression) (context st)))
               (1 + n) (counter_reference st) (counter_tuple st)).
Proof.
  intros Hmember Hshape Hbound Hexpr n.
  destruct st as [res ctx ct cr cu]. simpl in *.
  unfold _post_member_access.
  assert (Hargs :
    type_call_arguments
      (Expr.CallExpression (Expr.Identifier (SolidityFunction "type()"))
         [Some type_argument] type_call call_gas call_value call_salt)
      member_name = Some [Some type_argument])
    by (destruct Hmember as [-> | ->]; reflexivity).
  rewrite Hargs.
  unfold bind, ret, get, fresh_temporary, append, set_val, lift, assert, index.
  simpl. rewrite Hexpr. simpl.
  destruct Hshape as [[-> ->] | [-> [[name [lo [hi ->]]] ->]]]; simpl.
  - rewrite Hbound. reflexivity.
  - destruct (String.eqb member_name "min"); simpl in *;
      injection Hbound as ->; reflexivity.
Qed.

Lemma type_bound_lowering_witness :
  _post_member_access Sample.env [] Sample.type_uint256 "max"
    Sample.after_type_uint256 =
  inr (tt, mkState
             (_result Sample.after_type_uint256 ++
                [bare (IR.Assignment (Temporary 1)
                         (Constant (pretty (2 ^ 256 - 1)%Z) uint256 None)
                         uint256)])
             (<[[] := Temporary 1]>
                (delete (child [] k_expression)
                   (context Sample.after_type_uint256)))
             2 0 0).
Proof.
  apply (type_bound_lowering Sample.env []
           (Expr.ElementaryTypeNameExpression uint256) "type(uint256)"
           None None None "max" uint256 uint256 (2 ^ 256 - 1)%Z
           (Temporary 0) Sample.after_type_uint256).
  - right; reflexivity.
  - left; split; reflexivity.
  - reflexivity.
  - reflexivity.
Defined.

(** C1 as stated fails: lowering [type(uint256).max] emits an assignment
    instruction and records a Temporary, not a Constant. *)
Lemma type_max_emits_an_assignment :
  result (ExpressionToSlithIR Sample.env Sample.type_uint256_max initial) =
    Some
      [set_expression (IR.Argument uint256) [0];
       set_expression
         (IR.TmpCall (SolidityFunction "type()") 1 (Temporary 0)
            "type(uint256)" VNone VNone VNone) [0];
       bare (IR.Assignment (Temporary 1)
               (Constant
                  "115792089237316195423570985008687907853269984665640564039457584007913129639935"
                  uint256 None)
               uint256)] /\
  _visit_expression Sample.env (child [] k_expression) Sample.type_uint256
    initial = inr (tt, Sample.after_type_uint256) /\
  exists st',
    _post_member_access Sample.env [] Sample.type_uint256 "max"
      Sample.after_type_uint256 = inr (tt, st') /\
    _result st' =
      (_result Sample.after_type_uint256 ++
         [bare (IR.Assignment (Temporary 1)
                  (Constant
                     "115792089237316195423570985008687907853269984665640564039457584007913129639935"
                     uint256 None)
                  uint256)])%list /\
    length (_result st') = S (length (_result Sample.after_type_uint256)) /\
    context st' !! [] = Some (Temporary 1).
Proof.
  split; [vm_compute; reflexivity |].
  split; [vm_compute; reflexivity |].
  eexists. split; [vm_compute; reflexivity |].
  repeat split; vm_compute; reflexivity.
Qed.

(** ** Assignments *)

Lemma emits_ret : emits (ret tt) [].
Proof. intros [res ctx ct cr cu]. unfold ret. simpl. by rewrite app_nil_r. Qed.

Lemma emits_append op : emits (append op) [op].
Proof. intros st. reflexivity. Qed.

Lemma emits_bind m k ops1 ops2 :
  emits m ops1 -> emits k ops2 -> emits (m ;;; k) (ops1 ++ ops2).
Proof.
  intros Hm Hk st. unfold bind. rewrite Hm, Hk. simpl.
  by rewrite app_assoc.
Qed.

(** A loop whose body only appends instructions appends the concatenation
    of what the body appends at each position. *)
Lemma for_enumerate_emits {A} (body : nat -> A -> M unit)
    (g : nat -> A -> list Operation) (l : list A) :
  forall idx,
    (forall i x, l !! i = Some x -> emits (body (idx + i) x) (g (idx + i) x)) ->
    emits (for_enumerate body idx l) (mjoin (imap (fun i => g (idx + i)) l)).
Proof.
  induction l as [| x l IH]; intros idx Hbody; simpl.
  - apply emits_ret.
  - apply emits_bind.
    + specialize (Hbody 0 x eq_refl). by rewrite Nat.add_0_r in Hbody |- *.
    + rewrite (imap_ext _ (fun i => g (S idx + i))).
      * apply IH. intros i y Hy. simpl.
        specialize (Hbody (S i) y Hy). by rewrite Nat.add_succ_r in Hbody.
      * intros i y _. simpl. by rewrite Nat.add_succ_r.
Qed.

Lemma unpack_loop_emits p tuple targets :
  emits
    (for_enumerate
       (fun idx left_idx =>
          if negb (is_None left_idx) then
            let index :=
              match left_idx with
              | LocalVariableInitFromTuple _ _ (Some tuple_index) =>
                  tuple_index
              | _ => idx
              end in
            append (set_expression (IR.Unpack left_idx tuple index) p)
          else ret tt)
       0 targets)
    (unpacks p tuple targets).
Proof.
  unfold unpacks.
  apply (for_enumerate_emits _
           (fun position target =>
              if is_None target then []
              else [set_expression
                      (IR.Unpack target tuple
                         (default position (stored_tuple_index target)))
                      p]) targets 0).
  intros i x _. simpl. destruct (is_None x) eqn:Hx; simpl.
  - apply emits_ret.
  - destruct x as [| | | | | | | | | | | | | ? ? [tuple_index |] | | | | |];
      apply emits_append.
Qed.





Lemma pairwise_loop_emits p type expression_return_type targets sources :
  length targets = length sources ->
  exists ops,
    emits
      (for_enumerate
         (fun idx left_idx =>
            if negb (is_None left_idx) then
              right_idx <- index sources idx ;;
              append (set_expression
                        (convert_assignment left_idx right_idx type
                           expression_return_type) p)
            else ret tt)
         0 targets)
      ops.
Proof.
  intros Hlen. eexists.
  apply (for_enumerate_emits _
           (fun i target =>
              if is_None target then []
              else match sources !! i with
                   | Some source =>
                       [set_expression
                          (convert_assignment target source type
                             expression_return_type) p]
                   | None => []
                   end) targets 0).
  intros i target Htarget. simpl.
  destruct (is_None target); simpl; [apply emits_ret |].
  destruct (lookup_lt_is_Some_2 sources i) as [source Hsource].
  { rewrite <- Hlen. eapply lookup_lt_Some; eassumption. }
  rewrite Hsource. intros st. unfold bind, index, ret. rewrite Hsource.
  reflexivity.
Qed.

(** C9: every assignment whose left side is a list of targets, and the
    assignment of one tuple-declared target from a tuple value, records
    [None] as the value of the assignment expression; any other assignment
    records its left target. *)
Theorem destructuring_assignment_records_none p type expression_return_type
    left right st :
  context st !! child p k_left = Some left ->
  context st !! child p k_right = Some right ->
  let lowered ops recorded :=
    _post_assignement_operation p type expression_return_type st =
      inr (tt, mkState (_result st ++ ops)
                 (<[p := recorded]>
                    (delete (child p k_right)
                       (delete (child p k_left) (context st))))
                 (counter_temporary st) (counter_reference st)
                 (counter_tuple st)) in
  (forall targets sources,
     left = VList targets -> right = VList sources ->
     length targets = length sources ->
     exists ops, lowered ops VNone) /\
  (forall targets k,
     left = VList targets -> right = TupleVariable k ->
     exists ops, lowered ops VNone) /\
  (forall name ty tuple_index k,
     left = LocalVariableInitFromTuple name ty (Some tuple_index) ->
     right = TupleVariable k ->
     lowered [set_expression (IR.Unpack left right tuple_index) p] VNone) /\
  (is_list left = false ->
   (forall name ty tuple_index k,
      ~ (left = LocalVariableInitFromTuple name ty (Some tuple_index) /\
         right = TupleVariable k)) ->
   exists op, lowered [op] left).
Proof.
  intros Hl Hr lowered. subst lowered.
  destruct st as [res ctx ct cr cu]. simpl in *.
  assert (Hreads : forall k : Value -> Value -> M unit,
    (left <- get (child p k_left) ;; right <- get (child p k_right) ;;
     k left right)
      (mkState res ctx ct cr cu) =
    k left right
      (mkState res (delete (child p k_right) (delete (child p k_left) ctx))
         ct cr cu)).
  { intros k. unfold bind, get. simpl. rewrite Hl. simpl.
    rewrite lookup_delete_ne by (apply child_ne; discriminate).
    rewrite Hr. reflexivity. }
  unfold _post_assignement_operation.
  repeat split.
  - intros targets sources -> -> Hlen.
    destruct (pairwise_loop_emits p type expression_return_type targets
                sources Hlen) as [ops Hops].
    exists ops. rewrite Hreads.
    unfold bind at 1. unfold assert. rewrite Hlen, Nat.eqb_refl.
    unfold ret at 1. unfold bind at 1. rewrite Hops. reflexivity.
  - intros targets k -> ->.
    exists (unpacks p (TupleVariable k) targets). rewrite Hreads.
    unfold bind at 1. unfold assert, ret at 1. unfold bind at 1.
    rewrite (unpack_loop_emits p (TupleVariable k) targets). reflexivity.
  - intros name ty tuple_index k -> ->. rewrite Hreads. reflexivity.
  - intros Hlist Hform. rewrite Hreads.
    destruct left; try discriminate Hlist;
      try (destruct (is_list right);
           eexists; unfold bind, append, set_val; simpl; reflexivity).
    destruct tuple_index as [tuple_index |];
      [destruct right;
        try (eexists; unfold bind, append, set_val; simpl; reflexivity);
        exfalso; eapply Hform; eauto |].
    destruct right; eexists; unfold bind, append, set_val; simpl; reflexivity.
Qed.

Lemma destructuring_assignment_records_none_witness :
  exists ops,
    _post_assignement_operation [] AssignmentOperationType.ASSIGN VNone
      Sample.after_tuple_call =
    inr (tt, mkState
               (_result Sample.after_tuple_call ++ ops)
               (<[[] := VNone]>
                  (delete (child [] k_right)
                     (delete (child [] k_left)
                        (context Sample.after_tuple_call))))
               0 0 1).
Proof.
  exact (proj1 (proj2
           (destructuring_assignment_records_none []
              AssignmentOperationType.ASSIGN VNone Sample.targets_a_c
              (TupleVariable 0) Sample.after_tuple_call eq_refl eq_refl))
           [Sample.a; VNone; Sample.c] 0 eq_refl eq_refl).
Defined.

(** ** The scratch store *)

Lemma get_present_slot st key val :
  context st !! key = Some val ->
  get key st =
    inr (val, mkState (_result st) (delete key (context st))
                (counter_temporary st) (counter_reference st)
                (counter_tuple st)).
Proof. intros H. unfold get. by rewrite H. Qed.

Lemma get_absent_slot st key :
  context st !! key = None -> get key st = inl KeyError.
Proof. intros H. unfold get. by rewrite H. Qed.

Lemma lookup_clear (keys : list NodeId) (m : gmap NodeId Value) (q : NodeId) :
  clear keys m !! q = if decide (q ∈ keys) then None else m !! q.
Proof.
  unfold clear. revert m.
  induction keys as [| key keys IH]; intros m; cbn [foldl].
  - destruct (decide (q ∈ [])) as [H | H]; [by apply elem_of_nil in H | done].
  - rewrite IH.
    destruct (decide (q ∈ keys)) as [Hin | Hin];
      destruct (decide (q ∈ key :: keys)) as [Hin' | Hin'];
      rewrite elem_of_cons in Hin'; try done.
    + tauto.
    + destruct Hin' as [-> | ?]; [by rewrite lookup_delete_eq | done].
    + rewrite lookup_delete_ne; [done |]. intros ->. tauto.
Qed.

Lemma lookup_clear_ne (keys : list NodeId) (m : gmap NodeId Value) (q : NodeId) :
  q ∉ keys -> clear keys m !! q = m !! q.
Proof. intros H. rewrite lookup_clear. by case_decide. Qed.

Lemma clear_app (keys1 keys2 : list NodeId) (m : gmap NodeId Value) :
  clear (keys1 ++ keys2) m = clear keys2 (clear keys1 m).
Proof. unfold clear. apply foldl_app. Qed.

Lemma elem_of_present_keys (p : NodeId) k i l (key : NodeId) :
  key ∈ present_keys p k i l ->
  exists j e, l !! j = Some (Some e) /\ key = child p (k (i + j)).
Proof.
  revert i. induction l as [| [e |] l IH]; intros i H; simpl in H.
  - by apply elem_of_nil in H.
  - apply elem_of_cons in H as [-> | H].
    + exists 0, e. by rewrite Nat.add_0_r.
    + destruct (IH _ H) as [j [e' [Hj ->]]].
      exists (S j), e'. split; [done |]. by rewrite Nat.add_succ_r.
  - destruct (IH _ H) as [j [e' [Hj ->]]].
    exists (S j), e'. split; [done |]. by rewrite Nat.add_succ_r.
Qed.

Lemma present_keys_NoDup p k i l :
  Inj (=) (=) k -> NoDup (present_keys p k i l).
Proof.
  intros Hinj. revert i. induction l as [| [e |] l IH]; intros i; simpl.
  - constructor.
  - constructor; [| apply IH].
    intros H. apply elem_of_present_keys in H as [j [e' [_ H]]].
    apply child_inj, Hinj in H. lia.
  - apply IH.
Qed.

#[local] Instance k_argument_inj : Inj (=) (=) k_argument.
Proof. intros i j. unfold k_argument. lia. Qed.

#[local] Instance k_element_inj : Inj (=) (=) k_element.
Proof. intros i j. unfold k_element. lia. Qed.

Lemma Forall2_impl_elem {A B} (P Q : A -> B -> Prop) (l : list A)
    (l' : list B) :
  Forall2 P l l' ->
  (forall x y, x ∈ l -> P x y -> Q x y) ->
  Forall2 Q l l'.
Proof.
  induction 1 as [| x y l l' Hxy _ IH]; intros HPQ; constructor.
  - apply HPQ; [apply elem_of_cons; by left | done].
  - apply IH. intros x' y' Hx'. apply HPQ. apply elem_of_cons. by right.
Qed.

(** Slots read earlier are distinct from the slots still to be read. *)
Lemma slots_after_delete (m : gmap NodeId Value) (key : NodeId)
    (keys : list NodeId) (vals : list Value) :
  key ∉ keys ->
  Forall2 (fun key val => m !! key = Some val) keys vals ->
  Forall2 (fun key' val => delete key m !! key' = Some val) keys vals.
Proof.
  intros Hfresh Hvals. eapply Forall2_impl_elem; [exact Hvals |].
  intros key' val Hin Hlookup. simpl.
  rewrite lookup_delete_ne; [done |]. by intros <-.
Qed.

(** Reading the present entries of a list of children returns their slots'
    values in order and clears exactly those slots. *)
Lemma get_present_reads p k l :
  forall i st vals,
    NoDup (present_keys p k i l) ->
    Forall2 (fun key val => context st !! key = Some val)
      (present_keys p k i l) vals ->
    get_present p k i l st =
      inr (vals, mkState (_result st)
                   (clear (present_keys p k i l) (context st))
                   (counter_temporary st) (counter_reference st)
                   (counter_tuple st)).
Proof.
  induction l as [| [e |] l IH]; intros i st vals Hnodup Hvals; simpl in *.
  - apply Forall2_nil_inv_l in Hvals as ->. by destruct st.
  - apply Forall2_cons_inv_l in Hvals as [val [vals' [Hval [Hvals ->]]]].
    apply NoDup_cons in Hnodup as [Hfresh Hnodup].
    unfold bind. rewrite (get_present_slot _ _ _ Hval).
    rewrite (IH (S i) _ vals'); [done | done |]. simpl.
    by apply slots_after_delete.
  - by apply IH.
Qed.

(** A loop that appends one instruction per element. *)
Lemma for_each_emits {A} (f : A -> Operation) (l : list A) idx :
  emits (for_enumerate (fun _ x => append (f x)) idx l) (map f l).
Proof.
  revert idx. induction l as [| x l IH]; intros idx; simpl.
  - apply emits_ret.
  - apply (emits_bind _ _ [f x] (map f l)); [apply emits_append | apply IH].
Qed.

Lemma get_option_reads p k e val st :
  option_slot (context st) p k e val ->
  get_option p k e st =
    inr (val, mkState (_result st) (clear (option_key p k e) (context st))
                (counter_temporary st) (counter_reference st)
                (counter_tuple st)).
Proof.
  destruct e as [e |]; simpl.
  - apply get_present_slot.
  - intros ->. by destruct st.
Qed.

(** ** Calls *)

Lemma call_by_name_unresolved p called args type_call call_gas call_value
    call_salt name :
  name_attr called = inr name ->
  ~ In name pseudo_functions ->
  call_by_name p called args type_call call_gas call_value call_salt =
  unresolved_call p called args type_call call_gas call_value call_salt.
Proof.
  intros Hname Hpseudo. unfold call_by_name. rewrite Hname.
  unfold lift, bind, ret.
  assert (Hne : forall s, In s pseudo_functions -> String.eqb name s = false).
  { intros s Hs. apply String.eqb_neq. intros ->. contradiction. }
  rewrite !Hne by (unfold pseudo_functions; simpl; tauto).
  reflexivity.
Qed.

Lemma call_by_kind_unresolved p expression_called called args type_call
    call_gas call_value call_salt :
  unresolved expression_called called (length args) ->
  call_by_kind p expression_called called args type_call call_gas call_value
    call_salt =
  unresolved_call p called args type_call call_gas call_value call_salt.
Proof.
  intros [Hfunction [Halias [name [Hname Hpseudo]]]].
  rewrite <- (call_by_name_unresolved _ _ _ _ _ _ _ name Hname Hpseudo).
  unfold call_by_kind. destruct called; try reflexivity.
  - destruct Halias as [Hne | [-> | Hlen]]; [by eelim Hne | done |].
    apply Nat.eqb_neq in Hlen. rewrite Hlen. by rewrite andb_false_r.
  - by eelim Hfunction.
Qed.

Lemma option_slot_clear (keys : list NodeId) (m : gmap NodeId Value)
    (p : NodeId) (k : nat) (e : option Expression) (val : Value) :
  child p k ∉ keys ->
  option_slot m p k e val ->
  option_slot (clear keys m) p k e val.
Proof.
  intros Hfresh. destruct e; simpl; [| done].
  by rewrite lookup_clear_ne.
Qed.

Lemma option_key_other (p : NodeId) (k k' : nat) (e : option Expression) :
  k <> k' -> child p k ∉ option_key p k' e.
Proof.
  intros Hne. destruct e; simpl; [| apply not_elem_of_nil].
  apply not_elem_of_cons. split; [by apply child_ne | apply not_elem_of_nil].
Qed.

(** The placeholder branch, run on a store that holds the options' slots. *)
Lemma unresolved_call_run p called args type_call call_gas call_value
    call_salt gas value salt st :
  option_slot (context st) p k_call_gas call_gas gas ->
  option_slot (context st) p k_call_value call_value value ->
  option_slot (context st) p k_call_salt call_salt salt ->
  let val := if returns_tuple type_call
             then TupleVariable (counter_tuple st)
             else Temporary (counter_temporary st) in
  unresolved_call p called args type_call call_gas call_value call_salt st =
    inr (tt, mkState
               (_result st ++
                  [set_expression
                     (IR.TmpCall called (length args) val type_call
                        gas value salt) p])
               (<[p := val]>
                  (clear (option_key p k_call_salt call_salt)
                     (clear (option_key p k_call_value call_value)
                        (clear (option_key p k_call_gas call_gas)
                           (context st)))))
               (if returns_tuple type_call then counter_temporary st
                else S (counter_temporary st))
               (counter_reference st)
               (if returns_tuple type_call then S (counter_tuple st)
                else counter_tuple st)).
Proof.
  intros Hgas Hvalue Hsalt val. subst val.
  assert (Hvalue' :
    option_slot (clear (option_key p k_call_gas call_gas) (context st))
      p k_call_value call_value value)
    by (apply option_slot_clear; [by apply option_key_other | done]).
  assert (Hsalt' :
    option_slot
      (clear (option_key p k_call_value call_value)
         (clear (option_key p k_call_gas call_gas) (context st)))
      p k_call_salt call_salt salt)
    by (do 2 (apply option_slot_clear; [by apply option_key_other |]); done).
  destruct st as [res ctx ct cr cu]. cbn [context] in *.
  unfold unresolved_call.
  destruct (returns_tuple type_call);
    unfold bind at 1; cbn;
    unfold bind at 1;
    rewrite (get_option_reads p k_call_gas call_gas gas) by exact Hgas;
    cbn [_result context counter_temporary counter_reference counter_tuple];
    unfold bind at 1;
    rewrite (get_option_reads p k_call_value call_value value)
      by exact Hvalue';
    cbn [_result context counter_temporary counter_reference counter_tuple];
    unfold bind at 1;
    rewrite (get_option_reads p k_call_salt call_salt salt) by exact Hsalt';
    reflexivity.
Qed.

(** C8, for the option syntax [x.call{value: v}("")]: when the callee is not
    a known function, not a wrap/unwrap selector and not a pseudo-function,
    the call rule emits one argument marker per argument, in order, followed
    by one placeholder call whose call-value is the lowered [v], and nothing
    else; in particular no internal call. *)
Theorem unresolved_call_placeholder p expression_called arguments type_call
    call_gas value_expression call_salt called args gas value salt st :
  context st !! child p k_called = Some called ->
  Forall2 (fun key val => context st !! key = Some val)
    (present_keys p k_argument 0 arguments) args ->
  option_slot (context st) p k_call_gas call_gas gas ->
  context st !! child p k_call_value = Some value ->
  option_slot (context st) p k_call_salt call_salt salt ->
  unresolved expression_called called (length args) ->
  let val := if returns_tuple type_call
             then TupleVariable (counter_tuple st)
             else Temporary (counter_temporary st) in
  _post_call_expression p expression_called arguments type_call call_gas
    (Some value_expression) call_salt st =
    inr (tt, mkState
               (_result st ++
                  map (fun arg => set_expression (IR.Argument arg) p) args ++
                  [set_expression
                     (IR.TmpCall called (length args) val type_call
                        gas value salt) p])
               (<[p := val]>
                  (clear (option_key p k_call_salt call_salt)
                     (delete (child p k_call_value)
                        (clear (option_key p k_call_gas call_gas)
                           (clear (present_keys p k_argument 0 arguments)
                              (delete (child p k_called) (context st)))))))
               (if returns_tuple type_call then counter_temporary st
                else S (counter_temporary st))
               (counter_reference st)
               (if returns_tuple type_call then S (counter_tuple st)
                else counter_tuple st)).
Proof.
  intros Hcalled Hargs Hgas Hvalue Hsalt Hunresolved val. subst val.
  set (keys := present_keys p k_argument 0 arguments) in *.
  assert (Hother : forall k, k < 4 -> child p k ∉ keys).
  { intros k Hk Hin. apply elem_of_present_keys in Hin as [j [_ [_ Hj]]].
    apply child_inj in Hj. unfold k_argument in Hj. lia. }
  assert (Hkept : forall k e val,
            k < 4 -> k <> k_called ->
            option_slot (context st) p k e val ->
            option_slot (clear keys (delete (child p k_called) (context st)))
              p k e val).
  { intros k e val Hk Hne Hslot.
    apply option_slot_clear; [by apply Hother |].
    apply (option_slot_clear [child p k_called]); [| done].
    apply not_elem_of_cons. split; [by apply child_ne | apply not_elem_of_nil]. }
  unfold _post_call_expression.
  unfold bind at 1. rewrite (get_present_slot _ _ _ Hcalled).
  unfold bind at 1.
  rewrite (get_present_reads p k_argument arguments 0 _ args);
    [| apply present_keys_NoDup, _
     | apply slots_after_delete; [apply (Hother 0); lia | exact Hargs]].
  unfold bind at 1. rewrite for_each_emits.
  rewrite call_by_kind_unresolved by exact Hunresolved.
  rewrite (unresolved_call_run _ _ _ _ _ _ _ gas value salt).
  - cbn [_result context counter_temporary counter_reference counter_tuple].
    by rewrite <- app_assoc.
  - apply Hkept; [unfold k_call_gas; lia | done | done].
  - apply (Hkept k_call_value (Some value_expression));
      [unfold k_call_value; lia | done | done].
  - apply Hkept; [unfold k_call_salt; lia | done | done].
Qed.

Lemma unresolved_call_placeholder_witness :
  _post_call_expression []
    (Expr.MemberAccess (Expr.Identifier Sample.dst) "call")
    [Some (Expr.Literal "" (ElementaryType "string") None)]
    "tuple(bool,bytes memory)" None (Some (Expr.Identifier Sample.v)) None
    Sample.after_call_children =
  inr (tt, mkState
             (_result Sample.after_call_children ++
                [set_expression
                   (IR.Argument (Constant "" (ElementaryType "string") None))
                   [];
                 set_expression
                   (IR.TmpCall (ReferenceVariable 0) 1 (TupleVariable 0)
                      "tuple(bool,bytes memory)" VNone Sample.v VNone) []])
             (<[[] := TupleVariable 0]>
                (delete (child [] k_call_value)
                   (delete (child [] (k_argument 0))
                      (delete (child [] k_called)
                         (context Sample.after_call_children)))))
             0 1 1).
Proof.
  apply (unresolved_call_placeholder []
           (Expr.MemberAccess (Expr.Identifier Sample.dst) "call")
           [Some (Expr.Literal "" (ElementaryType "string") None)]
           "tuple(bool,bytes memory)" None (Expr.Identifier Sample.v) None
           (ReferenceVariable 0)
           [Constant "" (ElementaryType "string") None]
           VNone Sample.v VNone Sample.after_call_children).
  - reflexivity.
  - repeat constructor.
  - reflexivity.
  - reflexivity.
  - reflexivity.
  - split; [discriminate |]. split; [left; discriminate |].
    exists "REF_0". split; [reflexivity |]. simpl. intuition discriminate.
Defined.

(** C8 as stated fails on its own example: in [dst.call.value(v)("")] the
    modifier [.value(v)] is itself a call, so lowering emits two argument
    markers and two placeholder calls, and the call-value of every
    placeholder call is unset. *)
Lemma member_syntax_call_value_is_unset :
  result (ExpressionToSlithIR Sample.env Sample.call_value_member_syntax
            initial) =
  Some
    [set_expression
       (IR.Member Sample.dst (Constant "call" VNone None)
          (ReferenceVariable 0)) [0; 0; 0];
     set_expression
       (IR.Member (ReferenceVariable 0) (Constant "value" VNone None)
          (ReferenceVariable 1)) [0; 0];
     set_expression (IR.Argument Sample.v) [0];
     set_expression
       (IR.TmpCall (ReferenceVariable 1) 1 (Temporary 0)
          "function (bytes memory) payable" VNone VNone VNone) [0];
     set_expression
       (IR.Argument (Constant "" (ElementaryType "string") None)) [];
     set_expression
       (IR.TmpCall (Temporary 0) 1 (TupleVariable 0)
          "tuple(bool,bytes memory)" VNone VNone VNone) []] /\
  forall ops,
    result (ExpressionToSlithIR Sample.env Sample.call_value_member_syntax
              initial) = Some ops ->
    Forall (fun op =>
              match IR.instr op with
              | IR.TmpCall _ _ _ _ _ call_value _ => call_value = VNone
              | _ => True
              end) ops.
Proof.
  split; [vm_compute; reflexivity |].
  intros ops H. vm_compute in H. injection H as <-.
  repeat constructor.
Qed.

(** ** Inversion of successful runs *)

Lemma bind_inv {A B} (m : M A) (k : A -> M B) st b st'' :
  bind m k st = inr (b, st'') ->
  exists a st', m st = inr (a, st') /\ k a st' = inr (b, st'').
Proof.
  unfold bind. destruct (m st) as [e | [a st']]; [discriminate | eauto].
Qed.

Lemma get_inv key st val st' :
  get key st = inr (val, st') ->
  context st !! key = Some val /\
  st' = mkState (_result st) (delete key (context st))
          (counter_temporary st) (counter_reference st) (counter_tuple st).
Proof.
  unfold get. destruct (context st !! key); [| discriminate].
  intros H. injection H as -> ->. done.
Qed.

Lemma lift_inv {A} (r : Exception + A) st a st' :
  lift r st = inr (a, st') -> r = inr a /\ st' = st.
Proof.
  destruct r; unfold lift, raise, ret; [discriminate |].
  intros H. injection H as -> ->. done.
Qed.

Lemma assert_inv b st u st' :
  assert b st = inr (u, st') -> b = true /\ st' = st.
Proof.
  destruct b; unfold assert, raise, ret; [| discriminate].
  intros H. injection H as _ ->. done.
Qed.

Lemma index_inv {A} (l : list A) i st a st' :
  index l i st = inr (a, st') -> l !! i = Some a /\ st' = st.
Proof.
  unfold index. destruct (l !! i); unfold raise, ret; [| discriminate].
  intros H. injection H as -> ->. done.
Qed.

(** Decompose a successful run [H : m st = inr (a, st')] along the
    structure of [m]. *)
Ltac run_inv H :=
  lazymatch type of H with
  | bind ?m ?k ?st = inr _ =>
      let a := fresh "a" in
      let st1 := fresh "st" in
      let H1 := fresh "Hrun" in
      apply bind_inv in H as [a [st1 [H1 H]]];
      run_inv H1; cbv beta in H; run_inv H
  | get ?key ?st = inr _ =>
      let Hslot := fresh "Hslot" in
      apply get_inv in H as [Hslot ->]
  | lift ?r ?st = inr _ =>
      let Hattr := fresh "Hattr" in
      apply lift_inv in H as [Hattr ->]
  | assert ?b ?st = inr _ =>
      let Hassert := fresh "Hassert" in
      apply assert_inv in H as [Hassert ->]
  | index ?l ?i ?st = inr _ =>
      let Hindex := fresh "Hindex" in
      apply index_inv in H as [Hindex ->]
  | ret ?a ?st = inr _ => injection H; intros; subst
  | raise ?e ?st = inr _ => discriminate H
  | append ?op ?st = inr _ => injection H; intros; subst
  | set_val ?key ?val ?st = inr _ => injection H; intros; subst
  | fresh_temporary ?st = inr _ => injection H; intros; subst
  | fresh_reference ?st = inr _ => injection H; intros; subst
  | fresh_tuple ?st = inr _ => injection H; intros; subst
  | lookup_table ?o ?st = inr _ =>
      unfold lookup_table in H; destruct o; run_inv H
  | (if ?b then _ else _) ?st = inr _ =>
      let Hcond := fresh "Hcond" in
      destruct b eqn:Hcond; run_inv H
  | (match ?x with _ => _ end) ?st = inr _ =>
      destruct x; try discriminate H; run_inv H
  | (let _ := _ in _) ?st = inr _ => cbv zeta in H; run_inv H
  | _ => idtac
  end.

(** Close a goal [exists val, context st' = <[p := val]> (clear keys m)]
    once [st'] is explicit. *)
Ltac store_done :=
  unfold clear; cbn [context foldl]; eexists; reflexivity.

Lemma binary_rule_store env p e t st st' :
  generates_certik_ir env = false ->
  _post_binary_operation env p e t st = inr (tt, st') ->
  exists val,
    context st' =
      <[p := val]> (clear [child p k_left; child p k_right] (context st)).
Proof.
  intros Hmode H. unfold _post_binary_operation in H.
  rewrite folding_guard_skipped in H by auto.
  run_inv H; store_done.
Qed.

Lemma unary_rule_store env p e t st st' :
  generates_certik_ir env = false ->
  _post_unary_operation env p e t st = inr (tt, st') ->
  exists val,
    context st' = <[p := val]> (clear [child p k_expression] (context st)).
Proof.
  intros Hmode H. unfold _post_unary_operation in H.
  rewrite folding_guard_skipped in H by auto.
  run_inv H; store_done.
Qed.

Lemma index_rule_store p type st st' :
  _post_index_access p type st = inr (tt, st') ->
  exists val,
    context st' =
      <[p := val]> (clear [child p k_left; child p k_right] (context st)).
Proof.
  intros H. unfold _post_index_access in H.
  run_inv H; store_done.
Qed.

Lemma type_conversion_rule_store p type st st' :
  _post_type_conversion p type st = inr (tt, st') ->
  exists val,
    context st' = <[p := val]> (clear [child p k_expression] (context st)).
Proof.
  intros H. unfold _post_type_conversion in H.
  run_inv H; store_done.
Qed.

Lemma member_rule_store env p nested member_name st st' :
  _post_member_access env p nested member_name st = inr (tt, st') ->
  exists val,
    context st' = <[p := val]> (clear [child p k_expression] (context st)).
Proof.
  intros H. unfold _post_member_access in H.
  run_inv H; store_done.
Qed.

Lemma leaf_rules_store p st st' :
  (forall value, _post_identifier p value st = inr (tt, st') ->
     exists val, context st' = <[p := val]> (context st)) /\
  (forall value type subdenomination,
     _post_literal p value type subdenomination st = inr (tt, st') ->
     exists val, context st' = <[p := val]> (context st)) /\
  (forall type,
     _post_elementary_type_name_expression p type st = inr (tt, st') ->
     exists val, context st' = <[p := val]> (context st)) /\
  (forall depth array_type,
     _post_new_array p depth array_type st = inr (tt, st') ->
     exists val, context st' = <[p := val]> (context st)) /\
  (forall type,
     _post_new_elementary_type p type st = inr (tt, st') ->
     exists val, context st' = <[p := val]> (context st)).
Proof.
  repeat split; intros; 
    match goal with H : _ = inr _ |- _ =>
      unfold _post_identifier, _post_literal,
        _post_elementary_type_name_expression, _post_new_array,
        _post_new_elementary_type in H;
      run_inv H; store_done
    end.
Qed.


Lemma get_option_inv p k e st val st' :
  get_option p k e st = inr (val, st') ->
  st' = mkState (_result st) (clear (option_key p k e) (context st))
          (counter_temporary st) (counter_reference st) (counter_tuple st).
Proof.
  destruct e; simpl; intros H; run_inv H; [done | by destruct st'].
Qed.

Lemma get_present_inv p k l :
  forall i st vals st',
    get_present p k i l st = inr (vals, st') ->
    st' = mkState (_result st) (clear (present_keys p k i l) (context st))
            (counter_temporary st) (counter_reference st) (counter_tuple st).
Proof.
  induction l as [| [e |] l IH]; intros i st vals st' H; simpl in H.
  - run_inv H. by destruct st'.
  - apply bind_inv in H as [val [st1 [Hget H]]]. run_inv Hget.
    apply bind_inv in H as [vals' [st2 [Hrest H]]]. run_inv H.
    apply IH in Hrest. subst. reflexivity.
  - by apply IH in H.
Qed.

Lemma get_each_inv p k l :
  forall i st vals st',
    get_each p k i l st = inr (vals, st') ->
    st' = mkState (_result st) (clear (present_keys p k i l) (context st))
            (counter_temporary st) (counter_reference st) (counter_tuple st).
Proof.
  induction l as [| [e |] l IH]; intros i st vals st' H; simpl in H.
  - run_inv H. by destruct st'.
  - apply bind_inv in H as [val [st1 [Hget H]]]. run_inv Hget.
    apply bind_inv in H as [vals' [st2 [Hrest H]]]. run_inv H.
    apply IH in Hrest. subst. reflexivity.
  - apply bind_inv in H as [vals' [st2 [Hrest H]]]. run_inv H.
    by apply IH in Hrest.
Qed.

Lemma for_enumerate_appends_only {A} (body : nat -> A -> M unit) (l : list A) :
  (forall i x, appends_only (body i x)) ->
  forall idx, appends_only (for_enumerate body idx l).
Proof.
  intros Hbody. induction l as [| x l IH]; intros idx st u st' H; simpl in H.
  - run_inv H. exists []. rewrite app_nil_r. by destruct st'.
  - apply bind_inv in H as [u' [st1 [Hx H]]].
    apply Hbody in Hx as [ops1 ->]. apply IH in H as [ops2 ->]. simpl.
    exists (ops1 ++ ops2)%list. by rewrite app_assoc.
Qed.

Lemma append_appends_only op : appends_only (append op).
Proof. intros st u st' H. run_inv H. by exists [op]. Qed.

Lemma ret_appends_only : appends_only (ret tt).
Proof.
  intros st u st' H. run_inv H. exists []. rewrite app_nil_r. by destruct st'.
Qed.

Lemma assignment_rule_store p type expression_return_type st st' :
  _post_assignement_operation p type expression_return_type st =
    inr (tt, st') ->
  exists val,
    context st' =
      <[p := val]> (clear [child p k_left; child p k_right] (context st)).
Proof.
  intros H. unfold _post_assignement_operation in H.
  apply bind_inv in H as [left [st1 [Hleft H]]]. run_inv Hleft.
  apply bind_inv in H as [right [st2 [Hright H]]]. run_inv Hright.
  destruct left as [| | targets | | | | | | | | | | | | | | | | ];
    try (run_inv H; store_done).
  destruct right as [| | sources | | | | | | | | | | | | | | | | ];
    apply bind_inv in H as [u [st3 [Hassert H]]]; run_inv Hassert;
    apply bind_inv in H as [u' [st4 [Hloop H]]];
    (apply for_enumerate_appends_only in Hloop as [ops ->];
     [run_inv H; store_done |]);
    intros i x; destruct (is_None x); simpl;
    try apply ret_appends_only; try apply append_appends_only.
  intros s0 u0 s1 Hbody. run_inv Hbody. eexists. reflexivity.
Qed.

Lemma new_contract_rule_store p contract_name call_value call_salt st st' :
  _post_new_contract p contract_name call_value call_salt st = inr (tt, st') ->
  exists val,
    context st' =
      <[p := val]>
        (clear (option_key p k_call_value call_value ++
                option_key p k_call_salt call_salt) (context st)).
Proof.
  intros H. unfold _post_new_contract in H.
  apply bind_inv in H as [val [st1 [Hval H]]]. run_inv Hval.
  apply bind_inv in H as [value [st2 [Hvalue H]]].
  apply get_option_inv in Hvalue as ->.
  apply bind_inv in H as [salt [st3 [Hsalt H]]].
  apply get_option_inv in Hsalt as ->.
  run_inv H. cbn [context]. rewrite clear_app. eexists. reflexivity.
Qed.

Lemma tuple_rule_store p expressions is_inline_array st st' :
  _post_tuple_expression p expressions is_inline_array st = inr (tt, st') ->
  exists val,
    context st' =
      <[p := val]> (clear (present_keys p k_element 0 expressions)
                      (context st)).
Proof.
  intros H. unfold _post_tuple_expression in H.
  apply bind_inv in H as [vals [st1 [Hvals H]]].
  apply get_each_inv in Hvals as ->.
  run_inv H; cbn [context]; eexists; reflexivity.
Qed.

Lemma get_present_length p k l :
  forall i st vals st',
    get_present p k i l st = inr (vals, st') ->
    length vals = length (present_keys p k i l).
Proof.
  induction l as [| [e |] l IH]; intros i st vals st' H; simpl in H.
  - by run_inv H.
  - apply bind_inv in H as [val [st1 [Hget H]]].
    apply bind_inv in H as [vals' [st2 [Hrest H]]]. run_inv H.
    apply IH in Hrest. simpl. by rewrite Hrest.
  - by apply IH in H.
Qed.

Lemma unresolved_call_store p called args type_call call_gas call_value
    call_salt st st' :
  unresolved_call p called args type_call call_gas call_value call_salt st =
    inr (tt, st') ->
  exists val,
    context st' =
      <[p := val]>
        (clear (option_key p k_call_gas call_gas ++
                option_key p k_call_value call_value ++
                option_key p k_call_salt call_salt) (context st)).
Proof.
  intros H. unfold unresolved_call in H.
  apply bind_inv in H as [val [st1 [Hval H]]].
  assert (Hctx : context st1 = context st)
    by (destruct (returns_tuple type_call); run_inv Hval; reflexivity).
  apply bind_inv in H as [gas [st2 [Hgas H]]].
  apply get_option_inv in Hgas as ->.
  apply bind_inv in H as [value [st3 [Hvalue H]]].
  apply get_option_inv in Hvalue as ->.
  apply bind_inv in H as [salt [st4 [Hsalt H]]].
  apply get_option_inv in Hsalt as ->.
  run_inv H. cbn [context]. rewrite Hctx, !clear_app. eexists. reflexivity.
Qed.

Lemma call_by_kind_store p expression_called called args type_call st st' :
  call_by_kind p expression_called called args type_call None None None st =
    inr (tt, st') ->
  exists val, context st' = <[p := val]> (context st).
Proof.
  intros H. unfold call_by_kind, call_by_name, unresolved_call in H.
  cbn [get_option] in H.
  destruct called; run_inv H; cbn [context]; eexists; reflexivity.
Qed.

Lemma call_rule_store p expression_called arguments type_call call_gas
    call_value call_salt called st st' :
  _post_call_expression p expression_called arguments type_call call_gas
    call_value call_salt st = inr (tt, st') ->
  context st !! child p k_called = Some called ->
  (call_gas = None /\ call_value = None /\ call_salt = None) \/
  unresolved expression_called called
    (length (present_keys p k_argument 0 arguments)) ->
  exists val,
    context st' =
      <[p := val]>
        (clear ([child p k_called] ++
                present_keys p k_argument 0 arguments ++
                option_key p k_call_gas call_gas ++
                option_key p k_call_value call_value ++
                option_key p k_call_salt call_salt) (context st)).
Proof.
  intros H Hcalled Hoptions. unfold _post_call_expression in H.
  apply bind_inv in H as [called' [st1 [Hget H]]]. run_inv Hget.
  assert (called' = called) as -> by congruence.
  apply bind_inv in H as [args [st2 [Hargs H]]].
  pose proof (get_present_length _ _ _ _ _ _ _ Hargs) as Hlen.
  apply get_present_inv in Hargs as ->.
  apply bind_inv in H as [u [st3 [Hmarkers H]]].
  apply for_enumerate_appends_only in Hmarkers as [ops ->];
    [| intros i x; apply append_appends_only].
  cbn [context _result counter_temporary counter_reference counter_tuple] in H.
  destruct Hoptions as [[-> [-> ->]] | Hunresolved].
  - apply call_by_kind_store in H as [val ->]. cbn [context option_key].
    rewrite !app_nil_r, clear_app. eexists. reflexivity.
  - rewrite call_by_kind_unresolved in H by (by rewrite Hlen).
    apply unresolved_call_store in H as [val ->]. cbn [context].
    rewrite (clear_app [_]), (clear_app (present_keys _ _ _ _)).
    eexists. reflexivity.
Qed.

(** ** Nodes below a node *)

Lemma below_child p k q : below (child p k) q -> below p q.
Proof.
  intros [k' [rest ->]]. exists k, (k' :: rest).
  unfold child. by rewrite <- app_assoc.
Qed.

Lemma child_below p k : below p (child p k).
Proof. by exists k, []. Qed.

Lemma child_not_below p j k : ~ below (child p j) (child p k).
Proof.
  intros [k' [rest H]]. unfold child in H.
  apply (f_equal length) in H. rewrite !length_app in H. simpl in H. lia.
Qed.

Lemma not_below_self p : ~ below p p.
Proof.
  intros [k [rest H]]. apply (f_equal length) in H.
  rewrite length_app in H. simpl in H. lia.
Qed.

Lemma clean_below_child p k m : clean_below p m -> clean_below (child p k) m.
Proof. intros H q Hq. apply H. by eapply below_child. Qed.

Lemma clean_below_insert_sibling p j k val m :
  clean_below (child p j) m ->
  clean_below (child p j) (<[child p k := val]> m).
Proof.
  intros H q Hq. rewrite lookup_insert_ne; [by apply H |].
  intros <-. by eapply child_not_below.
Qed.

Lemma agrees_outside_refl (keys : list NodeId) (m : gmap NodeId Value) :
  agrees_outside keys m m.
Proof. by intros q _. Qed.

Lemma agrees_outside_insert (keys : list NodeId) (m m' : gmap NodeId Value)
    (key : NodeId) (val : Value) :
  key ∈ keys ->
  agrees_outside keys m m' ->
  agrees_outside keys m (<[key := val]> m').
Proof.
  intros Hkey H q Hq. rewrite lookup_insert_ne; [by apply H |].
  by intros ->.
Qed.

Lemma agrees_outside_weaken (keys keys' : list NodeId)
    (m m' : gmap NodeId Value) :
  keys ⊆ keys' -> agrees_outside keys m m' -> agrees_outside keys' m m'.
Proof. intros Hsub H q Hq. apply H. intros Hin. by apply Hq, Hsub. Qed.

Lemma agrees_outside_trans (keys : list NodeId)
    (m1 m2 m3 : gmap NodeId Value) :
  agrees_outside keys m1 m2 -> agrees_outside keys m2 m3 ->
  agrees_outside keys m1 m3.
Proof. intros H12 H23 q Hq. rewrite H23, H12; done. Qed.

(** Clearing the slots that were filled gives the store back. *)
Lemma clear_restores (keys : list NodeId) (m m' : gmap NodeId Value) :
  agrees_outside keys m m' ->
  (forall q, q ∈ keys -> m !! q = None) ->
  clear keys m' = m.
Proof.
  intros Hagree Hclean. apply map_eq. intros q. rewrite lookup_clear.
  case_decide as Hq; [by rewrite Hclean | by apply Hagree].
Qed.

(** ** Induction on expression trees *)

Lemma Expression_nested_ind (P : Expression -> Prop) :
  (forall value, P (Expr.Identifier value)) ->
  (forall value type subdenomination,
     P (Expr.Literal value type subdenomination)) ->
  (forall type, P (Expr.ElementaryTypeNameExpression type)) ->
  (forall l r type return_type,
     P l -> P r -> P (Expr.AssignmentOperation l r type return_type)) ->
  (forall l r type, P l -> P r -> P (Expr.BinaryOperation l r type)) ->
  (forall nested type, P nested -> P (Expr.UnaryOperation nested type)) ->
  (forall called arguments type_call call_gas call_value call_salt,
     P called -> Forall (OptP P) arguments ->
     OptP P call_gas -> OptP P call_value -> OptP P call_salt ->
     P (Expr.CallExpression called arguments type_call call_gas call_value
          call_salt)) ->
  (forall i t e, P i -> P t -> P e -> P (Expr.ConditionalExpression i t e)) ->
  (forall l r type, P l -> P r -> P (Expr.IndexAccess l r type)) ->
  (forall nested member_name,
     P nested -> P (Expr.MemberAccess nested member_name)) ->
  (forall depth array_type, P (Expr.NewArray depth array_type)) ->
  (forall contract_name call_value call_salt,
     OptP P call_value -> OptP P call_salt ->
     P (Expr.NewContract contract_name call_value call_salt)) ->
  (forall type, P (Expr.NewElementaryType type)) ->
  (forall expressions is_inline_array,
     Forall (OptP P) expressions ->
     P (Expr.TupleExpression expressions is_inline_array)) ->
  (forall nested type, P nested -> P (Expr.TypeConversion nested type)) ->
  forall e, P e.
Proof.
  intros Hid Hlit Hty Hassign Hbin Hun Hcall Hcond Hindex Hmember Hnewarr
    Hnewc Hnewty Htuple Hconv.
  fix IH 1. intros e.
  assert (Hopt : forall o, OptP P o)
    by (intros [e' |]; [apply IH | exact I]).
  assert (Hall : forall l, Forall (OptP P) l).
  { clear Hopt. fix IHl 1. intros [| o l]; constructor.
    - destruct o as [e' |]; [apply IH | exact I].
    - apply IHl. }
  destruct e.
  - apply Hid.
  - apply Hlit.
  - apply Hty.
  - apply Hassign; apply IH.
  - apply Hbin; apply IH.
  - apply Hun; apply IH.
  - apply Hcall; [apply IH | apply Hall | apply Hopt ..].
  - apply Hcond; apply IH.
  - apply Hindex; apply IH.
  - apply Hmember; apply IH.
  - apply Hnewarr.
  - apply Hnewc; apply Hopt.
  - apply Hnewty.
  - apply Htuple; apply Hall.
  - apply Hconv; apply IH.
Qed.

(** ** The scratch store after a walk *)

Lemma present_keys_length p k i l :
  length (present_keys p k i l) = length (omap id l).
Proof.
  revert i. induction l as [| [e |] l IH]; intros i; simpl; [done | |];
    by rewrite IH.
Qed.

Lemma clean_under_of_below p m : clean_below p m -> clean_under p m.
Proof. intros H j. by apply clean_below_child. Qed.

Lemma clean_under_insert p k val m :
  clean_under p m -> clean_under p (<[child p k := val]> m).
Proof. intros H j. by apply clean_below_insert_sibling. Qed.

Lemma visit_child env e p k st st' :
  lowers_cleanly env e ->
  clean_under p (context st) ->
  _visit_expression env (child p k) e st = inr (tt, st') ->
  exists val,
    context st' = <[child p k := val]> (context st) /\
    clean_under p (context st').
Proof.
  intros He Hclean H. apply He in H as [val Hval]; [| apply Hclean].
  exists val. split; [done |]. rewrite Hval. by apply clean_under_insert.
Qed.

Lemma visit_option_agrees env p k o st st' :
  OptP (lowers_cleanly env) o ->
  clean_under p (context st) ->
  visit_option (_visit_expression env) p k o st = inr (tt, st') ->
  agrees_outside (option_key p k o) (context st) (context st') /\
  clean_under p (context st').
Proof.
  intros Ho Hclean H. destruct o as [e |]; simpl in *.
  - destruct (visit_child _ _ _ _ _ _ Ho Hclean H) as [val [-> Hclean']].
    split; [| done]. apply agrees_outside_insert; [by left |].
    apply agrees_outside_refl.
  - run_inv H. split; [apply agrees_outside_refl | done].
Qed.

Lemma visit_each_agrees env p k l :
  Forall (OptP (lowers_cleanly env)) l ->
  forall i st st',
    clean_under p (context st) ->
    visit_each (_visit_expression env) p k i l st = inr (tt, st') ->
    agrees_outside (present_keys p k i l) (context st) (context st') /\
    clean_under p (context st').
Proof.
  induction 1 as [| o l Ho _ IH]; intros i st st' Hclean H; simpl in H.
  - run_inv H. split; [apply agrees_outside_refl | done].
  - apply bind_inv in H as [[] [st1 [Ho' H]]].
    destruct (visit_option_agrees _ _ _ _ _ _ Ho Hclean Ho')
      as [Hagree1 Hclean1].
    destruct (IH _ _ _ Hclean1 H) as [Hagree2 Hclean2].
    split; [| done].
    apply (agrees_outside_trans _ _ (context st1)).
    + eapply agrees_outside_weaken; [| exact Hagree1].
      destruct o; simpl; [| apply list_subseteq_nil].
      intros q Hq. apply list_elem_of_singleton in Hq as ->. by left.
    + eapply agrees_outside_weaken; [| exact Hagree2].
      destruct o; simpl; [| done]. intros q Hq. by right.
Qed.

Lemma each_option_Forall (P : Expression -> Prop) l :
  (fix all (l : list (option Expression)) : Prop :=
     match l with
     | [] => True
     | Some e' :: l' => P e' /\ all l'
     | None :: l' => all l'
     end) l ->
  Forall (OptP P) l.
Proof.
  induction l as [| [e |] l IH]; intros H; constructor; simpl; tauto.
Qed.

Lemma Forall_OptP_modus (P Q : Expression -> Prop) l :
  Forall (OptP (fun e => P e -> Q e)) l ->
  Forall (OptP P) l -> Forall (OptP Q) l.
Proof.
  induction 1 as [| [e |] l Ho _ IH]; intros H; inversion_clear H;
    constructor; simpl in *; auto.
Qed.

Lemma present_keys_children p k i l q :
  q ∈ present_keys p k i l -> exists j, q = child p j.
Proof. intros H. apply elem_of_present_keys in H as [j [_ [_ ->]]]. eauto. Qed.

Lemma option_key_children p k o q :
  q ∈ option_key p k o -> exists j, q = child p j.
Proof.
  destruct o; simpl; intros H; [| by apply elem_of_nil in H].
  apply list_elem_of_singleton in H as ->. eauto.
Qed.

(** The rule of a node gives the store back once it has read the slots its
    children filled. *)
Lemma rule_restores (p : NodeId) (keys : list NodeId)
    (m0 m : gmap NodeId Value) (val : Value) :
  clean_below p m0 ->
  agrees_outside keys m0 m ->
  (forall q, q ∈ keys -> exists j, q = child p j) ->
  <[p := val]> (clear keys m) = <[p := val]> m0.
Proof.
  intros Hclean Hagree Hkeys. f_equal. apply clear_restores; [done |].
  intros q Hq. destruct (Hkeys q Hq) as [j ->]. apply Hclean, child_below.
Qed.

(** Run one child visit of a successful walk. *)
Ltac visit_child_step H IH val Hctx Hclean :=
  let st1 := fresh "st" in
  let Hchild := fresh "Hchild" in
  apply bind_inv in H as [[] [st1 [Hchild H]]];
  apply (visit_child _ _ _ _ _ _ IH Hclean) in Hchild
    as [val [Hctx Hclean']];
  clear Hclean; rename Hclean' into Hclean.

Ltac keys_subset :=
  let q := fresh "q" in
  let Hq := fresh "Hq" in
  intros q Hq; rewrite ?elem_of_app, ?elem_of_cons; tauto.

Ltac child_keys :=
  intros ? Hq;
  repeat (apply elem_of_cons in Hq as [-> | Hq]; [eauto |]);
  by apply elem_of_nil in Hq.

Lemma walk_lowers_cleanly env :
  generates_certik_ir env = false ->
  forall e, options_reach_placeholder env e -> lowers_cleanly env e.
Proof.
  intros Hmode e.
  induction e as
    [ value | value type subdenomination | type
    | l r type return_type IHl IHr | l r type IHl IHr | nested type IHn
    | called arguments type_call call_gas call_value call_salt
        IHcalled IHargs IHgas IHvalue IHsalt
    | i t e' IHi IHt IHe | l r type IHl IHr | nested member_name IHn
    | depth array_type | contract_name call_value call_salt IHvalue IHsalt
    | type | expressions is_inline_array IHelems | nested type IHn ]
    using Expression_nested_ind; intros Hreach p st st' Hbelow H;
    pose proof (clean_under_of_below _ _ Hbelow) as Hclean;
    cbn [_visit_expression] in H; cbn [options_reach_placeholder] in Hreach.
  - by apply leaf_rules_store in H.
  - by apply leaf_rules_store in H.
  - by apply leaf_rules_store in H.
  - destruct Hreach as [Hl Hr].
    visit_child_step H (IHl Hl) v1 Hctx1 Hclean.
    visit_child_step H (IHr Hr) v2 Hctx2 Hclean.
    apply assignment_rule_store in H as [val ->]. exists val.
    apply rule_restores; [done | | child_keys].
    rewrite Hctx2, Hctx1.
    repeat (apply agrees_outside_insert;
            [rewrite ?elem_of_cons; tauto |]).
    apply agrees_outside_refl.
  - destruct Hreach as [Hl Hr].
    visit_child_step H (IHl Hl) v1 Hctx1 Hclean.
    visit_child_step H (IHr Hr) v2 Hctx2 Hclean.
    apply binary_rule_store in H as [val ->]; [| done]. exists val.
    apply rule_restores; [done | | child_keys].
    rewrite Hctx2, Hctx1.
    repeat (apply agrees_outside_insert;
            [rewrite ?elem_of_cons; tauto |]).
    apply agrees_outside_refl.
  - visit_child_step H (IHn Hreach) v1 Hctx1 Hclean.
    apply unary_rule_store in H as [val ->]; [| done]. exists val.
    apply rule_restores; [done | | child_keys].
    rewrite Hctx1.
    repeat (apply agrees_outside_insert;
            [rewrite ?elem_of_cons; tauto |]).
    apply agrees_outside_refl.
  - (* call *)
    destruct Hreach as [Hcalled [Hargs [Hgas [Hvalue [Hsalt Hoptions]]]]].
    apply each_option_Forall in Hargs.
    pose proof (Forall_OptP_modus _ _ _ IHargs Hargs) as Hargs'.
    apply bind_inv in H as [[] [st1 [Hrun1 H]]].
    pose proof Hrun1 as Hrun.
    apply (visit_child _ _ _ _ _ _ (IHcalled Hcalled) Hclean) in Hrun1
      as [called_val [Hctx1 Hclean1]].
    apply bind_inv in H as [[] [st2 [Hrun2 H]]].
    apply (visit_each_agrees _ _ _ _ Hargs' _ _ _ Hclean1) in Hrun2
      as [Hagree2 Hclean2].
    apply bind_inv in H as [[] [st3 [Hrun3 H]]].
    apply visit_option_agrees in Hrun3 as [Hagree3 Hclean3];
      [| destruct call_value; simpl in *; auto | done].
    apply bind_inv in H as [[] [st4 [Hrun4 H]]].
    apply visit_option_agrees in Hrun4 as [Hagree4 Hclean4];
      [| destruct call_gas; simpl in *; auto | done].
    apply bind_inv in H as [[] [st5 [Hrun5 H]]].
    apply visit_option_agrees in Hrun5 as [Hagree5 Hclean5];
      [| destruct call_salt; simpl in *; auto | done].
    set (keys := [child p k_called] ++
                 present_keys p k_argument 0 arguments ++
                 option_key p k_call_gas call_gas ++
                 option_key p k_call_value call_value ++
                 option_key p k_call_salt call_salt).
    assert (Hagree : agrees_outside keys (context st) (context st5)).
    { apply (agrees_outside_trans _ _ (context st4));
        [| eapply agrees_outside_weaken; [| exact Hagree5];
           unfold keys; keys_subset].
      apply (agrees_outside_trans _ _ (context st3));
        [| eapply agrees_outside_weaken; [| exact Hagree4];
           unfold keys; keys_subset].
      apply (agrees_outside_trans _ _ (context st2));
        [| eapply agrees_outside_weaken; [| exact Hagree3];
           unfold keys; keys_subset].
      apply (agrees_outside_trans _ _ (context st1));
        [| eapply agrees_outside_weaken; [| exact Hagree2];
           unfold keys; keys_subset].
      rewrite Hctx1.
      apply agrees_outside_insert; [unfold keys; by left |].
      apply agrees_outside_refl. }
    assert (Hslot : context st5 !! child p k_called = Some called_val).
    { assert (Hother : forall keys' : list NodeId,
                (forall q, q ∈ keys' -> exists j, q = child p j /\ j <> k_called) ->
                child p k_called ∉ keys').
      { intros keys' Hkeys' Hin. apply Hkeys' in Hin as [j [Hj Hne]].
        by apply child_inj in Hj. }
      rewrite Hagree5, Hagree4, Hagree3, Hagree2, Hctx1.
      - apply lookup_insert_eq.
      - apply Hother. intros q Hq.
        apply elem_of_present_keys in Hq as [j [_ [_ ->]]].
        eexists. split; [reflexivity | discriminate].
      - apply Hother. intros q Hq. destruct call_value; simpl in Hq;
          [| by apply elem_of_nil in Hq].
        apply list_elem_of_singleton in Hq as ->.
        eexists. split; [reflexivity | discriminate].
      - apply Hother. intros q Hq. destruct call_gas; simpl in Hq;
          [| by apply elem_of_nil in Hq].
        apply list_elem_of_singleton in Hq as ->.
        eexists. split; [reflexivity | discriminate].
      - apply Hother. intros q Hq. destruct call_salt; simpl in Hq;
          [| by apply elem_of_nil in Hq].
        apply list_elem_of_singleton in Hq as ->.
        eexists. split; [reflexivity | discriminate]. }
    apply (call_rule_store _ _ _ _ _ _ _ called_val) in H as [val ->];
      [| done |].
    + exists val. apply rule_restores; [done | done |].
      intros q Hq. unfold keys in Hq.
      repeat (apply elem_of_app in Hq as [Hq | Hq]);
        eauto using present_keys_children, option_key_children.
      apply list_elem_of_singleton in Hq as ->. eauto.
    + destruct Hoptions as [Hnone | Hunresolved]; [by left | right].
      rewrite present_keys_length.
      apply (Hunresolved (child p k_called) st st1); [done |].
      rewrite Hctx1. apply lookup_insert_eq.
  - (* conditional: the rule raises *)
    destruct Hreach as [Hi [Ht He]].
    visit_child_step H (IHi Hi) v1 Hctx1 Hclean.
    visit_child_step H (IHe He) v2 Hctx2 Hclean.
    visit_child_step H (IHt Ht) v3 Hctx3 Hclean.
    discriminate H.
  - destruct Hreach as [Hl Hr].
    visit_child_step H (IHl Hl) v1 Hctx1 Hclean.
    visit_child_step H (IHr Hr) v2 Hctx2 Hclean.
    apply index_rule_store in H as [val ->]. exists val.
    apply rule_restores; [done | | child_keys].
    rewrite Hctx2, Hctx1.
    repeat (apply agrees_outside_insert;
            [rewrite ?elem_of_cons; tauto |]).
    apply agrees_outside_refl.
  - visit_child_step H (IHn Hreach) v1 Hctx1 Hclean.
    apply member_rule_store in H as [val ->]. exists val.
    apply rule_restores; [done | | child_keys].
    rewrite Hctx1.
    repeat (apply agrees_outside_insert;
            [rewrite ?elem_of_cons; tauto |]).
    apply agrees_outside_refl.
  - by apply leaf_rules_store in H.
  - (* new contract *)
    destruct Hreach as [Hvalue Hsalt].
    apply bind_inv in H as [[] [st1 [Hrun1 H]]].
    apply visit_option_agrees in Hrun1 as [Hagree1 Hclean1];
      [| destruct call_value; simpl in *; auto | done].
    apply bind_inv in H as [[] [st2 [Hrun2 H]]].
    apply visit_option_agrees in Hrun2 as [Hagree2 Hclean2];
      [| destruct call_salt; simpl in *; auto | done].
    apply new_contract_rule_store in H as [val ->]. exists val.
    apply rule_restores; [done | |].
    + apply (agrees_outside_trans _ _ (context st1));
        [eapply agrees_outside_weaken; [| exact Hagree1]
        |eapply agrees_outside_weaken; [| exact Hagree2]]; keys_subset.
    + intros q Hq. apply elem_of_app in Hq as [Hq | Hq];
        eauto using option_key_children.
  - by apply leaf_rules_store in H.
  - (* tuple *)
    apply each_option_Forall in Hreach.
    pose proof (Forall_OptP_modus _ _ _ IHelems Hreach) as Helems.
    apply bind_inv in H as [[] [st1 [Hrun1 H]]].
    apply (visit_each_agrees _ _ _ _ Helems _ _ _ Hclean) in Hrun1
      as [Hagree1 Hclean1].
    apply tuple_rule_store in H as [val ->]. exists val.
    apply rule_restores; [done | done |].
    intros q Hq. by eapply present_keys_children.
  - visit_child_step H (IHn Hreach) v1 Hctx1 Hclean.
    apply type_conversion_rule_store in H as [val ->]. exists val.
    apply rule_restores; [done | | child_keys].
    rewrite Hctx1.
    repeat (apply agrees_outside_insert;
            [rewrite ?elem_of_cons; tauto |]).
    apply agrees_outside_refl.
Qed.

(** The callee [dst.call] lowers to a fresh Reference, which the call rule
    does not resolve. *)
Lemma member_call_unresolved env nargs :
  forall p st st' val,
    _visit_expression env p
      (Expr.MemberAccess (Expr.Identifier Sample.dst) "call") st =
      inr (tt, st') ->
    context st' !! p = Some val ->
    unresolved (Expr.MemberAccess (Expr.Identifier Sample.dst) "call") val
      nargs.
Proof.
  intros p st st' val H Hval. cbn [_visit_expression] in H.
  apply bind_inv in H as [[] [st1 [Hid H]]].
  unfold _post_identifier in Hid. run_inv Hid.
  assert (Hrule :
    _post_member_access env p (Expr.Identifier Sample.dst) "call"
      (mkState (_result st)
         (<[child p k_expression := Sample.dst]> (context st))
         (counter_temporary st) (counter_reference st) (counter_tuple st)) =
    inr (tt, mkState
               (_result st ++
                  [set_expression
                     (IR.Member Sample.dst (Constant "call" VNone None)
                        (ReferenceVariable (counter_reference st))) p])
               (<[p := ReferenceVariable (counter_reference st)]>
                  (delete (child p k_expression)
                     (<[child p k_expression := Sample.dst]> (context st))))
               (counter_temporary st) (S (counter_reference st))
               (counter_tuple st))).
  { unfold _post_member_access. unfold bind at 1.
    erewrite get_present_slot by (cbn [context]; apply lookup_insert_eq).
    reflexivity. }
  rewrite Hrule in H. injection H as <-.
  cbn [context] in Hval. rewrite lookup_insert_eq in Hval.
  injection Hval as <-.
  split; [discriminate |]. split; [left; discriminate |].
  eexists. split; [reflexivity |]. simpl. intuition discriminate.
Qed.

(** C6, as the code has it: reading a slot clears it, so a second read of
    the same slot fails; reading a cleared or never-written slot raises
    [KeyError] rather than returning a default; and when a statement is
    lowered with extended-IR mode off, from a store with no entries, and
    every call carrying a gas, value or salt option lowers to a placeholder,
    then on return the store holds no entry at a return point, and exactly
    the entry of the statement's root otherwise. *)
Theorem scratch_store_discipline env expression st st' :
  generates_certik_ir env = false ->
  options_reach_placeholder env expression ->
  context st = ∅ ->
  ExpressionToSlithIR env expression st = inr (tt, st') ->
  (forall s key val s',
     get key s = inr (val, s') ->
     context s !! key = Some val /\
     context s' = delete key (context s) /\
     get key s' = inl KeyError) /\
  (forall s key, context s !! key = None -> get key s = inl KeyError) /\
  (if node_is_RETURN env then context st' = ∅
   else exists val, context st' = {[ [] := val ]}).
Proof.
  intros Hmode Hreach Hempty H. split; [| split].
  - intros s key val s' Hget. apply get_inv in Hget as [Hslot ->].
    split; [done |]. split; [done |].
    apply get_absent_slot. apply lookup_delete_eq.
  - intros s key. apply get_absent_slot.
  - unfold ExpressionToSlithIR in H.
    apply bind_inv in H as [[] [st1 [Hwalk H]]].
    apply (walk_lowers_cleanly env Hmode expression Hreach) in Hwalk
      as [val Hval].
    2: { cbn [context]. rewrite Hempty. intros q _. apply lookup_empty. }
    cbn [context] in Hval. rewrite Hempty in Hval.
    destruct (node_is_RETURN env).
    + run_inv H. cbn [context]. rewrite Hval, delete_insert_eq.
      apply delete_empty.
    + run_inv H. by exists val.
Qed.

Lemma scratch_store_discipline_witness :
  exists st',
    ExpressionToSlithIR Sample.env_return Sample.call_value_option_syntax
      initial = inr (tt, st') /\
    context st' = ∅.
Proof.
  eexists. split; [vm_compute; reflexivity |].
  refine (proj2 (proj2
            (scratch_store_discipline Sample.env_return
               Sample.call_value_option_syntax initial _ eq_refl _ eq_refl
               _))).
  - simpl. repeat split; try exact I. right. apply member_call_unresolved.
  - vm_compute. reflexivity.
Defined.

(** C6 as stated fails: after [a = b] is lowered at a node that is not a
    return point, the slot of the statement's root still holds its value;
    and after the folded [6 / 3] is lowered at a return point in
    extended-IR mode, the slots of both operands are still filled. *)
Lemma root_slot_survives_lowering :
  (exists st',
     ExpressionToSlithIR Sample.env Sample.a_assign_b initial =
       inr (tt, st') /\
     context st' !! [] = Some Sample.a) /\
  (exists st',
     ExpressionToSlithIR Sample.env_folding_return Sample.six_by_three
       initial = inr (tt, st') /\
     context st' !! child [] k_left = Some (Constant "6" int256 None) /\
     context st' !! child [] k_right = Some (Constant "3" int256 None)).
Proof.
  split; eexists; (split; [vm_compute; reflexivity |]);
    repeat split; vm_compute; reflexivity.
Qed.

(** * Further properties of the lowering *)


(** ** The scratch store *)

(** X1: a value written to a slot is what the next read returns, also when
    the slot already held another value; the read removes the entry, while
    [get_without_removing] returns the same value and keeps the entry. *)
Theorem scratch_write_read_round_trip key old val st :
  (set_val key old ;;; set_val key val ;;; get key) st =
    inr (val, mkState (_result st) (delete key (context st))
                (counter_temporary st) (counter_reference st)
                (counter_tuple st)) /\
  (set_val key old ;;; set_val key val ;;; get_without_removing key) st =
    inr (val, mkState (_result st) (<[key := val]> (context st))
                (counter_temporary st) (counter_reference st)
                (counter_tuple st)) /\
  (set_val key val ;;; get_without_removing key ;;; get key) st =
    inr (val, mkState (_result st) (delete key (context st))
                (counter_temporary st) (counter_reference st)
                (counter_tuple st)).
Proof.
  unfold bind, set_val, get, get_without_removing. cbn [context _result
    counter_temporary counter_reference counter_tuple].
  rewrite !lookup_insert_eq. cbn [context _result counter_temporary
    counter_reference counter_tuple].
  rewrite !lookup_insert_eq, !insert_insert_eq, !delete_insert_eq.
  repeat split; reflexivity.
Qed.

(** ** Binary operations *)

(** X2: every operator outside the signed table has an opcode, so a binary
    operation that is not folded and whose operand slots are filled always
    lowers, to exactly one binary instruction into a fresh Temporary. *)
Theorem unsigned_operator_single_instruction env p e t l r st :
  generates_certik_ir env = false \/ ConstantFolding env e = None ->
  _signed_to_unsigned t = None ->
  context st !! child p k_left = Some l ->
  context st !! child p k_right = Some r ->
  exists op,
    _binary_to_binary t = Some op /\
    _post_binary_operation env p e t st =
      inr (tt, mkState
                 (_result st ++
                    [set_expression
                       (IR.Binary (Temporary (counter_temporary st)) l r op)
                       p])
                 (<[p := Temporary (counter_temporary st)]>
                    (delete (child p k_right)
                       (delete (child p k_left) (context st))))
                 (S (counter_temporary st)) (counter_reference st)
                 (counter_tuple st)).
Proof.
  intros Hfold Hsigned Hl Hr.
  assert (Hop : exists op, _binary_to_binary t = Some op)
    by (destruct t; try discriminate Hsigned; eexists; reflexivity).
  destruct Hop as [op Hop]. exists op. split; [done |].
  destruct st as [res ctx ct cr cu]. simpl in *.
  unfold _post_binary_operation.
  rewrite (folding_guard_skipped _ _ _ _ Hfold).
  unfold bind, ret, get, fresh_temporary, append, set_val, lookup_table.
  simpl. rewrite Hl. simpl.
  rewrite lookup_delete_ne by (apply child_ne; discriminate).
  rewrite Hr. simpl. rewrite Hsigned, Hop. reflexivity.
Qed.

Lemma unsigned_operator_single_instruction_witness :
  exists op,
    _binary_to_binary BinaryOperationType.ADDITION = Some op /\
    _post_binary_operation Sample.env []
      (Expr.BinaryOperation (Expr.Identifier Sample.x)
         (Expr.Identifier Sample.y) BinaryOperationType.ADDITION)
      BinaryOperationType.ADDITION Sample.operands_x_y =
      inr (tt, mkState
                 [set_expression
                    (IR.Binary (Temporary 0) Sample.x Sample.y op) []]
                 (<[[] := Temporary 0]>
                    (delete (child [] k_right)
                       (delete (child [] k_left)
                          (context Sample.operands_x_y))))
                 1 0 0).
Proof.
  apply (unsigned_operator_single_instruction Sample.env [] _
           BinaryOperationType.ADDITION Sample.x Sample.y
           Sample.operands_x_y).
  - left; reflexivity.
  - reflexivity.
  - reflexivity.
  - reflexivity.
Defined.

(** X3: signed division and signed modulo lower like the signed
    comparisons: both operands are converted to [int256], the unsigned
    [DIVISION] or [MODULO] is applied, and the result is converted to
    [uint256]. *)
Theorem signed_division_modulo_four_instructions env p e t unsigned l r st :
  generates_certik_ir env = false \/ ConstantFolding env e = None ->
  (t = BinaryOperationType.DIVISION_SIGNED /\ unsigned = BinaryType.DIVISION) \/
  (t = BinaryOperationType.MODULO_SIGNED /\ unsigned = BinaryType.MODULO) ->
  context st !! child p k_left = Some l ->
  context st !! child p k_right = Some r ->
  let n := counter_temporary st in
  let new_left := TemporaryVariable (1 + n) int256 None in
  let new_right := TemporaryVariable (2 + n) int256 None in
  let new_final := Temporary (3 + n) in
  let val := TemporaryVariable n uint256 None in
  _post_binary_operation env p e t st =
    inr (tt, mkState
               (_result st ++
                  [set_expression (IR.TypeConversion new_left l int256) p;
                   set_expression (IR.TypeConversion new_right r int256) p;
                   set_expression
                     (IR.Binary new_final new_left new_right unsigned) p;
                   set_expression
                     (IR.TypeConversion val new_final uint256) p])
               (<[p := val]> (delete (child p k_right)
                                (delete (child p k_left) (context st))))
               (4 + n) (counter_reference st) (counter_tuple st)).
Proof.
  intros Hfold Hop Hl Hr n new_left new_right new_final val.
  assert (Hsigned : _signed_to_unsigned t = Some unsigned)
    by (destruct Hop as [[-> ->] | [-> ->]]; reflexivity).
  rewrite (signed_operator_lowering env p e t unsigned l r st Hfold Hsigned
             Hl Hr).
  destruct Hop as [[-> _] | [-> _]]; reflexivity.
Qed.

Lemma signed_division_modulo_four_instructions_witness :
  _post_binary_operation Sample.env []
    (Expr.BinaryOperation (Expr.Identifier Sample.x)
       (Expr.Identifier Sample.y) BinaryOperationType.DIVISION_SIGNED)
    BinaryOperationType.DIVISION_SIGNED Sample.operands_x_y =
  inr (tt, mkState
             [set_expression
                (IR.TypeConversion (TemporaryVariable 1 int256 None)
                   Sample.x int256) [];
              set_expression
                (IR.TypeConversion (TemporaryVariable 2 int256 None)
                   Sample.y int256) [];
              set_expression
                (IR.Binary (Temporary 3) (TemporaryVariable 1 int256 None)
                   (TemporaryVariable 2 int256 None) BinaryType.DIVISION) [];
              set_expression
                (IR.TypeConversion (TemporaryVariable 0 uint256 None)
                   (Temporary 3) uint256) []]
             (<[[] := TemporaryVariable 0 uint256 None]>
                (delete (child [] k_right)
                   (delete (child [] k_left) (context Sample.operands_x_y))))
             4 0 0).
Proof.
  apply (signed_division_modulo_four_instructions Sample.env [] _
           BinaryOperationType.DIVISION_SIGNED BinaryType.DIVISION
           Sample.x Sample.y Sample.operands_x_y).
  - left; reflexivity.
  - left; split; reflexivity.
  - reflexivity.
  - reflexivity.
Defined.

(** X4: a rule that reads its first child fails with [KeyError] when that
    child's slot is empty; it does not lower with a default operand.  The
    binary and unary rules read no slot when the fold succeeds, so for them
    the fold is assumed not to apply. *)
Theorem rules_fail_on_missing_operand env p st :
  context st !! child p 0 = None ->
  (forall type return_type,
     _post_assignement_operation p type return_type st = inl KeyError) /\
  (forall e t,
     generates_certik_ir env = false \/ ConstantFolding env e = None ->
     _post_binary_operation env p e t st = inl KeyError) /\
  (forall e t,
     generates_certik_ir env = false \/ ConstantFolding env e = None ->
     _post_unary_operation env p e t st = inl KeyError) /\
  (forall type, _post_index_access p type st = inl KeyError) /\
  (forall nested member_name,
     _post_member_access env p nested member_name st = inl KeyError) /\
  (forall type, _post_type_conversion p type st = inl KeyError) /\
  (forall called arguments type_call call_gas call_value call_salt,
     _post_call_expression p called arguments type_call call_gas call_value
       call_salt st = inl KeyError).
Proof.
  intros Hslot.
  assert (Hget : forall A (k : Value -> M A),
            (v <- get (child p 0) ;; k v) st = inl KeyError)
    by (intros A k; unfold bind; by rewrite (get_absent_slot _ _ Hslot)).
  repeat split; intros.
  - apply Hget.
  - unfold _post_binary_operation.
    rewrite folding_guard_skipped by done. apply Hget.
  - unfold _post_unary_operation.
    rewrite folding_guard_skipped by done. apply Hget.
  - apply Hget.
  - apply Hget.
  - apply Hget.
  - apply Hget.
Qed.

Lemma rules_fail_on_missing_operand_witness :
  _post_type_conversion [] uint256 initial = inl KeyError.
Proof.
  exact (proj1 (proj2 (proj2 (proj2 (proj2 (proj2
           (rules_fail_on_missing_operand Sample.env [] initial eq_refl))))))
           uint256).
Defined.

(** ** Assignments *)

Lemma pairwise_loop_emits_exactly p type expression_return_type targets
    sources :
  length targets = length sources ->
  emits
    (for_enumerate
       (fun idx left_idx =>
          if negb (is_None left_idx) then
            right_idx <- index sources idx ;;
            append (set_expression
                      (convert_assignment left_idx right_idx type
                         expression_return_type) p)
          else ret tt)
       0 targets)
    (pairwise_assignments p type expression_return_type targets sources).
Proof.
  intros Hlen. unfold pairwise_assignments.
  apply (for_enumerate_emits _
           (fun i target =>
              if is_None target then []
              else match sources !! i with
                   | Some source =>
                       [set_expression
                          (convert_assignment target source type
                             expression_return_type) p]
                   | None => []
                   end) targets 0).
  intros i target Htarget. simpl.
  destruct (is_None target); simpl; [apply emits_ret |].
  destruct (lookup_lt_is_Some_2 sources i) as [source Hsource].
  { rewrite <- Hlen. eapply lookup_lt_Some; eassumption. }
  rewrite Hsource. intros st. unfold bind, index, ret. rewrite Hsource.
  reflexivity.
Qed.

Lemma In_pairwise_assignments p type expression_return_type targets sources
    op :
  length targets = length sources ->
  In op (pairwise_assignments p type expression_return_type targets sources)
  <->
  exists position target source,
    targets !! position = Some target /\ target <> VNone /\
    sources !! position = Some source /\
    op = set_expression
           (convert_assignment target source type expression_return_type) p.
Proof.
  intros Hlen. unfold pairwise_assignments.
  rewrite <- list_elem_of_In, list_elem_of_join. split.
  - intros [ops [Hop Hops]].
    apply elem_of_lookup_imap in Hops as [i [x [-> Hx]]].
    destruct (lookup_lt_is_Some_2 sources i) as [source Hsource].
    { rewrite <- Hlen. eapply lookup_lt_Some; eassumption. }
    rewrite Hsource in Hop.
    destruct x; simpl in Hop;
      try (apply list_elem_of_singleton in Hop; subst;
           eexists _, _, _; split; [eassumption |];
           split; [discriminate |]; split; [eassumption | reflexivity]).
    by apply elem_of_nil in Hop.
  - intros [i [x [source [Hx [Hne [Hsource ->]]]]]].
    exists [set_expression
              (convert_assignment x source type expression_return_type) p].
    split; [by apply list_elem_of_singleton |].
    apply elem_of_lookup_imap. exists i, x. split; [| assumption].
    rewrite Hsource. destruct x; simpl; try reflexivity. congruence.
Qed.

(** X5: a list of targets assigned from a list of sources of the same
    length lowers element-wise: for each target that is not discarded, in
    order, one assignment (or in-place binary instruction, by the operator)
    from the source at the same position; the source of a discarded target
    is dropped. *)
Theorem list_to_list_assignment_is_elementwise p type expression_return_type
    targets sources st :
  context st !! child p k_left = Some (VList targets) ->
  context st !! child p k_right = Some (VList sources) ->
  length targets = length sources ->
  let ops :=
    pairwise_assignments p type expression_return_type targets sources in
  _post_assignement_operation p type expression_return_type st =
    inr (tt, mkState (_result st ++ ops)
               (<[p := VNone]>
                  (delete (child p k_right)
                     (delete (child p k_left) (context st))))
               (counter_temporary st) (counter_reference st)
               (counter_tuple st)) /\
  (forall op,
     In op ops <->
     exists position target source,
       targets !! position = Some target /\ target <> VNone /\
       sources !! position = Some source /\
       op = set_expression
              (convert_assignment target source type expression_return_type)
              p) /\
  length ops = length (List.filter (fun t => negb (is_None t)) targets).
Proof.
  intros Hl Hr Hlen ops. subst ops. split; [| split].
  - destruct st as [res ctx ct cr cu]. simpl in *.
    unfold _post_assignement_operation.
    unfold bind at 1. unfold get at 1. simpl. rewrite Hl.
    unfold bind at 1. unfold get at 1. simpl.
    rewrite lookup_delete_ne by (apply child_ne; discriminate).
    rewrite Hr. simpl.
    unfold bind at 1. unfold assert. rewrite Hlen, Nat.eqb_refl.
    unfold ret at 1. unfold bind at 1.
    rewrite (pairwise_loop_emits_exactly p type expression_return_type
               targets sources Hlen).
    reflexivity.
  - intros op. by apply In_pairwise_assignments.
  - unfold pairwise_assignments. clear Hl Hr. revert sources Hlen.
    induction targets as [| target targets IH]; intros sources Hlen;
      [reflexivity |].
    destruct sources as [| source sources]; [discriminate Hlen |].
    injection Hlen as Hlen.
    assert (Hcons : forall (x : list Operation) l, mjoin (x :: l) = x ++ mjoin l)
      by reflexivity.
    rewrite imap_cons, Hcons, length_app. cbn [List.filter].
    rewrite (imap_ext _
               (fun position target =>
                  if is_None target then []
                  else match sources !! position with
                       | Some source =>
                           [set_expression
                              (convert_assignment target source type
                                 expression_return_type) p]
                       | None => []
                       end)) by done.
    rewrite (IH sources Hlen).
    destruct target; reflexivity.
Qed.

Lemma list_to_list_assignment_is_elementwise_witness :
  _post_assignement_operation [] AssignmentOperationType.ASSIGN VNone
    Inputs.after_two_lists =
  inr (tt, mkState
             [set_expression (IR.Assignment Sample.a Sample.x VNone) [];
              set_expression (IR.Assignment Sample.c Sample.b VNone) []]
             (<[[] := VNone]>
                (delete (child [] k_right)
                   (delete (child [] k_left)
                      (context Inputs.after_two_lists))))
             0 0 0).
Proof.
  exact (proj1 (list_to_list_assignment_is_elementwise []
                  AssignmentOperationType.ASSIGN VNone
                  [Sample.a; VNone; Sample.c]
                  [Sample.x; Sample.y; Sample.b] Inputs.after_two_lists
                  eq_refl eq_refl eq_refl)).
Defined.

(** X6: a list of targets can only be assigned from a list of the same
    length or from one tuple value: a source list of another length, and a
    source that is neither a list nor a tuple value, fail the rule's
    assertion, and nothing is lowered. *)
Theorem destructuring_assignment_asserts_shape p type expression_return_type
    targets right st :
  context st !! child p k_left = Some (VList targets) ->
  context st !! child p k_right = Some right ->
  (exists sources,
     right = VList sources /\ length targets <> length sources) \/
  (is_list right = false /\ forall k, right <> TupleVariable k) ->
  _post_assignement_operation p type expression_return_type st =
    inl AssertionError.
Proof.
  intros Hl Hr Hshape. destruct st as [res ctx ct cr cu]. simpl in *.
  unfold _post_assignement_operation.
  unfold bind at 1. unfold get at 1. simpl. rewrite Hl.
  unfold bind at 1. unfold get at 1. simpl.
  rewrite lookup_delete_ne by (apply child_ne; discriminate).
  rewrite Hr. simpl.
  destruct Hshape as [[sources [-> Hlen]] | [Hlist Htuple]].
  - apply Nat.eqb_neq in Hlen. unfold bind, assert. by rewrite Hlen.
  - destruct right; try discriminate Hlist; try reflexivity.
    by eelim Htuple.
Qed.

Lemma destructuring_assignment_asserts_shape_witness :
  _post_assignement_operation [] AssignmentOperationType.ASSIGN VNone
    Inputs.after_short_list = inl AssertionError.
Proof.
  apply (destructuring_assignment_asserts_shape []
           AssignmentOperationType.ASSIGN VNone [Sample.a; VNone; Sample.c]
           (VList [Sample.x; Sample.y]) Inputs.after_short_list).
  - reflexivity.
  - reflexivity.
  - left. exists [Sample.x; Sample.y]. split; [reflexivity | discriminate].
Defined.

(** X7: an assignment to a single target that is not a destructuring emits
    one instruction and records the target: an array initialisation when the
    right side is a list, whatever the operator; otherwise a plain
    assignment for [=], and for every compound operator a binary instruction
    whose destination and first operand are both the target. *)
Theorem single_target_assignment p type expression_return_type left right st :
  context st !! child p k_left = Some left ->
  context st !! child p k_right = Some right ->
  is_list left = false ->
  (forall name ty tuple_index,
     left <> LocalVariableInitFromTuple name ty (Some tuple_index)) \/
  (forall k, right <> TupleVariable k) ->
  _post_assignement_operation p type expression_return_type st =
    inr (tt, mkState
               (_result st ++
                  [set_expression
                     (if is_list right then IR.InitArray right left
                      else convert_assignment left right type
                             expression_return_type) p])
               (<[p := left]>
                  (delete (child p k_right)
                     (delete (child p k_left) (context st))))
               (counter_temporary st) (counter_reference st)
               (counter_tuple st)) /\
  (type = AssignmentOperationType.ASSIGN ->
   convert_assignment left right type expression_return_type =
     IR.Assignment left right expression_return_type) /\
  (type <> AssignmentOperationType.ASSIGN ->
   exists op,
     convert_assignment left right type expression_return_type =
       IR.Binary left left right op).
Proof.
  intros Hl Hr Hlist Hform. split; [| split].
  - destruct st as [res ctx ct cr cu]. simpl in *.
    unfold _post_assignement_operation.
    unfold bind at 1. unfold get at 1. simpl. rewrite Hl.
    unfold bind at 1. unfold get at 1. simpl.
    rewrite lookup_delete_ne by (apply child_ne; discriminate).
    rewrite Hr. simpl.
    destruct left; try discriminate Hlist;
      try (destruct (is_list right); reflexivity).
    destruct tuple_index as [tuple_index |];
      [| destruct right; reflexivity].
    destruct Hform as [Hform | Hform]; [by eelim Hform |].
    destruct right; try reflexivity. by eelim Hform.
  - intros ->. reflexivity.
  - intros Htype. destruct type; try (eexists; reflexivity). congruence.
Qed.

Lemma single_target_assignment_witness :
  _post_assignement_operation []
    AssignmentOperationType.ASSIGN_ADDITION uint256 Inputs.operands_a_b =
  inr (tt, mkState
             [set_expression
                (IR.Binary Sample.a Sample.a Sample.b BinaryType.ADDITION) []]
             (<[[] := Sample.a]>
                (delete (child [] k_right)
                   (delete (child [] k_left) (context Inputs.operands_a_b))))
             0 0 0).
Proof.
  refine (proj1 (single_target_assignment []
                   AssignmentOperationType.ASSIGN_ADDITION uint256
                   Sample.a Sample.b Inputs.operands_a_b
                   eq_refl eq_refl eq_refl _)).
  left. discriminate.
Defined.

(** ** Index access *)



(** ** Member access *)

Lemma builtin_member_is_not_a_bound nested member_name :
  In member_name ["balance"; "code"; "codehash"] ->
  type_call_arguments nested member_name = None.
Proof.
  intros Hmember.
  assert (Hnot : in_strings member_name ["min"; "max"] = false)
    by (simpl in Hmember;
        destruct Hmember as [<- | [<- | [<- | []]]]; reflexivity).
  unfold type_call_arguments.
  repeat (case_match; try reflexivity); congruence.
Qed.

(** X9: the members [balance], [code] and [codehash] of an address-typed
    variable lower to one call of the built-in [balance(address)],
    [code(address)] or [codehash(address)] with the variable as its single
    argument, into a fresh Temporary. *)
Theorem address_member_is_builtin_call env p nested member_name expr st :
  In member_name ["balance"; "code"; "codehash"] ->
  context st !! child p k_expression = Some expr ->
  is_Variable expr = true ->
  type_attr env expr = inr (ElementaryType "address") ->
  let name := (member_name ++ "(address)")%string in
  let val := Temporary (counter_temporary st) in
  _post_member_access env p nested member_name st =
    inr (tt, mkState
               (_result st ++
                  [set_expression
                     (IR.SolidityCall (set_arguments (Call__init__ None) [expr])
                        (SolidityFunction name) 1 val
                        (SOLIDITY_FUNCTIONS env name)) p])
               (<[p := val]> (delete (child p k_expression) (context st)))
               (S (counter_temporary st)) (counter_reference st)
               (counter_tuple st)).
Proof.
  intros Hmember Hslot Hvariable Htype name val. subst name val.
  assert (Hbuiltin :
    in_strings member_name ["balance"; "code"; "codehash"] = true)
    by (simpl in Hmember;
        destruct Hmember as [<- | [<- | [<- | []]]]; reflexivity).
  unfold _post_member_access.
  rewrite (builtin_member_is_not_a_bound nested member_name Hmember).
  unfold bind at 1. rewrite (get_present_slot _ _ _ Hslot).
  rewrite Hvariable, Htype, Hbuiltin. reflexivity.
Qed.

Lemma address_member_is_builtin_call_witness :
  _post_member_access Sample.env [] (Expr.Identifier Sample.dst) "balance"
    Inputs2.operand_dst =
  inr (tt, mkState
             [set_expression
                (IR.SolidityCall
                   (set_arguments (Call__init__ None) [Sample.dst])
                   (SolidityFunction "balance(address)") 1 (Temporary 0)
                   VNone) []]
             (<[[] := Temporary 0]>
                (delete (child [] k_expression)
                   (context Inputs2.operand_dst)))
             1 0 0).
Proof.
  apply (address_member_is_builtin_call Sample.env []
           (Expr.Identifier Sample.dst) "balance" Sample.dst
           Inputs2.operand_dst).
  - left; reflexivity.
  - reflexivity.
  - reflexivity.
  - reflexivity.
Defined.

Lemma type_attr_of_variable env expr :
  is_Variable expr = true -> exists t, type_attr env expr = inr t.
Proof. destruct expr; try discriminate; intros _; eexists; reflexivity. Qed.

(** X10: a member access that is neither [type(X).min]/[.max] nor a
    built-in member of an address resolves without an instruction in two
    cases: [wrap]/[unwrap] on a type alias passes the alias through, and a
    member of a contract that names one of its user-defined types, or else
    one of its custom errors, is that type or error.  Every other access
    emits one member instruction into a fresh Reference. *)
Theorem member_access_resolution env p nested member_name expr st :
  type_call_arguments nested member_name = None ->
  context st !! child p k_expression = Some expr ->
  let store := delete (child p k_expression) (context st) in
  let passes val :=
    inr (tt, mkState (_result st) (<[p := val]> store)
               (counter_temporary st) (counter_reference st)
               (counter_tuple st)) in
  let default :=
    inr (tt, mkState
               (_result st ++
                  [set_expression
                     (IR.Member expr (Constant member_name VNone None)
                        (ReferenceVariable (counter_reference st))) p])
               (<[p := ReferenceVariable (counter_reference st)]> store)
               (counter_temporary st) (S (counter_reference st))
               (counter_tuple st)) in
  (forall n underlying,
     expr = TypeAlias n underlying ->
     _post_member_access env p nested member_name st =
       if in_strings member_name ["wrap"; "unwrap"] then passes expr
       else default) /\
  (forall n user_defined_types custom_errors,
     expr = Contract n user_defined_types custom_errors ->
     _post_member_access env p nested member_name st =
       match dict_get user_defined_types member_name with
       | Some t => passes t
       | None =>
           match dict_get custom_errors member_name with
           | Some e => passes e
           | None => default
           end
       end) /\
  (in_strings member_name ["balance"; "code"; "codehash"] = false ->
   (forall n underlying, expr <> TypeAlias n underlying) ->
   (forall n user_defined_types custom_errors,
      expr <> Contract n user_defined_types custom_errors) ->
   _post_member_access env p nested member_name st = default).
Proof.
  intros Hbound Hslot store passes default. subst store passes default.
  assert (Hread : forall k : Value -> M unit,
            (expr <- get (child p k_expression) ;; k expr) st =
            k expr
              (mkState (_result st)
                 (delete (child p k_expression) (context st))
                 (counter_temporary st) (counter_reference st)
                 (counter_tuple st)))
    by (intros k; unfold bind; by rewrite (get_present_slot _ _ _ Hslot)).
  unfold _post_member_access. rewrite Hbound, !Hread.
  split; [| split].
  - intros n underlying ->. cbn [is_Variable].
    destruct (in_strings member_name ["wrap"; "unwrap"]); reflexivity.
  - intros n user_defined_types custom_errors ->. cbn [is_Variable].
    destruct (dict_get user_defined_types member_name) eqn:Htypes;
      [reflexivity |].
    destruct (dict_get custom_errors member_name) eqn:Herrors;
      reflexivity.
  - intros Hbuiltin Halias Hcontract. rewrite Hbuiltin.
    destruct (is_Variable expr) eqn:Hvariable.
    + destruct (type_attr_of_variable env expr Hvariable) as [t Ht].
      rewrite Ht. unfold bind at 1. unfold bind at 1. cbn [lift].
      unfold ret at 1. unfold ret at 1. rewrite andb_false_r.
      destruct expr; try discriminate Hvariable; reflexivity.
    + destruct expr; try discriminate Hvariable; try reflexivity.
      * by eelim Halias.
      * by eelim Hcontract.
Qed.

Lemma member_access_resolution_witness :
  _post_member_access Sample.env [] (Expr.Identifier Inputs2.token) "Both"
    Inputs2.operand_token =
  inr (tt, mkState []
             (<[[] := TypeAlias "Both" uint256]>
                (delete (child [] k_expression)
                   (context Inputs2.operand_token)))
             0 0 0).
Proof.
  exact (proj1 (proj2 (member_access_resolution Sample.env []
                         (Expr.Identifier Inputs2.token) "Both"
                         Inputs2.token Inputs2.operand_token
                         eq_refl eq_refl))
           "Token"
           [("MyInt", Inputs2.my_int); ("Both", TypeAlias "Both" uint256)]
           [("MyError", Declaration "MyError");
            ("Both", Declaration "Both")]
           eq_refl).
Defined.

(** ** Unary operations *)

(** X11: on an operand that is a declared variable, a Temporary or a
    Reference, logical and bitwise negation emit one unary instruction into
    a fresh Temporary, and [delete] emits one delete instruction whose
    source and target are both the operand and records the operand.  Unary
    plus emits nothing and records its operand, whatever it is. *)
Theorem negation_delete_and_plus env p e value st :
  generates_certik_ir env = false \/ ConstantFolding env e = None ->
  context st !! child p k_expression = Some value ->
  let store := delete (child p k_expression) (context st) in
  let n := counter_temporary st in
  (is_variable_operand value = true ->
   (forall t,
      t = UnaryOperationType.BANG \/ t = UnaryOperationType.TILD ->
      _post_unary_operation env p e t st =
        inr (tt, mkState
                   (_result st ++
                      [set_expression (IR.Unary (Temporary n) value t) p])
                   (<[p := Temporary n]> store)
                   (S n) (counter_reference st) (counter_tuple st))) /\
   _post_unary_operation env p e UnaryOperationType.DELETE st =
     inr (tt, mkState
                (_result st ++ [set_expression (IR.Delete value value) p])
                (<[p := value]> store)
                n (counter_reference st) (counter_tuple st))) /\
  _post_unary_operation env p e UnaryOperationType.PLUS_PRE st =
    inr (tt, mkState (_result st) (<[p := value]> store)
               n (counter_reference st) (counter_tuple st)).
Proof.
  intros Hfold Hslot store n. subst store n.
  assert (Hread : forall k : Value -> M unit,
            (folded <- folding_guard env p e false ;;
             if (folded : bool) then ret tt
             else value <- get (child p k_expression) ;; k value) st =
            k value
              (mkState (_result st)
                 (delete (child p k_expression) (context st))
                 (counter_temporary st) (counter_reference st)
                 (counter_tuple st))).
  { intros k. rewrite folding_guard_skipped by done.
    unfold bind, ret. by rewrite (get_present_slot _ _ _ Hslot). }
  unfold _post_unary_operation. split; [intros _; split |].
  - intros t [-> | ->]; rewrite Hread; reflexivity.
  - rewrite Hread. reflexivity.
  - rewrite Hread. reflexivity.
Qed.

Lemma negation_delete_and_plus_witness :
  _post_unary_operation Sample.env []
    (Expr.UnaryOperation (Expr.Identifier Sample.x)
       UnaryOperationType.DELETE)
    UnaryOperationType.DELETE Sample.operand_x =
  inr (tt, mkState
             [set_expression (IR.Delete Sample.x Sample.x) []]
             (<[[] := Sample.x]>
                (delete (child [] k_expression)
                   (context Sample.operand_x)))
             0 0 0).
Proof.
  refine (proj2 (proj1 (negation_delete_and_plus Sample.env [] _
                          Sample.x Sample.operand_x _ eq_refl)
                   eq_refl)).
  left; reflexivity.
Defined.

(** X12: on an operand that is a declared variable, decrement mirrors
    increment with a subtraction, and unary minus subtracts the operand
    from the constant 0 into a fresh Temporary; in all three the constant
    takes the variable's declared type.  An operand without a type attribute
    makes every increment, decrement and unary minus fail with
    [AttributeError]. *)
Theorem arithmetic_unary_operators env p e value st :
  generates_certik_ir env = false \/ ConstantFolding env e = None ->
  context st !! child p k_expression = Some value ->
  let store := delete (child p k_expression) (context st) in
  let n := counter_temporary st in
  (forall value_type,
     is_declared_variable value = true ->
     type_attr env value = inr value_type ->
     let subtract_one :=
       set_expression
         (IR.Binary value value (Constant "1" value_type None)
            BinaryType.SUBTRACTION) p in
     _post_unary_operation env p e UnaryOperationType.MINUSMINUS_POST st =
       inr (tt, mkState
                  (_result st ++
                     [set_expression
                        (IR.Assignment (Temporary n) value value_type) p;
                      subtract_one])
                  (<[p := Temporary n]> store)
                  (S n) (counter_reference st) (counter_tuple st)) /\
     _post_unary_operation env p e UnaryOperationType.MINUSMINUS_PRE st =
       inr (tt, mkState (_result st ++ [subtract_one])
                  (<[p := value]> store)
                  n (counter_reference st) (counter_tuple st)) /\
     _post_unary_operation env p e UnaryOperationType.MINUS_PRE st =
       inr (tt, mkState
                  (_result st ++
                     [set_expression
                        (IR.Binary (Temporary n)
                           (Constant "0" value_type None) value
                           BinaryType.SUBTRACTION) p])
                  (<[p := Temporary n]> store)
                  (S n) (counter_reference st) (counter_tuple st))) /\
  (forall error t,
     type_attr env value = inl error ->
     In t [UnaryOperationType.PLUSPLUS_PRE; UnaryOperationType.MINUSMINUS_PRE;
           UnaryOperationType.PLUSPLUS_POST;
           UnaryOperationType.MINUSMINUS_POST;
           UnaryOperationType.MINUS_PRE] ->
     error = AttributeError /\
     _post_unary_operation env p e t st = inl AttributeError).
Proof.
  intros Hfold Hslot store n. subst store n.
  assert (Hread : forall k : Value -> M unit,
            (folded <- folding_guard env p e false ;;
             if (folded : bool) then ret tt
             else value <- get (child p k_expression) ;; k value) st =
            k value
              (mkState (_result st)
                 (delete (child p k_expression) (context st))
                 (counter_temporary st) (counter_reference st)
                 (counter_tuple st))).
  { intros k. rewrite folding_guard_skipped by done.
    unfold bind, ret. by rewrite (get_present_slot _ _ _ Hslot). }
  unfold _post_unary_operation. split.
  - intros value_type _ Htype.
    rewrite !Hread.
    unfold bind, fresh_temporary, lift, append, set_val, ret.
    rewrite Htype.
    cbn [_result context counter_temporary counter_reference counter_tuple].
    rewrite <- app_assoc. repeat split; reflexivity.
  - intros error t Htype Ht.
    assert (error = AttributeError) as ->
      by (destruct value; simpl in Htype; congruence).
    split; [reflexivity |].
    rewrite Hread.
    simpl in Ht.
    destruct Ht as [<- | [<- | [<- | [<- | [<- | []]]]]];
      unfold bind, fresh_temporary, lift, raise; by rewrite Htype.
Qed.

Lemma arithmetic_unary_operators_witness :
  _post_unary_operation Sample.env []
    (Expr.UnaryOperation (Expr.Identifier Sample.x)
       UnaryOperationType.MINUS_PRE)
    UnaryOperationType.MINUS_PRE Sample.operand_x =
  inr (tt, mkState
             [set_expression
                (IR.Binary (Temporary 0) (Constant "0" int256 None) Sample.x
                   BinaryType.SUBTRACTION) []]
             (<[[] := Temporary 0]>
                (delete (child [] k_expression)
                   (context Sample.operand_x)))
             1 0 0).
Proof.
  refine (proj2 (proj2 (proj1 (arithmetic_unary_operators Sample.env [] _
                                 Sample.x Sample.operand_x _ eq_refl)
                          int256 eq_refl eq_refl))).
  left; reflexivity.
Defined.

(** ** Tuple expressions *)

Lemma get_each_reads p k l :
  forall i st vals,
    NoDup (present_keys p k i l) ->
    Forall2 (fun key val => context st !! key = Some val)
      (present_keys p k i l) vals ->
    get_each p k i l st =
      inr (with_discards l vals,
           mkState (_result st) (clear (present_keys p k i l) (context st))
             (counter_temporary st) (counter_reference st)
             (counter_tuple st)).
Proof.
  induction l as [| [e |] l IH]; intros i st vals Hnodup Hvals; simpl in *.
  - by destruct st.
  - apply Forall2_cons_inv_l in Hvals as [val [vals' [Hval [Hvals ->]]]].
    apply NoDup_cons in Hnodup as [Hfresh Hnodup].
    unfold bind. rewrite (get_present_slot _ _ _ Hval).
    rewrite (IH (S i) _ vals'); [done | done |]. simpl.
    by apply slots_after_delete.
  - unfold bind. by rewrite (IH (S i) st vals).
Qed.

Lemma with_discards_length l vals :
  length vals = length (omap id l) ->
  length (with_discards l vals) = length l.
Proof.
  revert vals. induction l as [| [e |] l IH]; intros vals Hlen; simpl in *.
  - reflexivity.
  - destruct vals as [| v vals]; [discriminate |]. simpl.
    f_equal. apply IH. by injection Hlen.
  - f_equal. by apply IH.
Qed.

(** X13: a tuple's value keeps one entry per slot, [None] standing at each
    discarded slot, so a target's position in the list is its slot.  The
    inline-array form materialises the list into a fresh Temporary with one
    array-initialisation; otherwise a tuple with a single slot is that
    slot's value and any other tuple is the list itself, with no
    instruction. *)
Theorem tuple_expression_lowering p expressions is_inline_array vals st :
  Forall2 (fun key val => context st !! key = Some val)
    (present_keys p k_element 0 expressions) vals ->
  let elements := with_discards expressions vals in
  let store := clear (present_keys p k_element 0 expressions) (context st) in
  let n := counter_temporary st in
  length elements = length expressions /\
  (forall i, expressions !! i = Some None -> elements !! i = Some VNone) /\
  _post_tuple_expression p expressions is_inline_array st =
    if is_inline_array then
      inr (tt, mkState
                 (_result st ++
                    [bare (IR.InitArray (VList elements) (Temporary n))])
                 (<[p := Temporary n]> store)
                 (S n) (counter_reference st) (counter_tuple st))
    else
      inr (tt, mkState (_result st)
                 (<[p := match elements with
                         | [only] => only
                         | _ => VList elements
                         end]> store)
                 n (counter_reference st) (counter_tuple st)).
Proof.
  intros Hvals elements store n. subst elements store n.
  split; [| split].
  - apply with_discards_length. rewrite <- (present_keys_length p k_element 0).
    symmetry. by eapply Forall2_length.
  - assert (Hlen : length vals = length (omap id expressions)).
    { rewrite <- (present_keys_length p k_element 0).
      symmetry. by eapply Forall2_length. }
    clear Hvals. revert vals Hlen.
    induction expressions as [| [e |] l IH]; intros vals Hlen i Hi;
      [done | |].
    + destruct i as [| i]; [discriminate Hi |]. simpl in Hi.
      destruct vals as [| v vals]; [discriminate Hlen |]. simpl.
      apply IH; [by injection Hlen | done].
    + destruct i as [| i]; [reflexivity |]. simpl. by apply IH.
  - unfold _post_tuple_expression. unfold bind at 1.
    rewrite (get_each_reads p k_element expressions 0 st vals);
      [| apply present_keys_NoDup, _ | done].
    destruct is_inline_array.
    + reflexivity.
    + destruct (with_discards expressions vals) as [| only [| ? ?]];
        reflexivity.
Qed.

Lemma tuple_expression_lowering_witness :
  _post_tuple_expression [] Inputs3.x_discard_y false
    Inputs3.after_x_discard_y =
  inr (tt, mkState []
             (<[[] := VList [Sample.x; VNone; Sample.y]]>
                (clear (present_keys [] k_element 0 Inputs3.x_discard_y)
                   (context Inputs3.after_x_discard_y)))
             0 0 0).
Proof.
  refine (proj2 (proj2 (tuple_expression_lowering [] Inputs3.x_discard_y
                          false [Sample.x; Sample.y]
                          Inputs3.after_x_discard_y _))).
  repeat constructor.
Defined.

(** ** Calls *)

(** The call rule up to its dispatch: the callee and the present arguments
    are read, and one marker per argument is appended. *)
Lemma call_reads p expression_called arguments type_call call_gas call_value
    call_salt called args st :
  context st !! child p k_called = Some called ->
  Forall2 (fun key val => context st !! key = Some val)
    (present_keys p k_argument 0 arguments) args ->
  _post_call_expression p expression_called arguments type_call call_gas
    call_value call_salt st =
  call_by_kind p expression_called called args type_call call_gas call_value
    call_salt
    (mkState
       (_result st ++ map (fun arg => set_expression (IR.Argument arg) p) args)
       (clear (present_keys p k_argument 0 arguments)
          (delete (child p k_called) (context st)))
       (counter_temporary st) (counter_reference st) (counter_tuple st)).
Proof.
  intros Hcalled Hargs.
  assert (Hother : child p k_called ∉ present_keys p k_argument 0 arguments).
  { intros Hin. apply elem_of_present_keys in Hin as [j [_ [_ Hj]]].
    apply child_inj in Hj. discriminate Hj. }
  unfold _post_call_expression.
  unfold bind at 1. rewrite (get_present_slot _ _ _ Hcalled).
  unfold bind at 1.
  rewrite (get_present_reads p k_argument arguments 0 _ args);
    [| apply present_keys_NoDup, _ | by apply slots_after_delete].
  unfold bind at 1. by rewrite for_each_emits.
Qed.

(** X14: a call whose callee is a function lowers to the argument markers
    followed by one internal call, and reads no call option.  The value is a
    fresh Tuple when the call's type is a non-empty tuple; otherwise it is a
    fresh Temporary carrying the location of the single declared return, and
    the rule asserts that the function declares at most one return. *)
Theorem internal_call_lowering p expression_called arguments type_call
    call_gas call_value call_salt name returns args st :
  context st !! child p k_called = Some (Function name returns) ->
  Forall2 (fun key val => context st !! key = Some val)
    (present_keys p k_argument 0 arguments) args ->
  let called := Function name returns in
  let markers := map (fun arg => set_expression (IR.Argument arg) p) args in
  let store :=
    clear (present_keys p k_argument 0 arguments)
      (delete (child p k_called) (context st)) in
  let lowered val ct cu :=
    _post_call_expression p expression_called arguments type_call call_gas
      call_value call_salt st =
    inr (tt, mkState
               (_result st ++ markers ++
                  [set_expression
                     (IR.InternalCall (Call__init__ None) called
                        (length args) val type_call) p])
               (<[p := val]> store) ct (counter_reference st) cu) in
  (returns_tuple type_call = true ->
   lowered (TupleVariable (counter_tuple st)) (counter_temporary st)
     (S (counter_tuple st))) /\
  (returns_tuple type_call = false -> length returns <= 1 ->
   lowered
     (TemporaryVariable (counter_temporary st) VNone
        (match returns with
         | [location] => location
         | _ => None
         end))
     (S (counter_temporary st)) (counter_tuple st)) /\
  (returns_tuple type_call = false -> 1 < length returns ->
   _post_call_expression p expression_called arguments type_call call_gas
     call_value call_salt st = inl AssertionError).
Proof.
  intros Hcalled Hargs called markers store lowered.
  subst called markers store lowered. cbv beta.
  rewrite (call_reads _ _ _ _ _ _ _ _ args _ Hcalled Hargs).
  unfold call_by_kind. split; [| split].
  - intros ->. unfold bind, fresh_tuple, append, set_val, ret.
    cbn [_result context counter_temporary counter_reference counter_tuple].
    by rewrite <- app_assoc.
  - intros -> Hlen. apply Nat.leb_le in Hlen.
    unfold bind, assert, fresh_temporary, append, set_val, ret.
    rewrite Hlen.
    cbn [_result context counter_temporary counter_reference counter_tuple].
    by rewrite <- app_assoc.
  - intros -> Hlen. apply Nat.leb_gt in Hlen.
    unfold bind, assert. by rewrite Hlen.
Qed.

Lemma internal_call_lowering_witness :
  _post_call_expression [] (Expr.Identifier Inputs4.f) [] "uint256"
    None None None Inputs4.after_callee_f = inl AssertionError.
Proof.
  refine (proj2 (proj2 (internal_call_lowering []
                          (Expr.Identifier Inputs4.f) [] "uint256"
                          None None None "f" [None; None] []
                          Inputs4.after_callee_f eq_refl _))
            eq_refl _).
  - constructor.
  - simpl. lia.
Defined.

(** X15: [wrap] and [unwrap] of a user-defined type, applied to one
    argument, lower to the argument marker and one conversion of the
    argument into a fresh Temporary: to the alias for [wrap], to its
    underlying type for [unwrap]. *)
Theorem user_type_wrap_unwrap p nested member_name arguments type_call
    call_gas call_value call_salt name underlying arg st :
  member_name = "wrap" \/ member_name = "unwrap" ->
  context st !! child p k_called = Some (TypeAlias name underlying) ->
  Forall2 (fun key val => context st !! key = Some val)
    (present_keys p k_argument 0 arguments) [arg] ->
  let dest_type :=
    if String.eqb member_name "wrap" then TypeAlias name underlying
    else underlying in
  let val := TemporaryVariable (counter_temporary st) dest_type None in
  _post_call_expression p (Expr.MemberAccess nested member_name) arguments
    type_call call_gas call_value call_salt st =
    inr (tt, mkState
               (_result st ++
                  [set_expression (IR.Argument arg) p;
                   set_expression (IR.TypeConversion val arg dest_type) p])
               (<[p := val]>
                  (clear (present_keys p k_argument 0 arguments)
                     (delete (child p k_called) (context st))))
               (S (counter_temporary st)) (counter_reference st)
               (counter_tuple st)).
Proof.
  intros Hmember Hcalled Hargs dest_type val. subst dest_type val.
  rewrite (call_reads _ _ _ _ _ _ _ _ [arg] _ Hcalled Hargs).
  unfold call_by_kind.
  destruct Hmember as [-> | ->]; cbn; by rewrite <- app_assoc.
Qed.

Lemma user_type_wrap_unwrap_witness :
  _post_call_expression []
    (Expr.MemberAccess (Expr.Identifier Inputs2.my_int) "unwrap")
    [Some (Expr.Identifier Sample.x)] "int256" None None None
    Inputs4.after_wrap_children =
  inr (tt, mkState
             [set_expression (IR.Argument Sample.x) [];
              set_expression
                (IR.TypeConversion (TemporaryVariable 0 int256 None)
                   Sample.x int256) []]
             (<[[] := TemporaryVariable 0 int256 None]>
                (delete (child [] (k_argument 0))
                   (delete (child [] k_called)
                      (context Inputs4.after_wrap_children))))
             1 0 0).
Proof.
  apply (user_type_wrap_unwrap [] (Expr.Identifier Inputs2.my_int) "unwrap"
           [Some (Expr.Identifier Sample.x)] "int256" None None None
           "MyInt" int256 Sample.x Inputs4.after_wrap_children).
  - right; reflexivity.
  - reflexivity.
  - repeat constructor.
Defined.

(** X16: the environment pseudo-functions lower without a call
    instruction: [caller()], [origin()] and [callvalue()] to an assignment
    from [msg.sender], [tx.origin] and [msg.value]; [address()] to a
    conversion of [this]; [selfbalance()] to that conversion followed by a
    read of the member [balance]; and [extcodesize(uint256)] to a read of
    the member [codesize] of its first argument, failing with [IndexError]
    when it has none. *)
Theorem environment_pseudo_functions p expression_called arguments type_call
    call_gas call_value call_salt name args st :
  context st !! child p k_called = Some (SolidityFunction name) ->
  Forall2 (fun key val => context st !! key = Some val)
    (present_keys p k_argument 0 arguments) args ->
  let markers := map (fun arg => set_expression (IR.Argument arg) p) args in
  let store :=
    clear (present_keys p k_argument 0 arguments)
      (delete (child p k_called) (context st)) in
  let ct := counter_temporary st in
  let cr := counter_reference st in
  let run :=
    _post_call_expression p expression_called arguments type_call call_gas
      call_value call_salt st in
  let reads variable :=
    run =
    inr (tt, mkState
               (_result st ++ markers ++
                  [bare (IR.Assignment (Temporary ct)
                           (SolidityVariableComposed variable)
                           (VStr "uint256"))])
               (<[p := Temporary ct]> store) (S ct) cr (counter_tuple st)) in
  let this := TemporaryVariable ct (ElementaryType "address") None in
  let converts :=
    bare (IR.TypeConversion this (SolidityVariable "this")
            (ElementaryType "address")) in
  (name = "caller()" -> reads "msg.sender") /\
  (name = "origin()" -> reads "tx.origin") /\
  (name = "callvalue()" -> reads "msg.value") /\
  (name = "address()" ->
   run = inr (tt, mkState (_result st ++ markers ++ [converts])
                    (<[p := this]> store) (S ct) cr (counter_tuple st))) /\
  (name = "selfbalance()" ->
   run = inr (tt, mkState
                    (_result st ++ markers ++
                       [converts;
                        bare (IR.Member this (Constant "balance" VNone None)
                                (ReferenceVariable cr))])
                    (<[p := ReferenceVariable cr]> store)
                    (S ct) (S cr) (counter_tuple st))) /\
  (name = "extcodesize(uint256)" ->
   match args with
   | [] => run = inl IndexError
   | arg0 :: _ =>
       run = inr (tt, mkState
                        (_result st ++ markers ++
                           [bare (IR.Member arg0
                                    (Constant "codesize" VNone None)
                                    (ReferenceVariable cr))])
                        (<[p := ReferenceVariable cr]> store)
                        ct (S cr) (counter_tuple st))
   end).
Proof.
  intros Hcalled Hargs markers store ct cr run reads this converts.
  subst markers store ct cr run reads this converts. cbv beta.
  rewrite (call_reads _ _ _ _ _ _ _ _ args _ Hcalled Hargs).
  unfold call_by_kind, call_by_name.
  repeat split; intros ->; cbn [name_attr lift];
    unfold bind at 1; unfold ret at 1; cbv beta iota;
    try (cbn; rewrite <- ?app_assoc; reflexivity).
  destruct args; cbn; rewrite <- ?app_assoc; reflexivity.
Qed.

Lemma environment_pseudo_functions_witness :
  _post_call_expression []
    (Expr.Identifier (SolidityFunction "extcodesize(uint256)")) []
    "uint256" None None None Inputs4.after_callee_extcodesize =
  inl IndexError.
Proof.
  refine (proj2 (proj2 (proj2 (proj2 (proj2
            (environment_pseudo_functions []
               (Expr.Identifier (SolidityFunction "extcodesize(uint256)"))
               [] "uint256" None None None "extcodesize(uint256)" []
               Inputs4.after_callee_extcodesize eq_refl _)))))
            eq_refl).
  constructor.
Defined.

(** ** What every rule and every walk does *)

Lemma extends_refl st : extends st st.
Proof.
  split; [exists []; by rewrite app_nil_r | unfold counters_advance; lia].
Qed.

Lemma extends_trans st1 st2 st3 :
  extends st1 st2 -> extends st2 st3 -> extends st1 st3.
Proof.
  intros [[ops1 H1] C1] [[ops2 H2] C2]. split.
  - exists (ops1 ++ ops2). by rewrite H2, H1, app_assoc.
  - unfold counters_advance in *. lia.
Qed.

(** Close [rule_effect p st st'] or [extends st st'] for an explicit
    [st']. *)
Ltac effect_done :=
  repeat split;
  cbn [_result context counter_temporary counter_reference counter_tuple];
  first
    [ lia
    | rewrite lookup_insert_eq; eauto
    | rewrite <- ?app_assoc;
      first [exists []; by rewrite app_nil_r | by eexists] ].

Lemma binary_rule_effect env p e t st st' :
  _post_binary_operation env p e t st = inr (tt, st') -> rule_effect p st st'.
Proof.
  intros H.
  unfold _post_binary_operation, folding_guard, _attempt_constant_folding in H.
  run_inv H; effect_done.
Qed.

Lemma unary_rule_effect env p e t st st' :
  _post_unary_operation env p e t st = inr (tt, st') -> rule_effect p st st'.
Proof.
  intros H.
  unfold _post_unary_operation, folding_guard, _attempt_constant_folding in H.
  run_inv H; effect_done.
Qed.

Lemma index_rule_effect p type st st' :
  _post_index_access p type st = inr (tt, st') -> rule_effect p st st'.
Proof. intros H. unfold _post_index_access in H. run_inv H; effect_done. Qed.

Lemma member_rule_effect env p nested member_name st st' :
  _post_member_access env p nested member_name st = inr (tt, st') ->
  rule_effect p st st'.
Proof. intros H. unfold _post_member_access in H. run_inv H; effect_done. Qed.

Lemma type_conversion_rule_effect p type st st' :
  _post_type_conversion p type st = inr (tt, st') -> rule_effect p st st'.
Proof.
  intros H. unfold _post_type_conversion in H. run_inv H; effect_done.
Qed.

Lemma leaf_rules_effect p st st' :
  (forall value, _post_identifier p value st = inr (tt, st') ->
     rule_effect p st st') /\
  (forall value type subdenomination,
     _post_literal p value type subdenomination st = inr (tt, st') ->
     rule_effect p st st') /\
  (forall type,
     _post_elementary_type_name_expression p type st = inr (tt, st') ->
     rule_effect p st st') /\
  (forall depth array_type,
     _post_new_array p depth array_type st = inr (tt, st') ->
     rule_effect p st st') /\
  (forall type,
     _post_new_elementary_type p type st = inr (tt, st') ->
     rule_effect p st st').
Proof.
  repeat split; intros;
    match goal with H : _ = inr _ |- _ =>
      unfold _post_identifier, _post_literal,
        _post_elementary_type_name_expression, _post_new_array,
        _post_new_elementary_type in H;
      run_inv H; effect_done
    end.
Qed.

Lemma assignment_rule_effect p type expression_return_type st st' :
  _post_assignement_operation p type expression_return_type st =
    inr (tt, st') ->
  rule_effect p st st'.
Proof.
  intros H. unfold _post_assignement_operation in H.
  apply bind_inv in H as [left [st1 [Hleft H]]]. run_inv Hleft.
  apply bind_inv in H as [right [st2 [Hright H]]]. run_inv Hright.
  destruct left as [| | targets | | | | | | | | | | | | | | | | ];
    try (run_inv H; effect_done).
  destruct right as [| | sources | | | | | | | | | | | | | | | | ];
    apply bind_inv in H as [u [st3 [Hassert H]]]; run_inv Hassert;
    apply bind_inv in H as [u' [st4 [Hloop H]]];
    (apply for_enumerate_appends_only in Hloop as [ops ->];
     [run_inv H; effect_done |]);
    intros i x; destruct (is_None x); simpl;
    try apply ret_appends_only; try apply append_appends_only.
  intros s0 u0 s1 Hbody. run_inv Hbody. eexists. reflexivity.
Qed.

Lemma new_contract_rule_effect p contract_name call_value call_salt st st' :
  _post_new_contract p contract_name call_value call_salt st = inr (tt, st') ->
  rule_effect p st st'.
Proof.
  intros H. unfold _post_new_contract in H.
  apply bind_inv in H as [val [st1 [Hval H]]]. run_inv Hval.
  apply bind_inv in H as [value [st2 [Hvalue H]]].
  apply get_option_inv in Hvalue as ->.
  apply bind_inv in H as [salt [st3 [Hsalt H]]].
  apply get_option_inv in Hsalt as ->.
  run_inv H. effect_done.
Qed.

Lemma tuple_rule_effect p expressions is_inline_array st st' :
  _post_tuple_expression p expressions is_inline_array st = inr (tt, st') ->
  rule_effect p st st'.
Proof.
  intros H. unfold _post_tuple_expression in H.
  apply bind_inv in H as [vals [st1 [Hvals H]]].
  apply get_each_inv in Hvals as ->.
  run_inv H; effect_done.
Qed.

Lemma unresolved_call_effect p called args type_call call_gas call_value
    call_salt st st' :
  unresolved_call p called args type_call call_gas call_value call_salt st =
    inr (tt, st') ->
  rule_effect p st st'.
Proof.
  intros H. unfold unresolved_call in H.
  apply bind_inv in H as [val [st1 [Hval H]]].
  apply bind_inv in H as [gas [st2 [Hgas H]]].
  apply get_option_inv in Hgas as ->.
  apply bind_inv in H as [value [st3 [Hvalue H]]].
  apply get_option_inv in Hvalue as ->.
  apply bind_inv in H as [salt [st4 [Hsalt H]]].
  apply get_option_inv in Hsalt as ->.
  run_inv H. destruct (returns_tuple type_call); run_inv Hval; effect_done.
Qed.

Lemma call_by_kind_effect p expression_called called args type_call call_gas
    call_value call_salt st st' :
  call_by_kind p expression_called called args type_call call_gas call_value
    call_salt st = inr (tt, st') ->
  rule_effect p st st'.
Proof.
  intros H.
  assert (Hname :
    call_by_name p called args type_call call_gas call_value call_salt st =
      inr (tt, st') -> rule_effect p st st').
  { clear H. intros H. unfold call_by_name in H.
    apply bind_inv in H as [name [st1 [Hattr H]]]. run_inv Hattr.
    repeat (match type of H with
            | (if ?b then _ else _) _ = _ => destruct b
            end; [run_inv H; effect_done |]).
    by apply unresolved_call_effect in H. }
  unfold call_by_kind in H.
  destruct called; try (by apply Hname).
  - destruct (is_wrap_or_unwrap_selector expression_called
              && Nat.eqb (length args) 1); [| by apply Hname].
    run_inv H; effect_done.
  - run_inv H; effect_done.
Qed.

Lemma call_rule_effect p expression_called arguments type_call call_gas
    call_value call_salt st st' :
  _post_call_expression p expression_called arguments type_call call_gas
    call_value call_salt st = inr (tt, st') ->
  rule_effect p st st'.
Proof.
  intros H. unfold _post_call_expression in H.
  apply bind_inv in H as [called [st1 [Hget H]]]. run_inv Hget.
  apply bind_inv in H as [args [st2 [Hargs H]]].
  apply get_present_inv in Hargs as ->.
  apply bind_inv in H as [u [st3 [Hmarkers H]]].
  apply for_enumerate_appends_only in Hmarkers as [ops ->];
    [| intros i x; apply append_appends_only].
  apply call_by_kind_effect in H as [[[ops' Hops] Hcounters] Hrecorded].
  cbn [_result context counter_temporary counter_reference counter_tuple]
    in *.
  split; [split |]; [| exact Hcounters | exact Hrecorded].
  exists (ops ++ ops'). by rewrite Hops, app_assoc.
Qed.

Lemma visit_option_extends (visit : NodeId -> Expression -> M unit) p k o
    st st' :
  OptP (fun e => forall p st st',
          visit p e st = inr (tt, st') -> rule_effect p st st') o ->
  visit_option visit p k o st = inr (tt, st') ->
  extends st st'.
Proof.
  destruct o as [e |]; simpl; intros Ho H.
  - by eapply Ho.
  - run_inv H. apply extends_refl.
Qed.

Lemma visit_each_extends (visit : NodeId -> Expression -> M unit) p k l :
  Forall (OptP (fun e => forall p st st',
                  visit p e st = inr (tt, st') -> rule_effect p st st')) l ->
  forall i st st',
    visit_each visit p k i l st = inr (tt, st') -> extends st st'.
Proof.
  induction 1 as [| o l Ho _ IH]; intros i st st' H; simpl in H.
  - run_inv H. apply extends_refl.
  - apply bind_inv in H as [[] [st1 [Ho' H]]].
    eapply extends_trans; [by eapply visit_option_extends | by eapply IH].
Qed.

(** Split a successful visit of a node into the visits of its children,
    each extending the state, and the run of the node's rule. *)
Ltac chain_children H :=
  repeat lazymatch type of H with
    | bind (_visit_expression _ _ ?e) _ _ = inr _ =>
        let st1 := fresh "st" in
        let Hchild := fresh "Hchild" in
        apply bind_inv in H as [[] [st1 [Hchild H]]];
        match goal with
        | IH : forall p st st', _visit_expression _ p e st = _ -> _ |- _ =>
            apply IH in Hchild as [Hchild _]
        end
    | bind (visit_each _ _ _ _ ?l) _ _ = inr _ =>
        let st1 := fresh "st" in
        let Hchild := fresh "Hchild" in
        apply bind_inv in H as [[] [st1 [Hchild H]]];
        match goal with
        | IH : Forall _ l |- _ =>
            apply (visit_each_extends _ _ _ _ IH) in Hchild
        end
    | bind (visit_option _ _ _ ?o) _ _ = inr _ =>
        let st1 := fresh "st" in
        let Hchild := fresh "Hchild" in
        apply bind_inv in H as [[] [st1 [Hchild H]]];
        match goal with
        | IH : OptP _ o |- _ =>
            apply (visit_option_extends _ _ _ _ _ _ IH) in Hchild
        end
    end.

Lemma rule_effect_after p st st1 st' :
  extends st st1 -> rule_effect p st1 st' -> rule_effect p st st'.
Proof.
  intros Hchild [Hrule Hslot]. split; [| exact Hslot].
  by eapply extends_trans.
Qed.

(** The effect of lowering a whole expression is the effect of a rule:
    the lowering of the children extends the state, and the rule of the
    node extends it further and fills the slot of the node. *)
Lemma walk_effect env e :
  forall p st st',
    _visit_expression env p e st = inr (tt, st') -> rule_effect p st st'.
Proof.
  induction e as
    [ value | value type subdenomination | type
    | l r type return_type IHl IHr | l r type IHl IHr | nested type IHn
    | called arguments type_call call_gas call_value call_salt
        IHcalled IHargs IHgas IHvalue IHsalt
    | i t e' IHi IHt IHe | l r type IHl IHr | nested member_name IHn
    | depth array_type | contract_name call_value call_salt IHvalue IHsalt
    | type | expressions is_inline_array IHelems | nested type IHn ]
    using Expression_nested_ind; intros p st st' H;
    cbn [_visit_expression] in H; chain_children H;
    repeat match goal with
           | Hchild : extends ?a ?b |- rule_effect _ ?a _ =>
               apply (rule_effect_after _ _ _ _ Hchild); clear Hchild
           end.
  - by apply leaf_rules_effect in H.
  - by apply leaf_rules_effect in H.
  - by apply leaf_rules_effect in H.
  - by apply assignment_rule_effect in H.
  - by apply binary_rule_effect in H.
  - by apply unary_rule_effect in H.
  - by apply call_rule_effect in H.
  - discriminate H.
  - by apply index_rule_effect in H.
  - by apply member_rule_effect in H.
  - by apply leaf_rules_effect in H.
  - by apply new_contract_rule_effect in H.
  - by apply leaf_rules_effect in H.
  - by apply tuple_rule_effect in H.
  - by apply type_conversion_rule_effect in H.
Qed.

(** X17: whenever the lowering of an expression returns, the slot of that
    expression holds a value: no rule returns without recording its
    result. *)
Theorem lowering_records_a_value env e p st st' :
  _visit_expression env p e st = inr (tt, st') ->
  is_Some (context st' !! p).
Proof. intros H. by apply walk_effect in H as [_ ?]. Qed.

Lemma lowering_records_a_value_witness :
  is_Some
    (context
       (mkState
          [set_expression (IR.Assignment Sample.a Sample.b uint256) []]
          (<[[] := Sample.a]> ∅) 0 0 0) !! []).
Proof.
  apply (lowering_records_a_value Sample.env Sample.a_assign_b [] initial).
  vm_compute. reflexivity.
Defined.

(** X18: lowering only ever appends: when the lowering of an expression
    returns, the buffer is the buffer it started from followed by the
    instructions it emitted, so no earlier instruction is removed, changed
    or reordered, and none of the three counters of fresh variables has
    moved back. *)
Theorem lowering_only_appends env e p st st' :
  _visit_expression env p e st = inr (tt, st') ->
  (exists ops, _result st' = _result st ++ ops) /\
  counter_temporary st <= counter_temporary st' /\
  counter_reference st <= counter_reference st' /\
  counter_tuple st <= counter_tuple st'.
Proof. intros H. by apply walk_effect in H as [? _]. Qed.

Lemma lowering_only_appends_witness :
  (exists ops,
     [set_expression (IR.Assignment Sample.a Sample.b uint256) []] =
       [] ++ ops) /\
  0 <= 0 /\ 0 <= 0 /\ 0 <= 0.
Proof.
  apply (lowering_only_appends Sample.env Sample.a_assign_b [] initial
           (mkState
              [set_expression (IR.Assignment Sample.a Sample.b uint256) []]
              (<[[] := Sample.a]> ∅) 0 0 0)).
  vm_compute. reflexivity.
Defined.

(** ** Failure and independence of the walk *)

Lemma fails_bind_first {A B} (c : M A) (k : A -> M B) st :
  fails (c st) -> fails (bind c k st).
Proof. unfold bind, fails. by destruct (c st) as [| []]. Qed.

Lemma fails_bind_second {A B} (c : M A) (k : A -> M B) st :
  (forall a st', fails (k a st')) -> fails (bind c k st).
Proof. intros Hk. unfold bind. destruct (c st) as [| []]; [done | apply Hk]. Qed.

Lemma visit_each_fails (visit : NodeId -> Expression -> M unit) p k l :
  Forall (OptP (fun e => contains_conditional e ->
                         forall p st, fails (visit p e st))) l ->
  some_entry contains_conditional l ->
  forall i st, fails (visit_each visit p k i l st).
Proof.
  induction 1 as [| o l Ho _ IH]; simpl; [done |].
  intros Hany i st. destruct o as [e |].
  - destruct Hany as [He | Hany].
    + apply fails_bind_first. by apply Ho.
    + apply fails_bind_second. intros _ st'. by apply IH.
  - apply fails_bind_second. intros _ st'. by apply IH.
Qed.

Lemma visit_option_fails (visit : NodeId -> Expression -> M unit) p k o st :
  OptP (fun e => contains_conditional e ->
                 forall p st, fails (visit p e st)) o ->
  match o with
  | Some e => contains_conditional e
  | None => False
  end ->
  fails (visit_option visit p k o st).
Proof. destruct o; simpl; [auto | done]. Qed.

(** Find the child that holds the ternary and fail there. *)
Ltac fail_at_child :=
  lazymatch goal with
  | H : contains_conditional ?e |- fails (bind (_visit_expression _ _ ?e) _ _) =>
      apply fails_bind_first; auto
  | H : some_entry contains_conditional ?l
    |- fails (bind (visit_each _ _ _ _ ?l) _ _) =>
      apply fails_bind_first; by apply visit_each_fails
  | H : match ?o with Some _ => _ | None => False end
    |- fails (bind (visit_option _ _ _ ?o) _ _) =>
      apply fails_bind_first; by apply visit_option_fails
  | |- fails (bind _ _ _) =>
      apply fails_bind_second; intros _ ?; fail_at_child
  end.

(** X19: a ternary is never lowered: the lowering of an expression raises
    whenever a ternary occurs in it at a position the walk visits, however
    deep, so no instruction list is produced for it. *)
Theorem ternary_is_never_lowered env e :
  contains_conditional e ->
  forall p st,
    fails (_visit_expression env p e st) /\
    result (_visit_expression env p e st) = None.
Proof.
  assert (Hresult : forall outcome : Exception + (unit * State),
            fails outcome -> fails outcome /\ result outcome = None)
    by (by intros [| []]).
  intros He p st. apply Hresult. revert He p st.
  induction e as
    [ value | value type subdenomination | type
    | l r type return_type IHl IHr | l r type IHl IHr | nested type IHn
    | called arguments type_call call_gas call_value call_salt
        IHcalled IHargs IHgas IHvalue IHsalt
    | i t e' IHi IHt IHe | l r type IHl IHr | nested member_name IHn
    | depth array_type | contract_name call_value call_salt IHvalue IHsalt
    | type | expressions is_inline_array IHelems | nested type IHn ]
    using Expression_nested_ind; intros He p st;
    cbn [contains_conditional] in He; try contradiction;
    cbn [_visit_expression];
    repeat match type of He with _ \/ _ => destruct He as [He | He] end;
    try fail_at_child.
  do 3 (apply fails_bind_second; intros _ ?). exact I.
Qed.

Lemma ternary_is_never_lowered_witness :
  fails (_visit_expression Sample.env []
           (Expr.BinaryOperation (Expr.Identifier Sample.a)
              (Expr.ConditionalExpression (Expr.Identifier Sample.x)
                 (Expr.Identifier Sample.a) (Expr.Identifier Sample.b))
              BinaryOperationType.ADDITION) initial) /\
  result (_visit_expression Sample.env []
            (Expr.BinaryOperation (Expr.Identifier Sample.a)
               (Expr.ConditionalExpression (Expr.Identifier Sample.x)
                  (Expr.Identifier Sample.a) (Expr.Identifier Sample.b))
               BinaryOperationType.ADDITION) initial) = None.
Proof.
  apply ternary_is_never_lowered. simpl. right. exact I.
Defined.

Lemma bind_agree {A B} (c c' : M A) (k k' : A -> M B) st :
  c st = c' st ->
  (forall a st', k a st' = k' a st') ->
  bind c k st = bind c' k' st.
Proof.
  intros Hc Hk. unfold bind. rewrite Hc.
  destruct (c' st) as [| []]; [done | apply Hk].
Qed.

Lemma visit_each_agree (visit visit' : NodeId -> Expression -> M unit) p k l :
  Forall (OptP (fun e => forall p st, visit p e st = visit' p e st)) l ->
  forall i st, visit_each visit p k i l st = visit_each visit' p k i l st.
Proof.
  induction 1 as [| o l Ho _ IH]; intros i st; simpl; [done |].
  apply bind_agree; [| intros _ st'; apply IH].
  destruct o; simpl; [apply Ho | done].
Qed.

Lemma visit_option_agree (visit visit' : NodeId -> Expression -> M unit)
    p k o st :
  OptP (fun e => forall p st, visit p e st = visit' p e st) o ->
  visit_option visit p k o st = visit_option visit' p k o st.
Proof. destruct o; simpl; [auto | done]. Qed.

(** X20: with extended-IR mode off the constant folder is never consulted:
    the lowering of a statement is the same whatever the folder would
    answer, on every expression and from every state. *)
Theorem folder_is_not_consulted_when_mode_is_off env folder e st :
  generates_certik_ir env = false ->
  ExpressionToSlithIR (with_folder env folder) e st =
    ExpressionToSlithIR env e st.
Proof.
  intros Hmode.
  assert (Hwalk : forall p st,
            _visit_expression (with_folder env folder) p e st =
              _visit_expression env p e st).
  { induction e as
      [ value | value type subdenomination | type
      | l r type return_type IHl IHr | l r type IHl IHr | nested type IHn
      | called arguments type_call call_gas call_value call_salt
          IHcalled IHargs IHgas IHvalue IHsalt
      | i t e' IHi IHt IHe | l r type IHl IHr | nested member_name IHn
      | depth array_type | contract_name call_value call_salt IHvalue IHsalt
      | type | expressions is_inline_array IHelems | nested type IHn ]
      using Expression_nested_ind; intros p st'; cbn [_visit_expression];
      repeat first
        [ reflexivity
        | apply bind_agree;
          [ first [ by auto
                  | by apply visit_each_agree
                  | by apply visit_option_agree ]
          | intros _ ? ] ].
    - unfold _post_binary_operation, folding_guard.
      cbn [generates_certik_ir with_folder]. by rewrite Hmode.
    - unfold _post_unary_operation, folding_guard.
      cbn [generates_certik_ir with_folder]. by rewrite Hmode. }
  unfold ExpressionToSlithIR. apply bind_agree; [apply Hwalk |].
  intros _ st'. reflexivity.
Qed.

Lemma folder_is_not_consulted_when_mode_is_off_witness :
  ExpressionToSlithIR
    (with_folder Sample.env (ConstantFolding Sample.env_folding))
    Sample.six_by_three initial =
  ExpressionToSlithIR Sample.env Sample.six_by_three initial.
Proof.
  apply folder_is_not_consulted_when_mode_is_off. reflexivity.
Defined.

(** X21: at a return point the closing read cannot fail: whenever the walk
    of the statement's expression returns, the lowering returns, its last
    instruction is a [Return] of the value the walk recorded for the whole
    expression, and that value has left the store. *)
Theorem return_point_closes_with_return env e st st1 :
  node_is_RETURN env = true ->
  _visit_expression env [] e
    (mkState [] (context st) (counter_temporary st) (counter_reference st)
       (counter_tuple st)) = inr (tt, st1) ->
  exists r,
    context st1 !! [] = Some r /\
    ExpressionToSlithIR env e st =
      inr (tt, mkState (_result st1 ++ [set_expression (IR.Return r) []])
                 (delete [] (context st1)) (counter_temporary st1)
                 (counter_reference st1) (counter_tuple st1)).
Proof.
  intros Hreturn Hwalk.
  destruct (walk_effect _ _ _ _ _ Hwalk) as [_ [r Hr]].
  exists r. split; [exact Hr |].
  unfold ExpressionToSlithIR, bind. rewrite Hwalk, Hreturn.
  unfold get. by rewrite Hr.
Qed.

Lemma return_point_closes_with_return_witness :
  exists r,
    context
      (mkState
         [set_expression (IR.Assignment Sample.a Sample.b uint256) []]
         (<[[] := Sample.a]> ∅) 0 0 0) !! [] = Some r /\
    ExpressionToSlithIR Sample.env_return Sample.a_assign_b initial =
      inr (tt, mkState
                 ([set_expression (IR.Assignment Sample.a Sample.b uint256) []]
                    ++ [set_expression (IR.Return r) []])
                 (delete [] (<[[] := Sample.a]> ∅)) 0 0 0).
Proof.
  refine (return_point_closes_with_return Sample.env_return
            Sample.a_assign_b initial
            (mkState
               [set_expression (IR.Assignment Sample.a Sample.b uint256) []]
               (<[[] := Sample.a]> ∅) 0 0 0) _ _).
  - reflexivity.
  - vm_compute. reflexivity.
Defined.

(** ** Locality of the walk *)

Lemma same_outside_refl p m : same_outside p m m.
Proof. by intros q _ _. Qed.

Lemma same_outside_trans p m1 m2 m3 :
  same_outside p m1 m2 -> same_outside p m2 m3 -> same_outside p m1 m3.
Proof. intros H12 H23 q Hp Hq. by rewrite H23, H12. Qed.

Lemma same_outside_child p k m m' :
  same_outside (child p k) m m' -> same_outside p m m'.
Proof.
  intros H q Hp Hq. apply H.
  - intros ->. apply Hq, child_below.
  - intros [k' [rest ->]]. apply Hq. exists k, (k' :: rest).
    unfold child. by rewrite <- app_assoc.
Qed.

Lemma outside_present_keys p k i l q :
  ~ below p q -> q ∉ present_keys p k i l.
Proof.
  intros Hq Hin. apply elem_of_present_keys in Hin as [j [e [_ ->]]].
  apply Hq, child_below.
Qed.

Lemma outside_option_key p k o q : ~ below p q -> q ∉ option_key p k o.
Proof.
  intros Hq Hin. destruct o; simpl in Hin.
  - apply list_elem_of_singleton in Hin as ->. apply Hq, child_below.
  - by apply elem_of_nil in Hin.
Qed.

(** Close [same_outside p (context st) (context st')] for an explicit
    [st'], whose store is the store of [st] after reads of children of [p]
    and a write at [p]. *)
Ltac outside_done :=
  intros q Hp Hq;
  cbn [_result context counter_temporary counter_reference counter_tuple];
  rewrite ?clear_app;
  repeat first
    [ rewrite lookup_insert_ne by exact (not_eq_sym Hp)
    | rewrite lookup_delete_ne
        by (intros <-; apply Hq, child_below)
    | rewrite lookup_clear_ne
        by first [ by apply outside_present_keys
                 | by apply outside_option_key ] ];
  reflexivity.

Lemma binary_rule_outside env p e t st st' :
  _post_binary_operation env p e t st = inr (tt, st') ->
  same_outside p (context st) (context st').
Proof.
  intros H.
  unfold _post_binary_operation, folding_guard, _attempt_constant_folding in H.
  run_inv H; outside_done.
Qed.

Lemma unary_rule_outside env p e t st st' :
  _post_unary_operation env p e t st = inr (tt, st') ->
  same_outside p (context st) (context st').
Proof.
  intros H.
  unfold _post_unary_operation, folding_guard, _attempt_constant_folding in H.
  run_inv H; outside_done.
Qed.

Lemma index_rule_outside p type st st' :
  _post_index_access p type st = inr (tt, st') ->
  same_outside p (context st) (context st').
Proof. intros H. unfold _post_index_access in H. run_inv H; outside_done. Qed.

Lemma member_rule_outside env p nested member_name st st' :
  _post_member_access env p nested member_name st = inr (tt, st') ->
  same_outside p (context st) (context st').
Proof. intros H. unfold _post_member_access in H. run_inv H; outside_done. Qed.

Lemma type_conversion_rule_outside p type st st' :
  _post_type_conversion p type st = inr (tt, st') ->
  same_outside p (context st) (context st').
Proof.
  intros H. unfold _post_type_conversion in H. run_inv H; outside_done.
Qed.

Lemma leaf_rules_outside p st st' :
  (forall value, _post_identifier p value st = inr (tt, st') ->
     same_outside p (context st) (context st')) /\
  (forall value type subdenomination,
     _post_literal p value type subdenomination st = inr (tt, st') ->
     same_outside p (context st) (context st')) /\
  (forall type,
     _post_elementary_type_name_expression p type st = inr (tt, st') ->
     same_outside p (context st) (context st')) /\
  (forall depth array_type,
     _post_new_array p depth array_type st = inr (tt, st') ->
     same_outside p (context st) (context st')) /\
  (forall type,
     _post_new_elementary_type p type st = inr (tt, st') ->
     same_outside p (context st) (context st')).
Proof.
  repeat split; intros;
    match goal with H : _ = inr _ |- _ =>
      unfold _post_identifier, _post_literal,
        _post_elementary_type_name_expression, _post_new_array,
        _post_new_elementary_type in H;
      run_inv H; outside_done
    end.
Qed.

Lemma assignment_rule_outside p type expression_return_type st st' :
  _post_assignement_operation p type expression_return_type st =
    inr (tt, st') ->
  same_outside p (context st) (context st').
Proof.
  intros H. unfold _post_assignement_operation in H.
  apply bind_inv in H as [left [st1 [Hleft H]]]. run_inv Hleft.
  apply bind_inv in H as [right [st2 [Hright H]]]. run_inv Hright.
  destruct left as [| | targets | | | | | | | | | | | | | | | | ];
    try (run_inv H; outside_done).
  destruct right as [| | sources | | | | | | | | | | | | | | | | ];
    apply bind_inv in H as [u [st3 [Hassert H]]]; run_inv Hassert;
    apply bind_inv in H as [u' [st4 [Hloop H]]];
    (apply for_enumerate_appends_only in Hloop as [ops ->];
     [run_inv H; outside_done |]);
    intros i x; destruct (is_None x); simpl;
    try apply ret_appends_only; try apply append_appends_only.
  intros s0 u0 s1 Hbody. run_inv Hbody. eexists. reflexivity.
Qed.

Lemma new_contract_rule_outside p contract_name call_value call_salt st st' :
  _post_new_contract p contract_name call_value call_salt st = inr (tt, st') ->
  same_outside p (context st) (context st').
Proof.
  intros H. unfold _post_new_contract in H.
  apply bind_inv in H as [val [st1 [Hval H]]]. run_inv Hval.
  apply bind_inv in H as [value [st2 [Hvalue H]]].
  apply get_option_inv in Hvalue as ->.
  apply bind_inv in H as [salt [st3 [Hsalt H]]].
  apply get_option_inv in Hsalt as ->.
  run_inv H. outside_done.
Qed.

Lemma tuple_rule_outside p expressions is_inline_array st st' :
  _post_tuple_expression p expressions is_inline_array st = inr (tt, st') ->
  same_outside p (context st) (context st').
Proof.
  intros H. unfold _post_tuple_expression in H.
  apply bind_inv in H as [vals [st1 [Hvals H]]].
  apply get_each_inv in Hvals as ->.
  run_inv H; outside_done.
Qed.

Lemma unresolved_call_outside p called args type_call call_gas call_value
    call_salt st st' :
  unresolved_call p called args type_call call_gas call_value call_salt st =
    inr (tt, st') ->
  same_outside p (context st) (context st').
Proof.
  intros H. unfold unresolved_call in H.
  apply bind_inv in H as [val [st1 [Hval H]]].
  apply bind_inv in H as [gas [st2 [Hgas H]]].
  apply get_option_inv in Hgas as ->.
  apply bind_inv in H as [value [st3 [Hvalue H]]].
  apply get_option_inv in Hvalue as ->.
  apply bind_inv in H as [salt [st4 [Hsalt H]]].
  apply get_option_inv in Hsalt as ->.
  run_inv H. destruct (returns_tuple type_call); run_inv Hval; outside_done.
Qed.

Lemma call_by_kind_outside p expression_called called args type_call call_gas
    call_value call_salt st st' :
  call_by_kind p expression_called called args type_call call_gas call_value
    call_salt st = inr (tt, st') ->
  same_outside p (context st) (context st').
Proof.
  intros H.
  assert (Hname :
    call_by_name p called args type_call call_gas call_value call_salt st =
      inr (tt, st') -> same_outside p (context st) (context st')).
  { clear H. intros H. unfold call_by_name in H.
    apply bind_inv in H as [name [st1 [Hattr H]]]. run_inv Hattr.
    repeat (match type of H with
            | (if ?b then _ else _) _ = _ => destruct b
            end; [run_inv H; outside_done |]).
    by apply unresolved_call_outside in H. }
  unfold call_by_kind in H.
  destruct called; try (by apply Hname).
  - destruct (is_wrap_or_unwrap_selector expression_called
              && Nat.eqb (length args) 1); [| by apply Hname].
    run_inv H; outside_done.
  - run_inv H; outside_done.
Qed.

Lemma call_rule_outside p expression_called arguments type_call call_gas
    call_value call_salt st st' :
  _post_call_expression p expression_called arguments type_call call_gas
    call_value call_salt st = inr (tt, st') ->
  same_outside p (context st) (context st').
Proof.
  intros H. unfold _post_call_expression in H.
  apply bind_inv in H as [called [st1 [Hget H]]]. run_inv Hget.
  apply bind_inv in H as [args [st2 [Hargs H]]].
  apply get_present_inv in Hargs as ->.
  apply bind_inv in H as [u [st3 [Hmarkers H]]].
  apply for_enumerate_appends_only in Hmarkers as [ops ->];
    [| intros i x; apply append_appends_only].
  apply call_by_kind_outside in H.
  eapply same_outside_trans; [| exact H]. outside_done.
Qed.

Lemma visit_option_outside (visit : NodeId -> Expression -> M unit) p k o
    st st' :
  OptP (fun e => forall p st st',
          visit p e st = inr (tt, st') ->
          same_outside p (context st) (context st')) o ->
  visit_option visit p k o st = inr (tt, st') ->
  same_outside p (context st) (context st').
Proof.
  destruct o as [e |]; simpl; intros Ho H.
  - eapply same_outside_child. by eapply Ho.
  - run_inv H. apply same_outside_refl.
Qed.

Lemma visit_each_outside (visit : NodeId -> Expression -> M unit) p k l :
  Forall (OptP (fun e => forall p st st',
                  visit p e st = inr (tt, st') ->
                  same_outside p (context st) (context st'))) l ->
  forall i st st',
    visit_each visit p k i l st = inr (tt, st') ->
    same_outside p (context st) (context st').
Proof.
  induction 1 as [| o l Ho _ IH]; intros i st st' H; simpl in H.
  - run_inv H. apply same_outside_refl.
  - apply bind_inv in H as [[] [st1 [Ho' H]]].
    eapply same_outside_trans;
      [by eapply visit_option_outside | by eapply IH].
Qed.

(** Split a successful visit of a node into the visits of its children,
    each local to the node, and the run of the node's rule. *)
Ltac local_children H :=
  repeat lazymatch type of H with
    | bind (_visit_expression _ _ ?e) _ _ = inr _ =>
        let st1 := fresh "st" in
        let Hchild := fresh "Hchild" in
        apply bind_inv in H as [[] [st1 [Hchild H]]];
        match goal with
        | IH : forall p st st', _visit_expression _ p e st = _ -> _ |- _ =>
            apply IH, same_outside_child in Hchild
        end
    | bind (visit_each _ _ _ _ ?l) _ _ = inr _ =>
        let st1 := fresh "st" in
        let Hchild := fresh "Hchild" in
        apply bind_inv in H as [[] [st1 [Hchild H]]];
        match goal with
        | IH : Forall _ l |- _ =>
            apply (visit_each_outside _ _ _ _ IH) in Hchild
        end
    | bind (visit_option _ _ _ ?o) _ _ = inr _ =>
        let st1 := fresh "st" in
        let Hchild := fresh "Hchild" in
        apply bind_inv in H as [[] [st1 [Hchild H]]];
        match goal with
        | IH : OptP _ o |- _ =>
            apply (visit_option_outside _ _ _ _ _ _ IH) in Hchild
        end
    end.

(** X22: lowering is local to the subtree it lowers: when the lowering of
    an expression at a node returns, every slot of the store that belongs
    neither to that node nor to a node below it holds what it held before,
    in either mode and whatever the expression; so the value a sibling has
    recorded is still there when the parent's rule reads it. *)
Theorem lowering_is_local env e :
  forall p st st',
    _visit_expression env p e st = inr (tt, st') ->
    forall q, q <> p -> ~ below p q -> context st' !! q = context st !! q.
Proof.
  change (forall p st st',
            _visit_expression env p e st = inr (tt, st') ->
            same_outside p (context st) (context st')).
  induction e as
    [ value | value type subdenomination | type
    | l r type return_type IHl IHr | l r type IHl IHr | nested type IHn
    | called arguments type_call call_gas call_value call_salt
        IHcalled IHargs IHgas IHvalue IHsalt
    | i t e' IHi IHt IHe | l r type IHl IHr | nested member_name IHn
    | depth array_type | contract_name call_value call_salt IHvalue IHsalt
    | type | expressions is_inline_array IHelems | nested type IHn ]
    using Expression_nested_ind; intros p st st' H;
    cbn [_visit_expression] in H; local_children H;
    repeat match goal with
           | Hchild : same_outside ?p (context ?a) _
             |- same_outside ?p (context ?a) _ =>
               apply (same_outside_trans _ _ _ _ Hchild); clear Hchild
           end.
  - by apply leaf_rules_outside in H.
  - by apply leaf_rules_outside in H.
  - by apply leaf_rules_outside in H.
  - by apply assignment_rule_outside in H.
  - by apply binary_rule_outside in H.
  - by apply unary_rule_outside in H.
  - by apply call_rule_outside in H.
  - discriminate H.
  - by apply index_rule_outside in H.
  - by apply member_rule_outside in H.
  - by apply leaf_rules_outside in H.
  - by apply new_contract_rule_outside in H.
  - by apply leaf_rules_outside in H.
  - by apply tuple_rule_outside in H.
  - by apply type_conversion_rule_outside in H.
Qed.

Lemma lowering_is_local_witness :
  context
    (mkState
       [set_expression (IR.Assignment Sample.a Sample.b uint256)
          (child [] k_right)]
       (<[child [] k_right := Sample.a]>
          (<[child [] k_left := Sample.x]> ∅)) 0 0 0) !! child [] k_left =
  context (mkState [] (<[child [] k_left := Sample.x]> ∅) 0 0 0)
    !! child [] k_left.
Proof.
  refine (lowering_is_local Sample.env Sample.a_assign_b (child [] k_right)
            (mkState [] (<[child [] k_left := Sample.x]> ∅) 0 0 0)
            (mkState
               [set_expression (IR.Assignment Sample.a Sample.b uint256)
                  (child [] k_right)]
               (<[child [] k_right := Sample.a]>
                  (<[child [] k_left := Sample.x]> ∅)) 0 0 0)
            _ (child [] k_left) _ _).
  - vm_compute. reflexivity.
  - discriminate.
  - intros [k [rest H]]. discriminate H.
Defined.
